(** * Mask-driven scrypt password search: model and verification

    The development follows the two programs of the repository: the
    search tool (charset table, odometer generator, verification oracle,
    worker pool, driving loop) and the record generation utility.  The
    Go code is embedded shallowly: pure functions become Rocq functions,
    loops become structural or fuelled recursion, and the goroutines of
    the search become a small-step interleaving semantics over an
    explicit shared state. *)

From Stdlib Require Import ZArith Lia Ascii String.
From stdpp Require Import base list strings relations.

Local Open Scope Z_scope.

(** ** Go primitives used by the programs *)

Module Go.

(** A Go [string] is an immutable sequence of bytes; it is modelled by
    [string], whose characters are 8-bit.  A [[]byte] is a list of the
    same characters. *)
Definition byte := ascii.
Definition rune := Z.

Definition byteZ (c : byte) : Z := Z.of_N (N_of_ascii c).

(** [[]byte(s)] and [string(b)]. *)
Definition bytes_of (s : string) : list byte := list_ascii_of_string s.
Definition string_of (b : list byte) : string := string_of_list_ascii b.

(** [len(s)] as a Go [int]. *)
Definition len (s : string) : Z := Z.of_nat (String.length s).

(** Two's complement wrap-around of [int] (64 bits) and [uint64]. *)
Definition wrap_int (z : Z) : Z := (z + 2 ^ 63) mod 2 ^ 64 - 2 ^ 63.
Definition wrap_uint64 (z : Z) : Z := z mod 2 ^ 64.

(** [s[k]]: indexing a string panics out of range ([None]). *)
Definition index (s : string) (k : Z) : option byte :=
  if (0 <=? k) && (k <? len s) then String.get (Z.to_nat k) s else None.

(** *** UTF-8 decoding, as performed by [for i, m := range s] *)

Definition RuneError : rune := 65533.

Inductive lead : Type :=
| LAscii
| LInvalid
| LMulti (sz : nat) (lo hi : Z).

(** The classification of a first byte (table [first] with its accept
    ranges in package [unicode/utf8]). *)
Definition first (b : Z) : lead :=
  if b <? 128 then LAscii
  else if b <? 194 then LInvalid
  else if b <? 224 then LMulti 2 128 191
  else if b =? 224 then LMulti 3 160 191
  else if b <? 237 then LMulti 3 128 191
  else if b =? 237 then LMulti 3 128 159
  else if b <? 240 then LMulti 3 128 191
  else if b =? 240 then LMulti 4 144 191
  else if b <? 244 then LMulti 4 128 191
  else if b =? 244 then LMulti 4 128 143
  else LInvalid.

Definition between (lo hi x : Z) : bool := (lo <=? x) && (x <=? hi).

Definition cont (x : Z) : Z := Z.land x 63.

(** The rune at the head of a byte sequence and its width in bytes. *)
Definition decodeRune (bs : list Z) : rune * nat :=
  match bs with
  | [] => (RuneError, 0%nat)
  | s0 :: t =>
    match first s0 with
    | LAscii => (s0, 1%nat)
    | LInvalid => (RuneError, 1%nat)
    | LMulti sz lo hi =>
      if (length bs <? sz)%nat then (RuneError, 1%nat) else
      match t with
      | [] => (RuneError, 1%nat)
      | s1 :: t1 =>
        if negb (between lo hi s1) then (RuneError, 1%nat) else
        if (sz <=? 2)%nat then
          (Z.lor (Z.shiftl (Z.land s0 31) 6) (cont s1), 2%nat)
        else
        match t1 with
        | [] => (RuneError, 1%nat)
        | s2 :: t2 =>
          if negb (between 128 191 s2) then (RuneError, 1%nat) else
          if (sz <=? 3)%nat then
            (Z.lor (Z.lor (Z.shiftl (Z.land s0 15) 12)
                          (Z.shiftl (cont s1) 6)) (cont s2), 3%nat)
          else
          match t2 with
          | [] => (RuneError, 1%nat)
          | s3 :: _ =>
            if negb (between 128 191 s3) then (RuneError, 1%nat) else
            (Z.lor (Z.lor (Z.lor (Z.shiftl (Z.land s0 7) 18)
                                 (Z.shiftl (cont s1) 12))
                          (Z.shiftl (cont s2) 6)) (cont s3), 4%nat)
          end
        end
      end
    end
  end.

(** [range_bytes skip off bs]: the (byte offset, rune) pairs of a
    [range] loop over the bytes [bs] that start at offset [off];
    [skip] counts the bytes still belonging to the rune decoded
    last. *)
Fixpoint range_bytes (skip off : nat) (bs : list Z) : list (nat * rune) :=
  match bs with
  | [] => []
  | _ :: t =>
    match skip with
    | S k => range_bytes k (S off) t
    | O => let '(r, w) := decodeRune bs in
           (off, r) :: range_bytes (w - 1) (S off) t
    end
  end.

Definition range (s : string) : list (nat * rune) :=
  range_bytes 0 0 (map byteZ (bytes_of s)).

End Go.

(** ** The charset table *)

Definition getCharset (m : Go.rune) : string :=
  if m =? 97 (* 'a' *) then
    "qwertyuiopasdfghjklzxcvbnmQWERTYUIOPASDFGHJKLZXCVBNM1234567890"
  else if m =? 100 (* 'd' *) then "1234567890"
  else if m =? 108 (* 'l' *) then "qwertyuiopasdfghjklzxcvbnm"
  else if m =? 117 (* 'u' *) then "QWERTYUIOPASDFGHJKLZXCVBNM"
  else if m =? 115 (* 's' *) then "!@#$%^&*()_+-=[]{}|;:,.<>?"
  else "".

(** The mask symbols of the table. *)
Definition class_runes : list Go.rune := [97; 100; 108; 117; 115].

(** ** The size of the search space *)

(** [total] is a [uint64]: every multiplication wraps modulo 2^64. *)
Definition calculateTotalCombinations (mask : string) : Z :=
  fold_left
    (fun total im => Go.wrap_uint64 (total * Go.len (getCharset (snd im))))
    (Go.range mask) 1.

(** ** The candidate generator *)

(** Outcome of the validation loop that fills [charsets]. *)
Inductive validation : Type :=
| Valid (charsets : list string)
| InvalidMask (m : Go.rune)
| ValidationPanic.

(** [for i, m := range mask { charsets[i] = getCharset(m); ... }] *)
Fixpoint fillCharsets (rs : list (nat * Go.rune)) (charsets : list string)
  : validation :=
  match rs with
  | [] => Valid charsets
  | (i, m) :: rest =>
    if decide (i < length charsets)%nat then
      let charsets := <[i := getCharset m]> charsets in
      match charsets !! i with
      | Some c => if String.eqb c "" then InvalidMask m
                  else fillCharsets rest charsets
      | None => ValidationPanic
      end
    else ValidationPanic
  end.

(** [for i := range mask { password[i] = charsets[i][ind[i]] }];
    [None] is an index out of range. *)
Fixpoint fillPassword (offs : list nat) (charsets : list string)
    (ind : list Z) (password : list Go.byte) : option (list Go.byte) :=
  match offs with
  | [] => Some password
  | i :: rest =>
    match charsets !! i, ind !! i with
    | Some c, Some k =>
      match Go.index c k with
      | Some b =>
        if decide (i < length password)%nat
        then fillPassword rest charsets ind (<[i := b]> password)
        else None
      | None => None
      end
    | _, _ => None
    end
  end.

(** The carry loop [for i := len(ind) - 1; i >= 0 && carry; i--], entered
    with [k = i + 1]; the result is the new index vector and the final
    value of [carry]. *)
Fixpoint advance (charsets : list string) (ind : list Z) (k : nat)
  : option (list Z * bool) :=
  match k with
  | O => Some (ind, true)
  | S i =>
    match ind !! i, charsets !! i with
    | Some v, Some c =>
      let v' := Go.wrap_int (v + 1) in
      if v' <? Go.len c then Some (<[i := v']> ind, false)
      else advance charsets (<[i := 0]> ind) i
    | _, _ => None
    end
  end.

(** What the generator goroutine has done when it stops: the candidates
    sent, in order, followed by the deferred [close(ch)] or by a panic. *)
Inductive gen_result : Type :=
| Closed (sent : list string)
| Panicked (sent : list string).

Definition sent_first (s : string) (r : option gen_result)
  : option gen_result :=
  match r with
  | Some (Closed l) => Some (Closed (s :: l))
  | Some (Panicked l) => Some (Panicked (s :: l))
  | None => None
  end.

(** The emitting loop; [None] when the fuel runs out. *)
Fixpoint gen_loop (fuel : nat) (offs : list nat) (charsets : list string)
    (ind : list Z) (password : list Go.byte) : option gen_result :=
  match fuel with
  | O => None
  | S fuel =>
    match fillPassword offs charsets ind password with
    | None => Some (Panicked [])
    | Some password =>
      let s := Go.string_of password in
      match advance charsets ind (length ind) with
      | None => Some (Panicked [s])
      | Some (ind, carry) =>
        if carry then Some (Closed [s])
        else sent_first s (gen_loop fuel offs charsets ind password)
      end
    end
  end.

(** [generatePasswords] taken alone: what it sends on its channel, in
    order, before the deferred [close(ch)] runs.  Its blocking on a full
    channel and its use of the wait group belong to the concurrent model
    below. *)
Definition generatePasswords (fuel : nat) (mask : string)
  : option gen_result :=
  let n := String.length mask in
  match fillCharsets (Go.range mask) (replicate n EmptyString) with
  | Valid charsets =>
    gen_loop fuel (Go.range mask).*1 charsets
             (replicate n 0) (replicate n zero)
  | InvalidMask _ => Some (Closed [])
  | ValidationPanic => Some (Panicked [])
  end.

(** ** Reference notions for the generator *)

(** The symbols of a mask, as its [range] loops see them, and the
    charset of every position. *)
Definition mask_runes (mask : string) : list Go.rune := (Go.range mask).*2.

Definition mask_charsets (mask : string) : list string :=
  getCharset <$> mask_runes mask.

(** The product of the charset sizes, without any bound on its size. *)
Definition product (charsets : list string) : Z :=
  foldr (fun c acc => Go.len c * acc) 1 charsets.

Definition SearchSpace (mask : string) : Z := product (mask_charsets mask).

(** The same product as a number of list elements. *)
Definition space (charsets : list string) : nat :=
  foldr (fun c acc => (String.length c * acc)%nat) 1%nat charsets.

(** Odometer enumeration, after the specification: every choice for the
    leftmost position is followed by the whole enumeration of the
    positions to its right, so the rightmost position changes fastest
    and each position runs through its charset in order from index 0. *)
Fixpoint odometer_enum (charsets : list string) : list string :=
  match charsets with
  | [] => [EmptyString]
  | c :: rest => ch ← Go.bytes_of c; String ch <$> odometer_enum rest
  end.

(** A string fits the charsets when its i-th byte lies in the i-th one. *)
Definition fits (charsets : list string) (s : string) : Prop :=
  Forall2 (fun b c => b ∈ Go.bytes_of c) (Go.bytes_of s) charsets.

(** Index vectors within their charsets, their value as a mixed-radix
    numeral (leftmost digit most significant) and the candidate they
    select. *)
Definition valid_ind (charsets : list string) (ind : list Z) : Prop :=
  Forall2 (fun c k => 0 <= k < Go.len c /\ Go.len c < 2 ^ 63) charsets ind.

Fixpoint rank (charsets : list string) (ind : list Z) : nat :=
  match charsets, ind with
  | _ :: cs, k :: ind => (Z.to_nat k * space cs + rank cs ind)%nat
  | _, _ => 0%nat
  end.

Fixpoint candidate (charsets : list string) (ind : list Z) : list Go.byte :=
  match charsets, ind with
  | c :: cs, k :: ind => default zero (Go.index c k) :: candidate cs ind
  | _, _ => []
  end.

(** ** The credential record and the verification oracle *)

Module ScryptData.
Record t : Type := mk {
  N : Z;
  R : Z;
  P : Z;
  KeyLen : Z;
  Salt : list Go.byte;
  Hash : list Go.byte
}.
End ScryptData.

(** What a call of [scrypt.Key] does: it returns, as its signature
    [([]byte, error)] says, a key with a nil error or an error, or it
    does not return because it panics (the library does on some
    parameters it does not reject with an error, such as a key length
    that is not positive) or the run-time aborts the program. *)
Inductive kdf_result : Type :=
| KdfOk (key : list Go.byte)
| KdfErr
| KdfPanic.

(** [bytes.Equal]: same length and the same bytes. *)
Fixpoint bytes_Equal (a b : list Go.byte) : bool :=
  match a, b with
  | [], [] => true
  | x :: a, y :: b => Ascii.eqb x y && bytes_Equal a b
  | _, _ => false
  end.

Section Oracle.

(** The key-derivation primitive of package [scrypt], external to the
    repository: [Key(password, salt, N, r, p, keyLen)]. *)
Variable scrypt_Key :
  list Go.byte -> list Go.byte -> Z -> Z -> Z -> Z -> kdf_result.

(** [verifyPassword] has no [recover]: a panic of [scrypt.Key] goes
    through it to the calling goroutine; [None] is that panic. *)
Definition verifyPassword (password : string) (data : ScryptData.t)
  : option bool :=
  match scrypt_Key (Go.bytes_of password) (ScryptData.Salt data)
          (ScryptData.N data) (ScryptData.R data) (ScryptData.P data)
          (ScryptData.KeyLen data) with
  | KdfErr => Some false
  | KdfOk hash => Some (bytes_Equal hash (ScryptData.Hash data))
  | KdfPanic => None
  end.

End Oracle.

(** ** The concurrent search

    The goroutines started by [main] are modelled at the grain of their
    operations on shared objects (channel send, receive and close,
    atomic load, add and compare-and-swap, wait-group operations); what
    a goroutine computes between two such operations is folded into the
    step that follows.  A state records the shared objects and the
    program point of every goroutine.  Time is not modelled: a step may
    take any amount of time, so the sleep of the completion goroutine is
    a step like any other and the verification of one candidate may
    outlast it.  The program ends when [main] returns or when a
    goroutine panics; until then every goroutine may move, also between
    the moment [main] reads the counter for its report and its return. *)

(** The generator goroutine. *)
Inductive gen_state : Type :=
| GStart
| GLoop (charsets : list string) (ind : list Z) (password : list Go.byte)
| GDeferred   (* returning: deferred [close(ch)] pending *)
| GClosed     (* channel closed: deferred [wg.Done()] pending *)
| GDone
| GPanic.     (* run-time panic: the program crashes *)

(** A worker goroutine. *)
Inductive worker_state : Type :=
| WRange                     (* [for password := range passwords] *)
| WLoad (password : string)  (* [found.Load()] *)
| WDrain                     (* [for range passwords {}] *)
| WAdd (password : string)   (* [tried.Add(1)] *)
| WVerify (password : string)
| WCas (password : string)   (* [found.CompareAndSwap(false, true)] *)
| WSend (password : string)  (* [result <- password] *)
| WReturn
| WPanic.     (* [scrypt.Key] panicked: the program crashes *)

(** The goroutine that signals completion. *)
Inductive waiter_state : Type :=
| DWait       (* [wg.Wait()] *)
| DSleep      (* [time.Sleep(100 * time.Millisecond)] *)
| DSend       (* [done <- true], a rendezvous with the select of main *)
| DReturn.

(** The two terminal reports with the attempt count they print. *)
Inductive report : Type :=
| Found (pwd : string) (attempts : Z)
| NotFound (attempts : Z).

Inductive main_state : Type :=
| MSelect
| MResult (pwd : string)   (* [case pwd := <-result] taken *)
| MDone                    (* [case <-done] taken *)
| MLoaded (r : report)     (* [tried.Load()] done, [return] pending *)
| MReturned (r : report).

Record state : Type := mkState {
  gen : gen_state;
  passwords : list string;     (* buffer of channel [passwords] *)
  passwords_closed : bool;
  workers : list worker_state;
  found : bool;
  tried : Z;
  result : list string;        (* buffer of channel [result] *)
  wg : Z;
  waiter : waiter_state;
  main : main_state
}.

Definition set_gen (g : gen_state) (s : state) : state :=
  mkState g (passwords s) (passwords_closed s) (workers s) (found s)
          (tried s) (result s) (wg s) (waiter s) (main s).
Definition set_passwords (q : list string) (s : state) : state :=
  mkState (gen s) q (passwords_closed s) (workers s) (found s)
          (tried s) (result s) (wg s) (waiter s) (main s).
Definition set_closed (b : bool) (s : state) : state :=
  mkState (gen s) (passwords s) b (workers s) (found s)
          (tried s) (result s) (wg s) (waiter s) (main s).
Definition set_workers (ws : list worker_state) (s : state) : state :=
  mkState (gen s) (passwords s) (passwords_closed s) ws (found s)
          (tried s) (result s) (wg s) (waiter s) (main s).
Definition set_found (b : bool) (s : state) : state :=
  mkState (gen s) (passwords s) (passwords_closed s) (workers s) b
          (tried s) (result s) (wg s) (waiter s) (main s).
Definition set_tried (n : Z) (s : state) : state :=
  mkState (gen s) (passwords s) (passwords_closed s) (workers s) (found s)
          n (result s) (wg s) (waiter s) (main s).
Definition set_result (r : list string) (s : state) : state :=
  mkState (gen s) (passwords s) (passwords_closed s) (workers s) (found s)
          (tried s) r (wg s) (waiter s) (main s).
Definition set_wg (n : Z) (s : state) : state :=
  mkState (gen s) (passwords s) (passwords_closed s) (workers s) (found s)
          (tried s) (result s) n (waiter s) (main s).
Definition set_waiter (d : waiter_state) (s : state) : state :=
  mkState (gen s) (passwords s) (passwords_closed s) (workers s) (found s)
          (tried s) (result s) (wg s) d (main s).
Definition set_main (m : main_state) (s : state) : state :=
  mkState (gen s) (passwords s) (passwords_closed s) (workers s) (found s)
          (tried s) (result s) (wg s) (waiter s) m.

(** Capacities of the two buffered channels. *)
Definition passwords_cap : Z := 10000.
Definition result_cap : Z := 1.

(** The goroutine that moves, with the case chosen when it is the
    select of main. *)
Inductive thread : Type :=
| TGen
| TWorker (i : nat)
| TWaiter
| TMainResult
| TMainDone
| TMainPrint
| TMainReturn.

Section Search.

Variable scrypt_Key :
  list Go.byte -> list Go.byte -> Z -> Z -> Z -> Z -> kdf_result.
Variable mask : string.
Variable data : ScryptData.t.
(** [runtime.NumCPU()] *)
Variable numWorkers : nat.

(** The state in which [main] enters its loop: [wg.Add(1)] done, every
    goroutine started and none of them scheduled yet. *)
Definition init : state :=
  mkState GStart [] false (replicate numWorkers WRange) false 0 [] 1
          DWait MSelect.

(** [generatePasswords], one operation at a time. *)
Definition gen_step (s : state) : option state :=
  match gen s with
  | GStart =>
    let n := String.length mask in
    Some (set_gen
            match fillCharsets (Go.range mask) (replicate n EmptyString) with
            | Valid charsets =>
              GLoop charsets (replicate n 0) (replicate n zero)
            | InvalidMask _ => GDeferred
            | ValidationPanic => GPanic
            end s)
  | GLoop charsets ind password =>
    match fillPassword (Go.range mask).*1 charsets ind password with
    | None => Some (set_gen GPanic s)
    | Some password =>
      if Z.of_nat (length (passwords s)) <? passwords_cap then
        Some (set_passwords (passwords s ++ [Go.string_of password])
                (set_gen
                   match advance charsets ind (length ind) with
                   | None => GPanic
                   | Some (ind, carry) =>
                     if carry then GDeferred
                     else GLoop charsets ind password
                   end s))
      else None
    end
  | GDeferred => Some (set_closed true (set_gen GClosed s))
  | GClosed => Some (set_wg (wg s - 1) (set_gen GDone s))
  | GDone | GPanic => None
  end.

(** [worker], one operation at a time. *)
Definition worker_step (w : worker_state) (s : state)
  : option (worker_state * state) :=
  match w with
  | WRange =>
    match passwords s with
    | password :: rest => Some (WLoad password, set_passwords rest s)
    | [] => if passwords_closed s then Some (WReturn, s) else None
    end
  | WLoad password =>
    Some (if found s then WDrain else WAdd password, s)
  | WDrain =>
    match passwords s with
    | _ :: rest => Some (WDrain, set_passwords rest s)
    | [] => if passwords_closed s then Some (WReturn, s) else None
    end
  | WAdd password =>
    Some (WVerify password, set_tried (Go.wrap_uint64 (tried s + 1)) s)
  | WVerify password =>
    Some (match verifyPassword scrypt_Key password data with
          | Some true => WCas password
          | Some false => WRange
          | None => WPanic
          end, s)
  | WCas password =>
    if found s then Some (WReturn, s)
    else Some (WSend password, set_found true s)
  | WSend password =>
    if Z.of_nat (length (result s)) <? result_cap
    then Some (WReturn, set_result (result s ++ [password]) s)
    else None
  | WReturn | WPanic => None
  end.

(** The anonymous goroutine [wg.Wait(); time.Sleep(...); done <- true];
    its last step is taken together with main ([TMainDone]). *)
Definition waiter_step (s : state) : option state :=
  match waiter s with
  | DWait => if wg s =? 0 then Some (set_waiter DSleep s) else None
  | DSleep => Some (set_waiter DSend s)
  | DSend | DReturn => None
  end.

(** A goroutine has panicked: the run-time ends the program. *)
Definition panicked (w : worker_state) : bool :=
  match w with
  | WPanic => true
  | _ => false
  end.

Definition crashed (s : state) : bool :=
  match gen s with
  | GPanic => true
  | _ => existsb panicked (workers s)
  end.

(** While [main] has not returned and no goroutine has panicked, the
    program runs; when [main] returns or a goroutine panics, every
    goroutine stops. *)
Definition alive (s : state) : bool :=
  match main s with
  | MReturned _ => false
  | _ => negb (crashed s)
  end.

(** One step of the chosen goroutine; [None] when it is blocked or has
    returned.  The ticker case of the select only prints and is not a
    step.  After [case pwd := <-result] or [case <-done], [main] prints,
    reads the counter with [tried.Load()] ([TMainPrint]) and, in a
    later step, returns ([TMainReturn]). *)
Definition exec (t : thread) (s : state) : option state :=
  if alive s then
    match t with
    | TGen => gen_step s
    | TWorker i =>
      match workers s !! i with
      | Some w =>
        match worker_step w s with
        | Some (w', s') => Some (set_workers (<[i := w']> (workers s')) s')
        | None => None
        end
      | None => None
      end
    | TWaiter => waiter_step s
    | TMainResult =>
      match main s, result s with
      | MSelect, pwd :: rest => Some (set_main (MResult pwd) (set_result rest s))
      | _, _ => None
      end
    | TMainDone =>
      match main s, waiter s with
      | MSelect, DSend => Some (set_main MDone (set_waiter DReturn s))
      | _, _ => None
      end
    | TMainPrint =>
      match main s with
      | MResult pwd => Some (set_main (MLoaded (Found pwd (tried s))) s)
      | MDone => Some (set_main (MLoaded (NotFound (tried s))) s)
      | _ => None
      end
    | TMainReturn =>
      match main s with
      | MLoaded r => Some (set_main (MReturned r) s)
      | _ => None
      end
    end
  else None.

Definition step (s s' : state) : Prop := exists t, exec t s = Some s'.

(** Running a schedule, a list of goroutines to move in turn. *)
Fixpoint run (sched : list thread) (s : state) : option state :=
  match sched with
  | [] => Some s
  | t :: sched =>
    match exec t s with
    | Some s' => run sched s'
    | None => None
    end
  end.

Definition reachable (s : state) : Prop := rtc step init s.

End Search.

(** ** Library functions used on the credential record

    The functions of the Go standard library that the two programs call
    on the record text, modelled on the inputs they receive here. *)

Module Lib.

(** *** [strings.TrimSpace] *)

(** The ASCII white space of [strings.TrimSpace]: tab, line feed,
    vertical tab, form feed, carriage return and space. *)
Definition asciiSpace (c : Go.byte) : bool :=
  let n := Go.byteZ c in
  (n =? 9) || (n =? 10) || (n =? 11) || (n =? 12) || (n =? 13)
  || (n =? 32).

(** Result of scanning white space from one end: where the scan
    stopped, at a byte that is not white space (or at the end), or at
    a byte outside ASCII, where the Unicode-aware path takes over. *)
Inductive scan : Type :=
| Stop (rest : list Go.byte)
| NonAscii (rest : list Go.byte).

Fixpoint skipSpace (s : list Go.byte) : scan :=
  match s with
  | [] => Stop []
  | c :: t =>
    if 128 <=? Go.byteZ c then NonAscii s
    else if asciiSpace c then skipSpace t
    else Stop s
  end.

Section Trim.

(** [TrimFunc(s, unicode.IsSpace)] and
    [TrimRightFunc(s, unicode.IsSpace)], reached only when a byte
    outside ASCII is met. *)
Variable TrimFunc_IsSpace : list Go.byte -> list Go.byte.
Variable TrimRightFunc_IsSpace : list Go.byte -> list Go.byte.

Definition TrimSpace (s : string) : string :=
  match skipSpace (Go.bytes_of s) with
  | NonAscii rest => Go.string_of (TrimFunc_IsSpace rest)
  | Stop rest =>
    match skipSpace (rev rest) with
    | NonAscii tser => Go.string_of (TrimRightFunc_IsSpace (rev tser))
    | Stop tser => Go.string_of (rev tser)
    end
  end.

End Trim.

(** *** [strings.Split] with a one-byte separator *)

Fixpoint Split (s : string) (sep : Go.byte) : list string :=
  match s with
  | EmptyString => [EmptyString]
  | String c t =>
    if Ascii.eqb c sep then EmptyString :: Split t sep
    else match Split t sep with
         | h :: parts => String c h :: parts
         | [] => [String c EmptyString]
         end
  end.

(** *** [strconv.Atoi] and the verb [%d] *)

Definition digit (c : Go.byte) : option Z :=
  let n := Go.byteZ c - 48 in
  if (0 <=? n) && (n <=? 9) then Some n else None.

Fixpoint digits (acc : Z) (s : list Go.byte) : option Z :=
  match s with
  | [] => Some acc
  | c :: t =>
    match digit c with
    | Some d => digits (acc * 10 + d) t
    | None => None
    end
  end.

(** [Atoi]: an optional sign, at least one decimal digit and nothing
    else, the value within the 64-bit [int]; [None] is an error. *)
Definition Atoi (s : string) : option Z :=
  let '(neg, body) :=
    match s with
    | String "-" t => (true, t)
    | String "+" t => (false, t)
    | _ => (false, s)
    end in
  match body with
  | EmptyString => None
  | _ =>
    match digits 0 (Go.bytes_of body) with
    | None => None
    | Some v =>
      let n := if neg then - v else v in
      if (- 2 ^ 63 <=? n) && (n <? 2 ^ 63) then Some n else None
    end
  end.

Definition digitChar (d : Z) : Go.byte := ascii_of_N (Z.to_N (48 + d)).

(** Decimal digits of a non-negative number, least significant first
    into the buffer, as [strconv] formats; twenty digits hold any
    64-bit magnitude. *)
Fixpoint formatBits (fuel : nat) (u : Z) (buf : list Go.byte)
  : list Go.byte :=
  match fuel with
  | O => buf
  | S fuel =>
    let buf := digitChar (u mod 10) :: buf in
    if u <? 10 then buf else formatBits fuel (u / 10) buf
  end.

(** [fmt.Sprintf("%d", n)] for an [int]. *)
Definition Itoa (n : Z) : string :=
  if n <? 0 then String "-" (Go.string_of (formatBits 20 (- n) []))
  else Go.string_of (formatBits 20 n []).

(** *** Package [encoding/hex] *)

Definition hexChar (d : Z) : Go.byte :=
  if d <? 10 then ascii_of_N (Z.to_N (48 + d))
  else ascii_of_N (Z.to_N (87 + d)).

Fixpoint EncodeToString_bytes (src : list Go.byte) : list Go.byte :=
  match src with
  | [] => []
  | b :: t =>
    hexChar (Z.shiftr (Go.byteZ b) 4) :: hexChar (Z.land (Go.byteZ b) 15)
    :: EncodeToString_bytes t
  end.

Definition EncodeToString (src : list Go.byte) : string :=
  Go.string_of (EncodeToString_bytes src).

(** The value of a hexadecimal digit of either case. *)
Definition fromHexChar (c : Go.byte) : option Z :=
  let n := Go.byteZ c in
  if (48 <=? n) && (n <=? 57) then Some (n - 48)
  else if (97 <=? n) && (n <=? 102) then Some (n - 87)
  else if (65 <=? n) && (n <=? 70) then Some (n - 55)
  else None.

Fixpoint Decode (src : list Go.byte) : option (list Go.byte) :=
  match src with
  | [] => Some []
  | [_] => None
  | p :: q :: t =>
    match fromHexChar p, fromHexChar q with
    | Some a, Some b =>
      match Decode t with
      | Some dst =>
        Some (ascii_of_N (Z.to_N (Z.lor (Z.shiftl a 4) b)) :: dst)
      | None => None
      end
    | _, _ => None
    end
  end.

(** [hex.DecodeString]; [None] is an error (bad digit or odd length). *)
Definition DecodeString (s : string) : option (list Go.byte) :=
  Decode (Go.bytes_of s).

End Lib.

(** ** Parsing the credential record *)

Inductive parse_error : Type :=
| ReadError
| InvalidFormat (parts : nat)
| InvalidN
| InvalidR
| InvalidP
| InvalidKeyLen
| InvalidSalt
| InvalidHash.

Section Record.

Variable TrimFunc_IsSpace : list Go.byte -> list Go.byte.
Variable TrimRightFunc_IsSpace : list Go.byte -> list Go.byte.
(** [os.ReadFile]: the content of a file, if it can be read. *)
Variable ReadFile : string -> option string.

Definition parseFile (filename : string) : ScryptData.t + parse_error :=
  match ReadFile filename with
  | None => inr ReadError
  | Some content =>
    let parts :=
      Lib.Split (Lib.TrimSpace TrimFunc_IsSpace TrimRightFunc_IsSpace
                   content) "*"%char in
    match parts with
    | [p0; p1; p2; p3; p4; p5] =>
      match Lib.Atoi p0 with
      | None => inr InvalidN
      | Some n =>
        match Lib.Atoi p1 with
        | None => inr InvalidR
        | Some r =>
          match Lib.Atoi p2 with
          | None => inr InvalidP
          | Some p =>
            match Lib.Atoi p3 with
            | None => inr InvalidKeyLen
            | Some keyLen =>
              match Lib.DecodeString p4 with
              | None => inr InvalidSalt
              | Some salt =>
                match Lib.DecodeString p5 with
                | None => inr InvalidHash
                | Some hash =>
                  inl (ScryptData.mk n r p keyLen salt hash)
                end
              end
            end
          end
        end
      end
    | _ => inr (InvalidFormat (length parts))
    end
  end.

(** *** Start of [main] in the search tool *)

Inductive startup : Type :=
| UsageExit (code : Z)
| ParseErrorExit (e : parse_error) (code : Z)
| StartSearch (data : ScryptData.t) (total : Z).

(** [maskFlag] is the value of [-m], [args] the remaining arguments. *)
Definition main_startup (maskFlag : string) (args : list string)
  : startup :=
  if String.eqb maskFlag EmptyString || (Z.of_nat (length args) <? 1)
  then UsageExit 1
  else
    match args with
    | [] => UsageExit 1
    | file :: _ =>
      match parseFile file with
      | inr e => ParseErrorExit e 1
      | inl data => StartSearch data (calculateTotalCombinations maskFlag)
      end
    end.

End Record.

(** ** The record generation utility *)

Inductive gen_outcome : Type :=
| GenUsageExit (code : Z)
| GenHashErrorExit (code : Z)
| GenPanic   (* [scrypt.Key] panicked *)
| GenWriteFile (path content : string)
| GenPrintln (line : string).

Section Generation.

Variable scrypt_Key :
  list Go.byte -> list Go.byte -> Z -> Z -> Z -> Z -> kdf_result.

Definition computeScryptHash (password : string) (salt : list Go.byte)
    (N r p keyLen : Z) : kdf_result :=
  scrypt_Key (Go.bytes_of password) salt N r p keyLen.

(** The record text [N*r*p*keyLen*hex(salt)*hex(hash)]. *)
Definition record_text (N r p keyLen : Z) (salt hashValue : list Go.byte)
  : string :=
  Lib.Itoa N +:+ "*" +:+ Lib.Itoa r +:+ "*" +:+ Lib.Itoa p +:+ "*"
  +:+ Lib.Itoa keyLen +:+ "*" +:+ Lib.EncodeToString salt +:+ "*"
  +:+ Lib.EncodeToString hashValue.

(** [main] of the utility; [salt] is what [generateRandom(16)] drew. *)
Definition gen_main (password output : string) (N r p keyLen : Z)
    (salt : list Go.byte) : gen_outcome :=
  if String.eqb password EmptyString then GenUsageExit 1
  else
    match computeScryptHash password salt N r p keyLen with
    | KdfErr => GenHashErrorExit 1
    | KdfPanic => GenPanic
    | KdfOk hashValue =>
      let result := record_text N r p keyLen salt hashValue in
      if negb (String.eqb output EmptyString)
      then GenWriteFile output result
      else GenPrintln (result +:+ String "010" EmptyString)
    end.

End Generation.

(** ** Concrete instances for the examples

    A stand-in for the external key-derivation function, used only to
    instantiate statements on concrete inputs: it rejects a cost
    parameter [N <= 1] with an error and panics on a key length that is
    not positive, as [scrypt.Key] does, and otherwise derives the key
    from the password and the salt. *)
Definition example_Key (password salt : list Go.byte) (N r p keyLen : Z)
  : kdf_result :=
  if N <=? 1 then KdfErr
  else if keyLen <=? 0 then KdfPanic
  else KdfOk (password ++ salt).

(** A record whose cost parameter is rejected by the derivation. *)
Definition record_invalid : ScryptData.t :=
  ScryptData.mk 0 8 1 32 [] [].

(** The record of the text [16384*8*1*-1*0a*0b]: [parseFile] accepts
    it, and the derivation panics on its key length. *)
Definition record_negative_keyLen : ScryptData.t :=
  ScryptData.mk 16384 8 1 (-1) ["010"%char] ["011"%char].

(** The record of the text [16*8*1*0*0a*], with key length 0 and an
    empty digest. *)
Definition record_zero_keyLen : ScryptData.t :=
  ScryptData.mk 16 8 1 0 ["010"%char] [].

(** A record with a costly derivation, derived from the password
    ["none"], which no mask used below produces. *)
Definition record_no_match : ScryptData.t :=
  ScryptData.mk 1048576 8 1 32 [] (Go.bytes_of "none").

(** A record with a costly derivation, derived from the password ["0"]. *)
Definition record_of_0 : ScryptData.t :=
  ScryptData.mk 1048576 8 1 32 [] (Go.bytes_of "0").

(** Sixty-four digit positions: the product of the sizes is [10 ^ 64], a
    multiple of [2 ^ 64]. *)
Definition mask_d64 : string :=
  "dddddddddddddddddddddddddddddddddddddddddddddddddddddddddddddddd".

(** ** Notions used in the proofs about the concurrent search *)

(** Candidates a worker has received and not yet counted. *)
Definition holding (w : worker_state) : Z :=
  match w with
  | WLoad _ | WAdd _ => 1
  | _ => 0
  end.

Definition held (ws : list worker_state) : Z :=
  foldr (fun w acc => holding w + acc) 0 ws.

(** Workers about to send on [result], and whether main has received. *)
Definition sending_one (w : worker_state) : Z :=
  match w with
  | WSend _ => 1
  | _ => 0
  end.

Definition sending (ws : list worker_state) : Z :=
  foldr (fun w acc => sending_one w + acc) 0 ws.

Definition main_took (m : main_state) : Z :=
  match m with
  | MResult _ | MLoaded (Found _ _) | MReturned (Found _ _) => 1
  | _ => 0
  end.

(** The number of candidates delivered on [result] so far: those still in
    its buffer and the one main has received. *)
Definition deliveries (s : state) : Z :=
  Z.of_nat (length (result s)) + main_took (main s).

Definition waiter_returned (d : waiter_state) : bool :=
  match d with
  | DReturn => true
  | _ => false
  end.

Definition main_done (m : main_state) : bool :=
  match m with
  | MDone | MLoaded (NotFound _) | MReturned (NotFound _) => true
  | _ => false
  end.

(** A worker has returned only after the channel was closed or the flag
    was set, and drains only after the flag was set. *)
Definition worker_ok (closed flag : bool) (w : worker_state) : Prop :=
  match w with
  | WReturn => closed = true \/ flag = true
  | WDrain => flag = true
  | _ => True
  end.

(** A worker that is waiting for a candidate or has returned. *)
Definition worker_idle (w : worker_state) : Prop :=
  w = WRange \/ w = WReturn.

(** Weights of the program points, for the termination measure. *)
Definition worker_weight (w : worker_state) : nat :=
  match w with
  | WLoad _ => 6
  | WAdd _ => 5
  | WVerify _ => 4
  | WCas _ => 3
  | WSend _ => 2
  | WRange | WDrain => 1
  | WReturn | WPanic => 0
  end.

Definition workers_weight (ws : list worker_state) : nat :=
  foldr (fun w acc => worker_weight w + acc)%nat 0%nat ws.

Definition waiter_weight (d : waiter_state) : nat :=
  match d with
  | DWait => 2
  | DSleep => 1
  | DSend | DReturn => 0
  end.

Definition main_weight (m : main_state) : nat :=
  match m with
  | MSelect => 3
  | MResult _ | MDone => 2
  | MLoaded _ => 1
  | MReturned _ => 0
  end.

Section Invariants.

Variable mask : string.
Variable numWorkers : nat.

(** The number of candidates sent so far, read off the generator. *)
Definition emitted (g : gen_state) : Z :=
  match g with
  | GStart | GPanic => 0
  | GLoop cs ind _ => Z.of_nat (rank cs ind)
  | GDeferred | GClosed | GDone => SearchSpace mask
  end.

Definition gen_ok (g : gen_state) : Prop :=
  match g with
  | GLoop cs ind pw =>
    Forall (fun m => m ∈ class_runes) (mask_runes mask)
    /\ cs = mask_charsets mask /\ valid_ind cs ind
    /\ length pw = length cs
  | GPanic => False
  | _ => True
  end.

Definition count_inv (s : state) : Prop :=
  gen_ok (gen s)
  /\ 0 <= tried s
  /\ tried s + Z.of_nat (length (passwords s)) + held (workers s)
     <= emitted (gen s)
  /\ emitted (gen s) <= SearchSpace mask.

(** The protocol invariant: wait group, channel state, completion
    signal, and the single delivery under the flag. *)
Definition proto_inv (s : state) : Prop :=
  length (workers s) = numWorkers
  /\ wg s = match gen s with GDone => 0 | _ => 1 end
  /\ passwords_closed s
     = match gen s with GClosed | GDone => true | _ => false end
  /\ waiter_returned (waiter s) = main_done (main s)
  /\ sending (workers s) + deliveries s = (if found s then 1 else 0)
  /\ Forall (worker_ok (passwords_closed s) (found s)) (workers s).

(** The termination measure. *)
Definition gen_weight (g : gen_state) : nat :=
  match g with
  | GStart => space (mask_charsets mask) + 3
  | GLoop cs ind _ => space cs - rank cs ind + 2
  | GDeferred => 2
  | GClosed => 1
  | GDone | GPanic => 0
  end.

Definition measure (s : state) : nat :=
  8 * gen_weight (gen s) + 7 * length (passwords s)
  + workers_weight (workers s) + waiter_weight (waiter s)
  + main_weight (main s).

(** What a run on a mask with an unrecognised symbol never leaves. *)
Definition idle_inv (s : state) : Prop :=
  passwords s = [] /\ Forall worker_idle (workers s) /\ result s = []
  /\ tried s = 0
  /\ (main s = MSelect \/ main s = MDone
      \/ main s = MLoaded (NotFound 0)
      \/ main s = MReturned (NotFound 0)).

End Invariants.

(** The candidate a worker has received and not yet disposed of. *)
Definition pending (w : worker_state) : option string :=
  match w with
  | WLoad pw | WAdd pw | WVerify pw | WCas pw => Some pw
  | _ => None
  end.

(** A worker that has not seen a candidate verify. *)
Definition worker_searching (candidates : list string) (w : worker_state)
  : Prop :=
  match w with
  | WLoad pw | WAdd pw | WVerify pw => pw ∈ candidates
  | WRange | WReturn | WPanic => True
  | WDrain | WCas _ | WSend _ => False
  end.

Section Flow.

Variable scrypt_Key :
  list Go.byte -> list Go.byte -> Z -> Z -> Z -> Z -> kdf_result.
Variable mask : string.
Variable data : ScryptData.t.

(** While the flag is unset no candidate has been drained: the counter
    is exact, every matching candidate sent so far is still queued or in
    the hands of a worker, and a worker has returned only from the
    closed and empty channel. *)
Definition flow_inv (s : state) : Prop :=
  found s = false ->
  tried s
  = (emitted mask (gen s) - Z.of_nat (length (passwords s))
     - held (workers s)) mod 2 ^ 64
  /\ (forall c,
        c ∈ take (Z.to_nat (emitted mask (gen s)))
                 (odometer_enum (mask_charsets mask)) ->
        verifyPassword scrypt_Key c data = Some true ->
        c ∈ passwords s
        \/ exists i w, workers s !! i = Some w /\ pending w = Some c)
  /\ Forall (fun w => w = WReturn ->
                      passwords s = [] /\ passwords_closed s = true)
            (workers s).

(** When no candidate verifies, the flag stays unset and no worker
    leaves its loop early. *)
Definition nomatch_inv (s : state) : Prop :=
  found s = false
  /\ Forall (fun c => c ∈ odometer_enum (mask_charsets mask)) (passwords s)
  /\ Forall (worker_searching (odometer_enum (mask_charsets mask)))
            (workers s).

End Flow.

(** ** Notions used in the proofs about the record *)

(** The bytes a record field is made of: a sign, decimal digits and
    lower-case hexadecimal digits. *)
Definition field_bytes : list Go.byte := Go.bytes_of "-0123456789abcdef".

Definition field (l : list Go.byte) : Prop := Forall (fun c => c ∈ field_bytes) l.

(** A byte at which no trimming happens. *)
Definition plain (c : Go.byte) : Prop :=
  (128 <=? Go.byteZ c) = false /\ Lib.asciiSpace c = false.

(** The values of a 64-bit [int]. *)
Definition int_range (z : Z) : Prop := - 2 ^ 63 <= z < 2 ^ 63.

(** ** Further notions used in the proofs *)

(** Printable ASCII, without the space. *)
Definition printable (b : Go.byte) : Prop := 33 <= Go.byteZ b <= 126.

(** Occurrences of a byte in a string. *)
Fixpoint count_byte (sep : Go.byte) (s : string) : nat :=
  match s with
  | EmptyString => 0
  | String c t => (if Ascii.eqb c sep then 1 else 0) + count_byte sep t
  end.

(** The attempt count a report prints. *)
Definition attempts (r : report) : Z :=
  match r with
  | Found _ n | NotFound n => n
  end.

(** A worker that has counted the candidate it holds. *)
Definition worker_counted (w : worker_state) : Prop :=
  match w with
  | WVerify _ | WCas _ | WSend _ => True
  | _ => False
  end.

(** As long as the counter is 0 no candidate has got past the counting
    step. *)
Definition counted_inv (s : state) : Prop :=
  tried s = 0 ->
  Forall (fun w => ~ worker_counted w) (workers s)
  /\ result s = [] /\ main_took (main s) = 0.

(** The report [main] has read the counter for. *)
Definition reported (m : main_state) : option report :=
  match m with
  | MLoaded r | MReturned r => Some r
  | _ => None
  end.

(** The completion goroutine goes past [wg.Wait()] only once the wait
    group is at zero, and the count of a report is a value of the
    counter, between 0 and the number of candidates. *)
Definition signal_inv (mask : string) (s : state) : Prop :=
  (waiter s <> DWait -> wg s = 0)
  /\ (forall r, reported (main s) = Some r ->
        0 <= attempts r <= SearchSpace mask).

(** As long as the counter cannot wrap, a report carries a value the
    counter has had: the counter has not gone below it since, and with
    a received candidate it is not 0. *)
Definition report_inv (s : state) : Prop :=
  forall r, reported (main s) = Some r ->
    0 <= attempts r <= tried s
    /\ (main_took (main s) = 1 -> 1 <= attempts r).

Section Soundness.

Variable scrypt_Key :
  list Go.byte -> list Go.byte -> Z -> Z -> Z -> Z -> kdf_result.
Variable mask : string.
Variable data : ScryptData.t.

(** A candidate of the mask that verifies against the record. *)
Definition verified (pw : string) : Prop :=
  pw ∈ odometer_enum (mask_charsets mask)
  /\ verifyPassword scrypt_Key pw data = Some true.

Definition worker_sound (w : worker_state) : Prop :=
  match w with
  | WLoad pw | WAdd pw | WVerify pw => pw ∈ odometer_enum (mask_charsets mask)
  | WCas pw | WSend pw => verified pw
  | WRange | WDrain | WReturn | WPanic => True
  end.

Definition main_sound (m : main_state) : Prop :=
  match m with
  | MResult pw | MLoaded (Found pw _) | MReturned (Found pw _) =>
    verified pw
  | _ => True
  end.

(** Whatever travels through the channels is a candidate of the mask,
    and whatever gets past the compare-and-swap has verified. *)
Definition sound_inv (s : state) : Prop :=
  Forall (fun pw => pw ∈ odometer_enum (mask_charsets mask)) (passwords s)
  /\ Forall worker_sound (workers s)
  /\ Forall verified (result s)
  /\ main_sound (main s).

(** A worker panics only on a candidate on which the derivation
    panics. *)
Definition panic_inv (s : state) : Prop :=
  crashed s = true ->
  exists pw, pw ∈ odometer_enum (mask_charsets mask)
             /\ verifyPassword scrypt_Key pw data = None.

End Soundness.

(** * Properties *)

(** ** Strings, bytes and [range] *)

Lemma byteZ_bounds (c : Go.byte) : 0 <= Go.byteZ c < 256.
Proof.
  unfold Go.byteZ. pose proof (N_ascii_bounded c). lia.
Qed.

Lemma byteZ_inj (c d : Go.byte) : Go.byteZ c = Go.byteZ d -> c = d.
Proof.
  unfold Go.byteZ. intros H. apply N2Z.inj in H.
  rewrite <- (ascii_N_embedding c), <- (ascii_N_embedding d). congruence.
Qed.

Lemma string_length_bytes (s : string) :
  String.length s = length (Go.bytes_of s).
Proof. induction s as [|c s IH]; simpl; [done | by rewrite IH]. Qed.

Lemma string_get_bytes (s : string) (n : nat) :
  String.get n s = Go.bytes_of s !! n.
Proof.
  revert n. induction s as [|c s IH]; intros [|n]; simpl; by try apply IH.
Qed.

Lemma bytes_of_string_of (b : list Go.byte) : Go.bytes_of (Go.string_of b) = b.
Proof. apply list_ascii_of_string_of_list_ascii. Qed.

Lemma string_of_bytes_of (s : string) : Go.string_of (Go.bytes_of s) = s.
Proof. apply string_of_list_ascii_of_string. Qed.

Lemma index_bytes (s : string) (k : Z) :
  0 <= k < Go.len s -> Go.index s k = Go.bytes_of s !! Z.to_nat k.
Proof.
  intros Hk. unfold Go.index.
  destruct (Z.leb_spec 0 k); [|lia]. destruct (Z.ltb_spec k (Go.len s)); [|lia].
  simpl. apply string_get_bytes.
Qed.

Lemma lor_ge_l (a b : Z) : 0 <= a -> 0 <= b -> a <= Z.lor a b.
Proof.
  intros Ha Hb.
  assert (Hd : Z.ldiff a (Z.lor a b) = 0).
  { apply Z.bits_inj'. intros n Hn.
    rewrite Z.ldiff_spec, Z.lor_spec, Z.bits_0.
    by destruct (Z.testbit a n), (Z.testbit b n). }
  apply Z.ldiff_le in Hd; [lia|]. apply Z.lor_nonneg; lia.
Qed.

Lemma lor_ge_r (a b : Z) : 0 <= a -> 0 <= b -> b <= Z.lor a b.
Proof. intros. rewrite Z.lor_comm. by apply lor_ge_l. Qed.

(** Lower bounds for every disjunction inside a term. *)
Ltac lor_bounds t :=
  lazymatch t with
  | Z.lor ?a ?b =>
    lor_bounds a; lor_bounds b;
    let Ha := fresh in let Hb := fresh in
    assert (Ha : 0 <= a) by (Z.div_mod_to_equations; lia);
    assert (Hb : 0 <= b) by (Z.div_mod_to_equations; lia);
    pose proof (lor_ge_l a b Ha Hb); pose proof (lor_ge_r a b Ha Hb)
  | _ => idtac
  end.

Lemma land_low (a : Z) (n : Z) :
  0 <= n -> Z.land a (Z.ones n) = a mod 2 ^ n.
Proof. intros. by apply Z.land_ones. Qed.

Lemma decodeRune_ascii (s0 : Z) (t : list Z) :
  s0 < 128 -> Go.decodeRune (s0 :: t) = (s0, 1%nat).
Proof.
  intros H. unfold Go.decodeRune, Go.first.
  by destruct (Z.ltb_spec s0 128); [|lia].
Qed.

(** A first byte outside ASCII never decodes to an ASCII rune. *)
Lemma decodeRune_nonascii (s0 : Z) (t : list Z) :
  128 <= s0 < 256 ->
  Forall (fun b => 0 <= b < 256) t ->
  128 <= (Go.decodeRune (s0 :: t)).1.
Proof.
  intros Hs0 Ht.
  assert (H31 : Z.land s0 31 = s0 mod 2 ^ 5) by (apply (land_low s0 5); lia).
  assert (H15 : Z.land s0 15 = s0 mod 2 ^ 4) by (apply (land_low s0 4); lia).
  assert (H7 : Z.land s0 7 = s0 mod 2 ^ 3) by (apply (land_low s0 3); lia).
  assert (Hc : forall x, 0 <= x -> Go.cont x = x mod 2 ^ 6).
  { intros x _. apply (land_low x 6). lia. }
  assert (Hsh : forall x n, 0 <= n -> Z.shiftl x n = x * 2 ^ n).
  { intros. by apply Z.shiftl_mul_pow2. }
  unfold Go.decodeRune, Go.first, Go.RuneError, Go.between.
  repeat match goal with
  | |- context [Z.ltb ?a ?b] => destruct (Z.ltb_spec a b)
  | |- context [Z.eqb ?a ?b] => destruct (Z.eqb_spec a b)
  end; simpl; try lia;
  repeat match goal with
  | |- context [Nat.ltb ?a ?b] => destruct (Nat.ltb_spec a b); simpl
  | |- context [match ?l with [] => _ | _ :: _ => _ end] =>
      let x := fresh "x" in
      destruct l as [|x ?]; simpl;
      [|match goal with H : Forall _ (x :: _) |- _ =>
          apply Forall_cons in H; destruct H end]
  | |- context [Z.leb ?a ?b] => destruct (Z.leb_spec a b); simpl
  end; try lia;
  rewrite ?H31, ?H15, ?H7, ?Hc, ?Hsh by lia.
  all: change (2 ^ 3) with 8; change (2 ^ 4) with 16; change (2 ^ 5) with 32;
    change (2 ^ 6) with 64; change (2 ^ 12) with 4096;
    change (2 ^ 18) with 262144.
  all: match goal with |- _ <= ?r => lor_bounds r end.
  all: Z.div_mod_to_equations; lia.
Qed.

Lemma range_bytes_ascii (bs : list Z) (off : nat) :
  Forall (fun b => b < 128) bs ->
  Go.range_bytes 0 off bs = zip (seq off (length bs)) bs.
Proof.
  revert off. induction bs as [|b bs IH]; intros off Hbs; [done|].
  apply Forall_cons in Hbs as [Hb Hbs].
  cbn [Go.range_bytes]. rewrite decodeRune_ascii by done.
  simpl. by rewrite IH.
Qed.

(** Offsets produced by [range] lie inside the string. *)
Lemma range_bytes_offsets (bs : list Z) (skip off : nat) :
  Forall (fun im => off <= im.1 < off + length bs)%nat
         (Go.range_bytes skip off bs).
Proof.
  revert skip off. induction bs as [|b bs IH]; intros skip off; [constructor|].
  cbn [Go.range_bytes]. destruct skip as [|k].
  - destruct (Go.decodeRune (b :: bs)) as [r w]. constructor; [simpl; lia|].
    eapply Forall_impl; [apply IH|]. simpl. intros; lia.
  - eapply Forall_impl; [apply IH|]. simpl. intros; lia.
Qed.

(** When every rune met by [range] is ASCII, so is every byte. *)
Lemma range_bytes_all_ascii (bs : list Z) (off : nat) :
  Forall (fun b => 0 <= b < 256) bs ->
  Forall (fun r => r < 128) (Go.range_bytes 0 off bs).*2 ->
  Forall (fun b => b < 128) bs.
Proof.
  revert off. induction bs as [|b bs IH]; intros off Hbs Hr; [constructor|].
  apply Forall_cons in Hbs as [Hb Hbs].
  cbn [Go.range_bytes] in Hr.
  destruct (Z.lt_ge_cases b 128) as [Hlt|Hge].
  - rewrite decodeRune_ascii in Hr by done. simpl in Hr.
    apply Forall_cons in Hr as [_ Hr]. constructor; [done|]. by eapply IH.
  - pose proof (decodeRune_nonascii b bs ltac:(lia) Hbs) as Hd.
    destruct (Go.decodeRune (b :: bs)) as [r w]. simpl in Hr, Hd.
    apply Forall_cons in Hr as [Hr _]. lia.
Qed.

Lemma string_bytes_bounds (s : string) :
  Forall (fun b => 0 <= b < 256) (map Go.byteZ (Go.bytes_of s)).
Proof. apply Forall_fmap, Forall_true. intros c. apply byteZ_bounds. Qed.

(** ** The charset table *)

Ltac case_rune m :=
  repeat match goal with
  | |- context [Z.eqb m ?k] => destruct (Z.eqb_spec m k) as [->|?]
  end.

Lemma getCharset_empty_iff (m : Go.rune) :
  getCharset m = EmptyString <-> m ∉ class_runes.
Proof.
  unfold getCharset, class_runes. rewrite !elem_of_cons, elem_of_nil.
  case_rune m; (split; [intros H; try discriminate H | intros H]);
    try done; try lia.
  all: exfalso; apply H; auto 10.
Qed.

Lemma class_rune_ascii (m : Go.rune) : m ∈ class_runes -> m < 128.
Proof.
  unfold class_runes. rewrite !elem_of_cons, elem_of_nil. lia.
Qed.

Lemma getCharset_size (m : Go.rune) :
  m ∈ class_runes -> 0 < Go.len (getCharset m) <= 62.
Proof.
  unfold class_runes. rewrite !elem_of_cons, elem_of_nil.
  intros [->|[->|[->|[->|[->|[]]]]]]; vm_compute; split; congruence.
Qed.

Lemma getCharset_NoDup (m : Go.rune) : NoDup (Go.bytes_of (getCharset m)).
Proof.
  unfold getCharset.
  case_rune m; apply (bool_decide_unpack _); by vm_compute.
Qed.

(** On a mask of table symbols [range] visits every byte. *)
Lemma range_valid_mask (mask : string) :
  Forall (fun m => m ∈ class_runes) (mask_runes mask) ->
  Go.range mask =
    zip (seq 0 (String.length mask)) (map Go.byteZ (Go.bytes_of mask)).
Proof.
  intros Hv. unfold Go.range. rewrite string_length_bytes.
  rewrite <- (length_map Go.byteZ). apply range_bytes_ascii.
  eapply range_bytes_all_ascii; [apply string_bytes_bounds|].
  eapply Forall_impl; [exact Hv|]. apply class_rune_ascii.
Qed.

Lemma mask_runes_valid (mask : string) :
  Forall (fun m => m ∈ class_runes) (mask_runes mask) ->
  mask_runes mask = map Go.byteZ (Go.bytes_of mask)
  /\ length (mask_runes mask) = String.length mask.
Proof.
  intros Hv. unfold mask_runes. rewrite (range_valid_mask _ Hv).
  rewrite snd_zip; [by rewrite length_map, <- string_length_bytes|].
  rewrite length_seq, length_map, <- string_length_bytes. lia.
Qed.

(** ** The search space computed by the program *)

Lemma space_cons (c : string) (cs : list string) :
  space (c :: cs) = (String.length c * space cs)%nat.
Proof. done. Qed.

Lemma product_space (cs : list string) : product cs = Z.of_nat (space cs).
Proof.
  induction cs as [|c cs IH]; [done|].
  rewrite space_cons, Nat2Z.inj_mul, <- IH. done.
Qed.

Lemma SearchSpace_space (mask : string) :
  SearchSpace mask = Z.of_nat (space (mask_charsets mask)).
Proof. apply product_space. Qed.

Lemma total_fold (rs : list (nat * Go.rune)) (acc : Z) :
  0 <= acc < 2 ^ 64 ->
  fold_left
    (fun total im => Go.wrap_uint64 (total * Go.len (getCharset im.2)))
    rs acc
  = (acc * Z.of_nat (space (getCharset <$> rs.*2))) mod 2 ^ 64.
Proof.
  revert acc. induction rs as [|[i m] rs IH]; intros acc Hacc.
  - simpl. rewrite Z.mul_1_r, Z.mod_small; lia.
  - cbn [fold_left fmap list_fmap snd]. rewrite IH.
    + unfold Go.wrap_uint64. rewrite Z.mul_mod_idemp_l by lia.
      f_equal. rewrite space_cons. unfold Go.len. lia.
    + unfold Go.wrap_uint64. apply Z.mod_pos_bound. lia.
Qed.

Lemma calculateTotalCombinations_mod (mask : string) :
  calculateTotalCombinations mask = SearchSpace mask mod 2 ^ 64.
Proof.
  unfold calculateTotalCombinations. rewrite total_fold by lia.
  by rewrite Z.mul_1_l, SearchSpace_space.
Qed.

(** C10: the search space is the product of the charset sizes reduced
    modulo 2^64, for every mask; when the product is 2^64 or more the
    value returned is therefore the wrapped one, strictly below the
    product, and not a saturated maximum or an error. *)
Theorem calculateTotalCombinations_wraps (mask : string) :
  calculateTotalCombinations mask = SearchSpace mask mod 2 ^ 64
  /\ (2 ^ 64 <= SearchSpace mask ->
      calculateTotalCombinations mask < SearchSpace mask
      /\ calculateTotalCombinations mask
         = SearchSpace mask - 2 ^ 64 * (SearchSpace mask / 2 ^ 64)).
Proof.
  pose proof (calculateTotalCombinations_mod mask) as H.
  split; [done|]. intros Hbig. rewrite H.
  pose proof (Z.mod_pos_bound (SearchSpace mask) (2 ^ 64) ltac:(lia)).
  split; [lia|]. rewrite Z.mod_eq; lia.
Qed.

(** Eleven positions of the 62-symbol class overflow 64 bits. *)
Example calculateTotalCombinations_a11 :
  calculateTotalCombinations "aaaaaaaaaaa" = 15143072536417990656
  /\ 62 ^ 11 = 15143072536417990656 + 2 * 2 ^ 64.
Proof. by vm_compute. Qed.

Lemma calculateTotalCombinations_wraps_witness :
  2 ^ 64 <= SearchSpace "aaaaaaaaaaa"
  /\ calculateTotalCombinations "aaaaaaaaaaa" < SearchSpace "aaaaaaaaaaa".
Proof.
  assert (H : 2 ^ 64 <= SearchSpace "aaaaaaaaaaa") by (by vm_compute).
  split; [exact H|].
  by destruct (calculateTotalCombinations_wraps "aaaaaaaaaaa") as [_ [? _]].
Defined.

(** ** The generator: validation *)

Lemma fillCharsets_invalid (rs : list (nat * Go.rune)) (cs : list string) :
  Forall (fun im => im.1 < length cs)%nat rs ->
  Exists (fun im => im.2 ∉ class_runes) rs ->
  exists m, fillCharsets rs cs = InvalidMask m /\ m ∉ class_runes.
Proof.
  revert cs. induction rs as [|[i m] rs IH]; intros cs Hoff Hex.
  - by apply Exists_nil in Hex.
  - apply Forall_cons in Hoff as [Hi Hoff]. simpl in Hi.
    cbn [fillCharsets]. rewrite decide_True by done.
    rewrite list_lookup_insert_eq by done.
    destruct (String.eqb_spec (getCharset m) EmptyString) as [He|Hne].
    + exists m. split; [done|]. by apply getCharset_empty_iff.
    + apply Exists_cons in Hex as [Hm|Hex].
      * simpl in Hm. by apply getCharset_empty_iff in Hm.
      * apply IH; [|done]. by rewrite length_insert.
Qed.

Lemma fillCharsets_valid (ms : list Go.rune) (pre : list string) :
  Forall (fun m => m ∈ class_runes) ms ->
  fillCharsets (zip (seq (length pre) (length ms)) ms)
               (pre ++ replicate (length ms) EmptyString)
  = Valid (pre ++ (getCharset <$> ms)).
Proof.
  revert pre. induction ms as [|m ms IH]; intros pre Hv.
  - simpl. by rewrite !app_nil_r.
  - apply Forall_cons in Hv as [Hm Hv].
    cbn [length seq zip zip_with fillCharsets replicate].
    rewrite decide_True by (rewrite length_app; simpl; lia).
    rewrite insert_app_r_alt, Nat.sub_diag by lia. cbn [insert list_insert].
    rewrite list_lookup_middle by done.
    destruct (String.eqb_spec (getCharset m) EmptyString) as [He|Hne].
    { apply getCharset_empty_iff in He. done. }
    rewrite fmap_cons, !(cons_middle _ pre), !app_assoc.
    specialize (IH (pre ++ [getCharset m]) Hv).
    rewrite length_app in IH. simpl in IH.
    by rewrite Nat.add_1_r in IH.
Qed.

Lemma space_zero (cs : list string) :
  EmptyString ∈ cs -> space cs = 0%nat.
Proof.
  induction cs as [|c cs IH]; intros Hin; [by apply elem_of_nil in Hin|].
  rewrite space_cons. apply elem_of_cons in Hin as [<-|Hin]; [done|].
  rewrite IH by done. lia.
Qed.

(** C8: a mask with an unrecognised symbol at any position makes the
    generator close its channel without having sent anything, because
    the validation loop runs to its end before the first emission, and
    the combination count is 0 because that symbol has an empty
    charset. *)
Theorem generatePasswords_validates_first (mask : string) :
  Exists (fun m => m ∉ class_runes) (mask_runes mask) ->
  (forall fuel, generatePasswords fuel mask = Some (Closed []))
  /\ EmptyString ∈ mask_charsets mask
  /\ calculateTotalCombinations mask = 0.
Proof.
  intros Hex. split; [|split].
  - intros fuel. unfold generatePasswords.
    destruct (fillCharsets_invalid (Go.range mask)
                (replicate (String.length mask) EmptyString))
      as (m & -> & _); [| |done].
    + rewrite length_replicate.
      eapply Forall_impl; [apply (range_bytes_offsets _ 0 0)|].
      intros [i r]. rewrite length_map, <- string_length_bytes. simpl. lia.
    + exact (proj1 (Exists_fmap snd (fun m => m ∉ class_runes) _) Hex).
  - apply Exists_exists in Hex as (m & Hin & Hm).
    apply getCharset_empty_iff in Hm. rewrite <- Hm.
    unfold mask_charsets. by apply list_elem_of_fmap_2.
  - rewrite calculateTotalCombinations_mod. rewrite SearchSpace_space. rewrite space_zero; [done|].
    apply Exists_exists in Hex as (m & Hin & Hm).
    apply getCharset_empty_iff in Hm. rewrite <- Hm.
    unfold mask_charsets. by apply list_elem_of_fmap_2.
Qed.

Lemma generatePasswords_validates_first_witness :
  generatePasswords 0 "dxd" = Some (Closed [])
  /\ calculateTotalCombinations "dxd" = 0.
Proof.
  assert (H : Exists (fun m => m ∉ class_runes) (mask_runes "dxd")).
  { apply (bool_decide_unpack _). by vm_compute. }
  destruct (generatePasswords_validates_first "dxd" H) as (H1 & _ & H2).
  split; [apply H1 | apply H2].
Defined.

(** ** The generator: one turn of the odometer *)

Lemma valid_ind_length (cs : list string) (ind : list Z) :
  valid_ind cs ind -> length ind = length cs.
Proof. intros H. symmetry. by eapply Forall2_length. Qed.

Lemma candidate_length (cs : list string) (ind : list Z) :
  valid_ind cs ind -> length (candidate cs ind) = length cs.
Proof. induction 1; simpl; congruence. Qed.

Lemma fillPassword_valid (cs : list string) (ind : list Z) :
  valid_ind cs ind ->
  forall (cpre : list string) (ipre : list Z) (ppre pw : list Go.byte),
    length cpre = length ppre -> length ipre = length ppre ->
    length pw = length cs ->
    fillPassword (seq (length ppre) (length cs))
                 (cpre ++ cs) (ipre ++ ind) (ppre ++ pw)
    = Some (ppre ++ candidate cs ind).
Proof.
  induction 1 as [|c k cs ind [Hk Hc] Hv IH];
    intros cpre ipre ppre pw Hlc Hli Hlp.
  - destruct pw; [|done]. done.
  - destruct pw as [|b0 pw]; [done|]. simpl in Hlp.
    cbn [length seq fillPassword candidate].
    assert ((cpre ++ c :: cs) !! length ppre = Some c) as ->
        by (by apply list_lookup_middle).
    assert ((ipre ++ k :: ind) !! length ppre = Some k) as ->
        by (by apply list_lookup_middle).
    rewrite index_bytes by done.
    destruct (lookup_lt_is_Some_2 (Go.bytes_of c) (Z.to_nat k)) as [b Hb].
    { rewrite <- string_length_bytes. unfold Go.len in Hk. lia. }
    rewrite Hb. simpl.
    rewrite decide_True by (rewrite length_app; simpl; lia).
    rewrite insert_app_r_alt, Nat.sub_diag by lia. cbn [insert list_insert].
    rewrite (cons_middle c), (cons_middle k), !(cons_middle b), !app_assoc.
    specialize (IH (cpre ++ [c]) (ipre ++ [k]) (ppre ++ [b]) pw).
    rewrite !length_app in IH. simpl in IH.
    rewrite !Nat.add_1_r in IH. apply IH; lia.
Qed.

(** The carry loop seen from the left end of the vectors. *)
Lemma advance_cons (c : string) (cs : list string) (v : Z) (ind : list Z)
    (k : nat) :
  advance (c :: cs) (v :: ind) (S k) =
  match advance cs ind k with
  | None => None
  | Some (ind', false) => Some (v :: ind', false)
  | Some (ind', true) =>
    if Go.wrap_int (v + 1) <? Go.len c
    then Some (Go.wrap_int (v + 1) :: ind', false)
    else Some (0 :: ind', true)
  end.
Proof.
  revert ind. induction k as [|k IH]; intros ind.
  - simpl. by destruct (_ <? _).
  - change (advance cs ind (S k)) with
      (match ind !! k, cs !! k with
       | Some w, Some d =>
         if Go.wrap_int (w + 1) <? Go.len d
         then Some (<[k := Go.wrap_int (w + 1)]> ind, false)
         else advance cs (<[k := 0]> ind) k
       | _, _ => None
       end).
    change (advance (c :: cs) (v :: ind) (S (S k))) with
      (match ind !! k, cs !! k with
       | Some w, Some d =>
         if Go.wrap_int (w + 1) <? Go.len d
         then Some (v :: <[k := Go.wrap_int (w + 1)]> ind, false)
         else advance (c :: cs) (v :: <[k := 0]> ind) (S k)
       | _, _ => None
       end).
    destruct (ind !! k) as [w|]; [|done].
    destruct (cs !! k) as [d|]; [|done].
    destruct (_ <? Go.len d); [done|]. apply IH.
Qed.

Lemma space_pos (cs : list string) (ind : list Z) :
  valid_ind cs ind -> (0 < space cs)%nat.
Proof.
  induction 1 as [|c k cs ind [Hk Hc] Hv IH]; [simpl; lia|].
  rewrite space_cons. unfold Go.len in Hk. nia.
Qed.

Lemma rank_lt (cs : list string) (ind : list Z) :
  valid_ind cs ind -> (rank cs ind < space cs)%nat.
Proof.
  induction 1 as [|c k cs ind [Hk Hc] Hv IH]; [simpl; lia|].
  rewrite space_cons. cbn [rank]. unfold Go.len in Hk. nia.
Qed.

Lemma wrap_int_small (z : Z) : - 2 ^ 63 <= z < 2 ^ 63 -> Go.wrap_int z = z.
Proof. intros H. unfold Go.wrap_int. rewrite Z.mod_small; lia. Qed.

(** One turn: without carry the rank grows by one; with carry the
    vector was the last one and is reset to the first. *)
Lemma advance_valid (cs : list string) (ind : list Z) :
  valid_ind cs ind ->
  exists ind' carry,
    advance cs ind (length ind) = Some (ind', carry)
    /\ valid_ind cs ind'
    /\ (if carry
        then rank cs ind' = 0%nat /\ S (rank cs ind) = space cs
        else rank cs ind' = S (rank cs ind)).
Proof.
  induction 1 as [|c k cs ind [Hk Hc] Hv IH].
  - exists [], true. repeat split. constructor.
  - destruct IH as (ind' & carry & Hadv & Hv' & Hr).
    cbn [length]. rewrite advance_cons, Hadv.
    destruct carry.
    + destruct Hr as [Hr0 Hr]. rewrite wrap_int_small by lia.
      destruct (Z.ltb_spec (k + 1) (Go.len c)).
      * exists (k + 1 :: ind'), false.
        split; [done|]. split; [constructor; [lia|done]|].
        cbn [rank]. rewrite Hr0. rewrite Z2Nat.inj_add by lia.
        change (Z.to_nat 1) with 1%nat. lia.
      * exists (0 :: ind'), true.
        split; [done|]. split; [constructor; [lia|done]|].
        cbn [rank]. rewrite Hr0, space_cons. split; [simpl; lia|].
        assert (String.length c = S (Z.to_nat k)) as ->
            by (unfold Go.len in *; lia).
        lia.
    + exists (k :: ind'), false.
      split; [done|]. split; [constructor; [lia|done]|].
      cbn [rank]. lia.
Qed.

(** ** The specification's enumeration *)

Lemma length_bind_uniform {A B} (f : A -> list B) (l : list A) (m : nat) :
  (forall x, length (f x) = m) -> length (l ≫= f) = (length l * m)%nat.
Proof.
  intros Hf. induction l as [|a l IH]; [done|].
  rewrite bind_cons, length_app, Hf, IH. simpl. lia.
Qed.

Lemma lookup_bind_uniform {A B} (f : A -> list B) (l : list A) (m : nat) :
  (forall x, length (f x) = m) ->
  forall k x r, l !! k = Some x -> (r < m)%nat ->
    (l ≫= f) !! (k * m + r)%nat = f x !! r.
Proof.
  intros Hf. induction l as [|a l IH]; intros k x r Hk Hr; [done|].
  rewrite bind_cons. destruct k as [|k].
  - simplify_eq/=. rewrite lookup_app_l; [done|]. rewrite Hf. lia.
  - simpl in Hk. rewrite lookup_app_r; rewrite Hf; [|lia].
    replace (S k * m + r - m)%nat with (k * m + r)%nat by lia. by apply IH.
Qed.

Lemma odometer_enum_length (cs : list string) :
  length (odometer_enum cs) = space cs.
Proof.
  induction cs as [|c cs IH]; [done|].
  cbn [odometer_enum]. rewrite space_cons.
  rewrite (length_bind_uniform _ _ (space cs)).
  - by rewrite <- string_length_bytes.
  - intros ch. by rewrite length_fmap.
Qed.

Lemma odometer_enum_lookup (cs : list string) (ind : list Z) :
  valid_ind cs ind ->
  odometer_enum cs !! rank cs ind = Some (Go.string_of (candidate cs ind)).
Proof.
  induction 1 as [|c k cs ind [Hk Hc] Hv IH]; [done|].
  cbn [odometer_enum rank candidate].
  destruct (lookup_lt_is_Some_2 (Go.bytes_of c) (Z.to_nat k)) as [b Hb].
  { rewrite <- string_length_bytes. unfold Go.len in Hk. lia. }
  rewrite index_bytes, Hb by done. simpl.
  assert (Hf : forall ch : Go.byte,
             length (String ch <$> odometer_enum cs) = space cs).
  { intros ch. by rewrite length_fmap, odometer_enum_length. }
  rewrite (lookup_bind_uniform _ _ _ Hf _ b); [|done|by apply rank_lt].
  by rewrite list_lookup_fmap, IH.
Qed.

Lemma odometer_enum_fits (cs : list string) (s : string) :
  s ∈ odometer_enum cs <-> fits cs s.
Proof.
  unfold fits. revert s. induction cs as [|c cs IH]; intros s.
  - simpl. rewrite list_elem_of_singleton. split.
    + intros ->. constructor.
    + intros H. apply Forall2_nil_inv_r in H. by destruct s.
  - cbn [odometer_enum]. rewrite list_elem_of_bind. split.
    + intros (ch & Hs & Hch). apply list_elem_of_fmap in Hs as (t & -> & Ht).
      simpl. constructor; [done|]. by apply IH.
    + intros H. destruct s as [|ch t]; [by apply Forall2_nil_inv_l in H|].
      apply Forall2_cons in H as [Hch Ht].
      exists ch. split; [|done]. apply list_elem_of_fmap. exists t.
      split; [done|]. by apply IH.
Qed.

Lemma odometer_enum_NoDup (cs : list string) :
  Forall (fun c => NoDup (Go.bytes_of c)) cs -> NoDup (odometer_enum cs).
Proof.
  induction 1 as [|c cs Hc Hcs IH]; [apply NoDup_singleton|].
  cbn [odometer_enum]. apply NoDup_bind; [| |done].
  - intros ch1 ch2 s _ _ H1 H2.
    apply list_elem_of_fmap in H1 as (t1 & -> & _).
    apply list_elem_of_fmap in H2 as (t2 & [= -> _] & _). done.
  - intros ch _. apply NoDup_fmap_2; [|done]. by intros t1 t2 [= ->].
Qed.

(** ** The generator: the emitting loop *)

Lemma gen_loop_valid (cs : list string) (fuel : nat) :
  forall (ind : list Z) (pw : list Go.byte),
    valid_ind cs ind -> length pw = length cs ->
    (space cs <= rank cs ind + fuel)%nat ->
    gen_loop fuel (seq 0 (length cs)) cs ind pw
    = Some (Closed (drop (rank cs ind) (odometer_enum cs))).
Proof.
  induction fuel as [|fuel IH]; intros ind pw Hv Hpw Hfuel.
  - pose proof (rank_lt _ _ Hv). lia.
  - cbn [gen_loop].
    pose proof (fillPassword_valid cs ind Hv [] [] [] pw eq_refl eq_refl Hpw)
      as Hfill.
    simpl in Hfill. rewrite Hfill.
    destruct (advance_valid cs ind Hv) as (ind' & carry & -> & Hv' & Hr).
    pose proof (odometer_enum_lookup cs ind Hv) as Hlk.
    rewrite (drop_S _ _ _ Hlk). simpl. destruct carry.
    + destruct Hr as [_ Hr]. rewrite drop_ge; [done|].
      rewrite odometer_enum_length. lia.
    + rewrite IH; [by rewrite Hr|done| |lia].
      by rewrite candidate_length.
Qed.

(** ** The generator on a mask of table symbols *)

Lemma valid_ind_zero (cs : list string) :
  Forall (fun c => 0 < Go.len c < 2 ^ 63) cs ->
  valid_ind cs (replicate (length cs) 0) /\
  rank cs (replicate (length cs) 0) = 0%nat.
Proof.
  induction 1 as [|c cs Hc Hcs [IHv IHr]]; [split; [constructor|done]|].
  split; [constructor; [lia|done]|]. simpl. by rewrite IHr.
Qed.

Lemma mask_charsets_sizes (mask : string) :
  Forall (fun m => m ∈ class_runes) (mask_runes mask) ->
  Forall (fun c => 0 < Go.len c < 2 ^ 63) (mask_charsets mask).
Proof.
  intros Hv. unfold mask_charsets. apply Forall_fmap.
  eapply Forall_impl; [exact Hv|]. intros m Hm. simpl.
  pose proof (getCharset_size m Hm). lia.
Qed.

Lemma mask_charsets_length (mask : string) :
  Forall (fun m => m ∈ class_runes) (mask_runes mask) ->
  length (mask_charsets mask) = String.length mask.
Proof.
  intros Hv. unfold mask_charsets. rewrite length_fmap.
  by apply mask_runes_valid.
Qed.

Lemma fillCharsets_mask (mask : string) :
  Forall (fun m => m ∈ class_runes) (mask_runes mask) ->
  fillCharsets (Go.range mask) (replicate (String.length mask) EmptyString)
  = Valid (mask_charsets mask)
  /\ (Go.range mask).*1 = seq 0 (length (mask_charsets mask)).
Proof.
  intros Hv. pose proof (mask_charsets_length mask Hv) as Hlen.
  destruct (mask_runes_valid mask Hv) as [Hr Hl].
  pose proof (fillCharsets_valid (mask_runes mask) [] Hv) as Hfill.
  simpl in Hfill. rewrite Hl in Hfill.
  rewrite (range_valid_mask mask Hv). rewrite <- Hr. split; [done|].
  rewrite fst_zip; [by rewrite Hlen|]. rewrite length_seq. lia.
Qed.

(** From any fuel that covers the search space, the generator of a mask
    of table symbols sends the odometer enumeration and closes. *)
Lemma generatePasswords_valid (mask : string) (fuel : nat) :
  Forall (fun m => m ∈ class_runes) (mask_runes mask) ->
  (space (mask_charsets mask) <= fuel)%nat ->
  generatePasswords fuel mask
  = Some (Closed (odometer_enum (mask_charsets mask))).
Proof.
  intros Hv Hfuel. unfold generatePasswords.
  destruct (fillCharsets_mask mask Hv) as [-> ->].
  pose proof (mask_charsets_length mask Hv) as Hlen.
  destruct (valid_ind_zero _ (mask_charsets_sizes mask Hv)) as [Hz Hr].
  rewrite <- Hlen.
  rewrite (gen_loop_valid _ fuel _ _ Hz); [by rewrite Hr| |lia].
  by rewrite length_replicate.
Qed.

(** C1: for a non-empty mask made of the symbols a, d, l, u, s the
    generator sends a finite sequence and then closes its channel; the
    sequence is the odometer enumeration of the per-position charsets
    (the candidate at mixed-radix rank r is sent r-th, the first one
    having all indices zero), it has exactly SearchSpace = product of
    the charset sizes elements, they are pairwise distinct, and they are
    exactly the strings whose i-th byte lies in the i-th charset. *)
Theorem generatePasswords_odometer (mask : string) :
  mask <> EmptyString ->
  Forall (fun m => m ∈ class_runes) (mask_runes mask) ->
  exists sent : list string,
    (forall fuel, SearchSpace mask <= Z.of_nat fuel ->
       generatePasswords fuel mask = Some (Closed sent))
    /\ sent = odometer_enum (mask_charsets mask)
    /\ Z.of_nat (length sent) = SearchSpace mask
    /\ NoDup sent
    /\ (forall s, s ∈ sent <-> fits (mask_charsets mask) s)
    /\ (forall ind, valid_ind (mask_charsets mask) ind ->
          sent !! rank (mask_charsets mask) ind
          = Some (Go.string_of (candidate (mask_charsets mask) ind)))
    /\ sent !! 0%nat
       = Some (Go.string_of
                 (candidate (mask_charsets mask)
                            (replicate (String.length mask) 0))).
Proof.
  intros _ Hv. exists (odometer_enum (mask_charsets mask)).
  split.
  { intros fuel Hf. apply generatePasswords_valid; [done|].
    rewrite SearchSpace_space in Hf. lia. }
  split; [done|].
  split; [rewrite SearchSpace_space; by rewrite odometer_enum_length|].
  split.
  { apply odometer_enum_NoDup. unfold mask_charsets. apply Forall_fmap.
    apply Forall_true. intros m. apply getCharset_NoDup. }
  split; [apply odometer_enum_fits|].
  split; [apply odometer_enum_lookup|].
  destruct (valid_ind_zero _ (mask_charsets_sizes mask Hv)) as [Hz Hr].
  rewrite (mask_charsets_length mask Hv) in Hz, Hr.
  rewrite <- Hr at 1. by apply odometer_enum_lookup.
Qed.

Lemma generatePasswords_odometer_witness :
  exists sent : list string,
    generatePasswords 100 "dd" = Some (Closed sent)
    /\ length sent = 100%nat
    /\ sent !! 0%nat = Some "11"%string
    /\ sent !! 9%nat = Some "10"%string
    /\ sent !! 10%nat = Some "21"%string.
Proof.
  assert (H1 : "dd"%string <> EmptyString) by done.
  assert (H2 : Forall (fun m => m ∈ class_runes) (mask_runes "dd")).
  { apply (bool_decide_unpack _). by vm_compute. }
  destruct (generatePasswords_odometer "dd" H1 H2)
    as (sent & Hrun & -> & _).
  exists (odometer_enum (mask_charsets "dd")).
  split; [apply Hrun; by vm_compute|]. by vm_compute.
Defined.

(** The example of the specification: mask [dd] gives 100 candidates. *)
Example generatePasswords_dd :
  exists sent, generatePasswords 100 "dd" = Some (Closed sent)
    /\ length sent = 100%nat /\ "42"%string ∈ sent
    /\ calculateTotalCombinations "dd" = 100.
Proof.
  eexists. split; [by vm_compute|]. split; [done|].
  split; [|done]. apply (bool_decide_unpack _). by vm_compute.
Qed.

(** ** Validation never panics; it accepts exactly the masks of table
    symbols *)

Lemma range_offsets_in_mask (mask : string) :
  Forall (fun im => im.1 < String.length mask)%nat (Go.range mask).
Proof.
  eapply Forall_impl; [apply (range_bytes_offsets _ 0 0)|].
  intros [i r]. rewrite length_map, <- string_length_bytes. simpl. lia.
Qed.

Lemma fillCharsets_no_panic (rs : list (nat * Go.rune)) (cs : list string) :
  Forall (fun im => im.1 < length cs)%nat rs ->
  fillCharsets rs cs <> ValidationPanic.
Proof.
  revert cs. induction rs as [|[i m] rs IH]; intros cs Hoff; [done|].
  apply Forall_cons in Hoff as [Hi Hoff]. simpl in Hi.
  cbn [fillCharsets]. rewrite decide_True by done.
  rewrite list_lookup_insert_eq by done.
  destruct (String.eqb _ _); [done|]. apply IH. by rewrite length_insert.
Qed.

Lemma fillCharsets_mask_cases (mask : string) :
  (Forall (fun m => m ∈ class_runes) (mask_runes mask)
   /\ fillCharsets (Go.range mask)
        (replicate (String.length mask) EmptyString)
      = Valid (mask_charsets mask))
  \/ (Exists (fun m => m ∉ class_runes) (mask_runes mask)
      /\ exists m, fillCharsets (Go.range mask)
                     (replicate (String.length mask) EmptyString)
                   = InvalidMask m).
Proof.
  destruct (decide (Forall (fun m => m ∈ class_runes) (mask_runes mask)))
    as [Hv|Hn].
  - left. split; [done|]. by apply fillCharsets_mask.
  - right. apply not_Forall_Exists in Hn; [|apply _]. split; [exact Hn|].
    destruct (fillCharsets_invalid (Go.range mask)
                (replicate (String.length mask) EmptyString))
      as (m & Hm & _); [| |by exists m].
    + rewrite length_replicate. apply range_offsets_in_mask.
    + exact (proj1 (Exists_fmap snd (fun m => m ∉ class_runes) _) Hn).
Qed.

Lemma SearchSpace_invalid (mask : string) :
  Exists (fun m => m ∉ class_runes) (mask_runes mask) ->
  SearchSpace mask = 0.
Proof.
  intros Hex. rewrite SearchSpace_space. rewrite space_zero; [done|].
  apply Exists_exists in Hex as (m & Hin & Hm).
  apply getCharset_empty_iff in Hm. rewrite <- Hm.
  unfold mask_charsets. by apply list_elem_of_fmap_2.
Qed.

(** ** The concurrent search: counting invariant *)

Lemma held_insert (ws : list worker_state) (i : nat) (w w' : worker_state) :
  ws !! i = Some w ->
  held (<[i := w']> ws) = held ws - holding w + holding w'.
Proof.
  revert i. induction ws as [|x ws IH]; intros [|i] Hi; simplify_eq/=.
  - lia.
  - rewrite (IH i) by done. lia.
Qed.

Lemma held_replicate_WRange (n : nat) : held (replicate n WRange) = 0.
Proof. induction n as [|n IH]; simpl; lia. Qed.

Lemma sending_insert (ws : list worker_state) (i : nat) (w w' : worker_state) :
  ws !! i = Some w ->
  sending (<[i := w']> ws) = sending ws - sending_one w + sending_one w'.
Proof.
  revert i. induction ws as [|x ws IH]; intros [|i] Hi; simplify_eq/=.
  - lia.
  - rewrite (IH i) by done. lia.
Qed.

Lemma sending_replicate_WRange (n : nat) : sending (replicate n WRange) = 0.
Proof. induction n as [|n IH]; simpl; lia. Qed.

Lemma sending_nonneg (ws : list worker_state) : 0 <= sending ws.
Proof.
  induction ws as [|w ws IH]; simpl; [lia|]. destruct w; simpl; lia.
Qed.

Lemma sending_pos (ws : list worker_state) :
  0 < sending ws -> exists i pw, ws !! i = Some (WSend pw).
Proof.
  induction ws as [|w ws IH]; simpl; [lia|]. intros H.
  destruct w; simpl in H;
    try (destruct (IH H) as (i & pw & Hi); by exists (S i), pw).
  by exists 0%nat, password.
Qed.

Lemma sending_lookup (ws : list worker_state) (i : nat) (w : worker_state) :
  ws !! i = Some w -> sending_one w <= sending ws.
Proof.
  revert i. induction ws as [|x ws IH]; intros [|i] Hi; simplify_eq/=.
  - pose proof (sending_nonneg ws). lia.
  - specialize (IH i Hi). destruct x; simpl; lia.
Qed.

Lemma main_took_nonneg (m : main_state) : 0 <= main_took m.
Proof. destruct m as [| | |[]|[]]; simpl; lia. Qed.

Lemma worker_ok_mono (c c' f f' : bool) (w : worker_state) :
  (c = true -> c' = true) -> (f = true -> f' = true) ->
  worker_ok c f w -> worker_ok c' f' w.
Proof. destruct w; simpl; intuition. Qed.

Lemma held_nonneg (ws : list worker_state) : 0 <= held ws.
Proof.
  induction ws as [|w ws IH]; simpl; [lia|]. destruct w; simpl; lia.
Qed.

Lemma workers_weight_insert (ws : list worker_state) (i : nat)
    (w w' : worker_state) :
  ws !! i = Some w ->
  (workers_weight (<[i := w']> ws) + worker_weight w
   = workers_weight ws + worker_weight w')%nat.
Proof.
  revert i. induction ws as [|x ws IH]; intros [|i] Hi; simplify_eq/=.
  - lia.
  - specialize (IH i Hi). lia.
Qed.

Section SearchInvariants.

Variable scrypt_Key :
  list Go.byte -> list Go.byte -> Z -> Z -> Z -> Z -> kdf_result.
Variable mask : string.
Variable data : ScryptData.t.
Variable numWorkers : nat.

Local Abbreviation exec := (exec scrypt_Key mask data).
Local Abbreviation step := (step scrypt_Key mask data).
Local Abbreviation run := (run scrypt_Key mask data).
Local Abbreviation reachable := (reachable scrypt_Key mask data numWorkers).
Local Abbreviation init := (init numWorkers).
Local Abbreviation emitted := (emitted mask).
Local Abbreviation gen_ok := (gen_ok mask).
Local Abbreviation count_inv := (count_inv mask).
Local Abbreviation proto_inv := (proto_inv numWorkers).
Local Abbreviation gen_weight := (gen_weight mask).
Local Abbreviation measure := (measure mask).

Lemma run_rtc (sched : list thread) (s s' : state) :
  run sched s = Some s' -> rtc step s s'.
Proof.
  revert s. induction sched as [|t sched IH]; intros s Hrun.
  - simplify_eq/=. done.
  - simpl in Hrun. destruct (exec t s) as [s1|] eqn:Hex; [|done].
    eapply rtc_l; [by exists t|]. by apply IH.
Qed.

Lemma run_reachable (sched : list thread) (s : state) :
  run sched init = Some s -> reachable s.
Proof. apply run_rtc. Qed.

(** An invariant of the initial state preserved by every step holds in
    every reachable state. *)
Lemma reachable_ind (I : state -> Prop) :
  I init ->
  (forall t s s', I s -> exec t s = Some s' -> I s') ->
  forall s, reachable s -> I s.
Proof.
  intros Hinit Hstep. apply rtc_ind_r; [done|].
  intros s1 s2 _ [t Ht] IH. by eapply Hstep.
Qed.

Lemma count_inv_init : count_inv init.
Proof.
  unfold count_inv. rewrite SearchSpace_space. simpl.
  rewrite held_replicate_WRange. lia.
Qed.

Lemma gen_step_loop (cs : list string) (ind : list Z) (pw : list Go.byte) :
  gen_ok (GLoop cs ind pw) ->
  exists ind' carry,
    fillPassword (Go.range mask).*1 cs ind pw = Some (candidate cs ind)
    /\ advance cs ind (length ind) = Some (ind', carry)
    /\ valid_ind cs ind'
    /\ length (candidate cs ind) = length cs
    /\ (if carry
        then rank cs ind' = 0%nat /\ S (rank cs ind) = space cs
        else rank cs ind' = S (rank cs ind)).
Proof.
  intros (Hm & -> & Hv & Hpw).
  destruct (advance_valid _ _ Hv) as (ind' & carry & Hadv & Hv' & Hr).
  exists ind', carry. split; [|by rewrite candidate_length].
  destruct (fillCharsets_mask mask Hm) as [_ ->].
  exact (fillPassword_valid _ _ Hv [] [] [] pw eq_refl eq_refl Hpw).
Qed.

Lemma count_inv_step (t : thread) (s s' : state) :
  count_inv s -> exec t s = Some s' -> count_inv s'.
Proof.
  intros (Hg & Ht & Hsum & Hle) Hex. unfold exec in Hex.
  destruct (alive s); [|done]. destruct t.
  - (* generator *)
    unfold gen_step in Hex. destruct s as [g q c ws f n r w d m].
    simpl in *. destruct g as [|cs ind pw| | | |]; simplify_eq/=.
    + destruct (fillCharsets_mask_cases mask) as [[Hm ->]|[Hx [x ->]]].
      * unfold count_inv. simpl.
        destruct (valid_ind_zero _ (mask_charsets_sizes mask Hm))
          as [Hz Hr].
        rewrite (mask_charsets_length mask Hm) in Hz, Hr.
        rewrite Hr. repeat split; try done; try lia.
        by rewrite length_replicate, mask_charsets_length.
      * unfold count_inv. simpl. rewrite (SearchSpace_invalid _ Hx).
        repeat split; try done; lia.
    + destruct (gen_step_loop _ _ _ Hg) as
          (ind' & carry & Hfill & Hadv & Hv' & Hlen & Hr).
      rewrite Hfill, Hadv in Hex.
      destruct (_ <? _); simplify_eq/=.
      destruct Hg as (Hm & -> & Hv & Hpw).
      pose proof (rank_lt _ _ Hv') as Hlt.
      unfold count_inv. destruct carry; simpl; rewrite length_app; simpl.
      * destruct Hr as [_ Hr]. rewrite SearchSpace_space in *.
        repeat split; try done; lia.
      * rewrite SearchSpace_space in *. repeat split; try done; lia.
    + unfold count_inv. simpl. repeat split; try done; lia.
    + unfold count_inv. simpl. repeat split; try done; lia.
  - (* worker *)
    destruct (workers s !! i) as [w|] eqn:Hi; [|done].
    pose proof (held_insert (workers s) i w) as Hheld.
    unfold worker_step in Hex. destruct s as [g q c ws f n r wg0 d m].
    simpl in *. unfold count_inv.
    destruct w; repeat case_match; simplify_eq/=;
      rewrite Hheld by done; simpl;
      try (repeat split; try done; lia).
    unfold Go.wrap_uint64.
    pose proof (Z.mod_pos_bound (n + 1) (2 ^ 64) ltac:(lia)).
    pose proof (Z.mod_le (n + 1) (2 ^ 64) ltac:(lia) ltac:(lia)).
    repeat split; try done; lia.
  - unfold waiter_step in Hex. destruct s. simpl in *.
    repeat case_match; simplify_eq/=; done.
  - destruct s. simpl in *. repeat case_match; simplify_eq/=; done.
  - destruct s. simpl in *. repeat case_match; simplify_eq/=; done.
  - destruct s. simpl in *. repeat case_match; simplify_eq/=; done.
  - destruct s. simpl in *. repeat case_match; simplify_eq/=; done.
Qed.

Lemma count_inv_reachable (s : state) : reachable s -> count_inv s.
Proof.
  apply reachable_ind; [apply count_inv_init|]. intros t.
  apply count_inv_step.
Qed.

(** *** Protocol invariant *)

Lemma proto_inv_init : proto_inv init.
Proof.
  unfold proto_inv, deliveries. simpl.
  rewrite sending_replicate_WRange, length_replicate.
  repeat split; try done. by apply Forall_replicate.
Qed.

Lemma proto_inv_step (t : thread) (s s' : state) :
  proto_inv s -> exec t s = Some s' -> proto_inv s'.
Proof.
  intros (Hn & Hwg & Hcl & Hwm & Hdel & Hws) Hex. unfold exec in Hex.
  destruct (alive s); [|done]. unfold proto_inv, deliveries in *.
  destruct t.
  - unfold gen_step in Hex. destruct s as [g q c ws f n r w d m].
    simpl in *. destruct g; repeat case_match; simplify_eq/=;
      repeat split; try done; try lia.
    all: eapply Forall_impl; [exact Hws|];
      intros x; apply worker_ok_mono; done.
  - destruct (workers s !! i) as [w|] eqn:Hi; [|done].
    pose proof (sending_insert (workers s) i w) as Hsend.
    pose proof (Forall_lookup_1 _ _ _ _ Hws Hi) as Hw.
    pose proof (sending_lookup _ _ _ Hi) as Hone.
    pose proof (main_took_nonneg (main s)) as Hmt.
    unfold worker_step in Hex. destruct s as [g q c ws f n r wg0 d m].
    simpl in *.
    destruct w; repeat case_match; simplify_eq/=;
      rewrite ?length_insert, ?Hsend by done; simpl;
      rewrite ?length_app; simpl;
      (split; [done|]); (split; [done|]); (split; [done|]);
      (split; [done|]); (split; [lia|]);
      apply Forall_insert; simpl; auto;
      try (eapply Forall_impl; [exact Hws|];
           intros x; apply worker_ok_mono; done);
      exfalso; lia.
  - unfold waiter_step in Hex. destruct s. simpl in *.
    repeat case_match; simplify_eq/=; repeat split; try done.
    all: by destruct main0 as [| | |[]|[]].
  - destruct s. simpl in *. repeat case_match; simplify_eq/=.
    all: repeat split; try done; try lia.
  - destruct s. simpl in *. repeat case_match; simplify_eq/=.
    all: repeat split; try done.
  - destruct s. simpl in *. repeat case_match; simplify_eq/=.
    all: repeat split; try done.
  - destruct s. simpl in *. repeat case_match; simplify_eq/=.
    all: repeat split; try done.
Qed.

Lemma proto_inv_reachable (s : state) : reachable s -> proto_inv s.
Proof.
  apply reachable_ind; [apply proto_inv_init|]. intros t.
  apply proto_inv_step.
Qed.

(** *** Every run is finite *)

Lemma measure_step (t : thread) (s s' : state) :
  count_inv s -> exec t s = Some s' -> (measure s' < measure s)%nat.
Proof.
  intros (Hg & _) Hex. unfold exec in Hex.
  destruct (alive s); [|done]. unfold measure. destruct t.
  - unfold gen_step in Hex. destruct s as [g q c ws f n r w d m].
    simpl in *. destruct g as [|cs ind pw| | | |]; simplify_eq/=.
    + destruct (fillCharsets_mask_cases mask) as [[Hm ->]|[Hx [x ->]]];
        simpl.
      * destruct (valid_ind_zero _ (mask_charsets_sizes mask Hm))
          as [_ Hr].
        rewrite (mask_charsets_length mask Hm) in Hr. rewrite Hr. lia.
      * lia.
    + destruct (gen_step_loop _ _ _ Hg) as
          (ind' & carry & Hfill & Hadv & Hv' & Hlen & Hr).
      rewrite Hfill, Hadv in Hex.
      destruct (_ <? _); simplify_eq/=.
      destruct Hg as (Hm & -> & Hv & Hpw).
      pose proof (rank_lt _ _ Hv') as Hlt.
      pose proof (rank_lt _ _ Hv) as Hlt0.
      rewrite length_app. destruct carry; simpl; lia.
    + lia.
    + lia.
  - destruct (workers s !! i) as [w|] eqn:Hi; [|done].
    pose proof (workers_weight_insert (workers s) i w) as Hw.
    unfold worker_step in Hex. destruct s as [g q c ws f n r wg0 d m].
    simpl in *. clear Hg.
    destruct w; repeat case_match; simplify_eq/=;
      match goal with
      | |- context [workers_weight (<[i := ?w']> ws)] =>
        specialize (Hw w' Hi); simpl in Hw
      end; lia.
  - unfold waiter_step in Hex. destruct s. simpl in *. clear Hg.
    repeat case_match; simplify_eq/=; lia.
  - destruct s. simpl in *. clear Hg.
    repeat case_match; simplify_eq/=; lia.
  - destruct s. simpl in *. clear Hg.
    repeat case_match; simplify_eq/=; lia.
  - destruct s. simpl in *. clear Hg.
    repeat case_match; simplify_eq/=; lia.
  - destruct s. simpl in *. clear Hg.
    repeat case_match; simplify_eq/=; lia.
Qed.

(** A run of [n] steps from a reachable state uses up [n] units of the
    measure: no run is longer than the measure of its first state. *)
Lemma run_length_bounded (n : nat) (s s' : state) :
  reachable s -> nsteps step n s s' -> (n + measure s' <= measure s)%nat.
Proof.
  intros Hs Hn. induction Hn as [|n s1 s2 s3 [t Ht] _ IH]; [lia|].
  pose proof (measure_step t s1 s2 (count_inv_reachable _ Hs) Ht).
  assert (reachable s2) as Hs2 by (eapply rtc_r; [exact Hs|by exists t]).
  specialize (IH Hs2). lia.
Qed.

(** *** No reachable state is stuck before main returns *)

Lemma worker_can_step (i : nat) (w : worker_state) (s : state) :
  alive s = true -> workers s !! i = Some w ->
  is_Some (worker_step scrypt_Key data w s) ->
  exists t s', exec t s = Some s'.
Proof.
  intros Ha Hi [[w' s1] Hw]. exists (TWorker i).
  unfold exec. rewrite Ha, Hi, Hw. eauto.
Qed.

Lemma progress (s : state) :
  (1 <= numWorkers)%nat -> reachable s -> alive s = true ->
  exists t s', exec t s = Some s'.
Proof.
  intros Hnw Hs Ha.
  pose proof (count_inv_reachable _ Hs) as (Hg & _).
  pose proof (proto_inv_reachable _ Hs) as (Hn & Hwg & Hcl & Hwm & Hdel & Hws).
  destruct (main s) as [|pwd| |r|r] eqn:Hmain.
  - destruct (result s) as [|pwd rest] eqn:Hres.
    2:{ exists TMainResult. unfold exec. rewrite Ha, Hmain, Hres. eauto. }
    destruct (waiter s) eqn:Hwt.
    + (* the waiter is in wg.Wait() *)
      destruct (gen s) as [|cs ind pw| | | |] eqn:Hgen.
      * exists TGen. unfold exec, gen_step. rewrite Ha, Hgen. eauto.
      * destruct (gen_step_loop _ _ _ Hg) as
            (ind' & carry & Hfill & Hadv & _).
        destruct (Z.ltb_spec (Z.of_nat (length (passwords s))) passwords_cap)
          as [Hroom|Hfull].
        { exists TGen. unfold exec, gen_step. rewrite Ha, Hgen, Hfill.
          destruct (Z.ltb_spec (Z.of_nat (length (passwords s)))
                      passwords_cap); [eauto|lia]. }
        (* full buffer: some worker can move *)
        destruct (passwords s) as [|p q] eqn:Hq;
          [unfold passwords_cap in Hfull; simpl in Hfull; lia|].
        destruct (workers s) as [|w ws] eqn:Hwk; [simpl in Hn; lia|].
        assert (Hsend : forall i pw0, workers s !! i = Some (WSend pw0) ->
                  exists t s', exec t s = Some s').
        { intros i pw0 Hi. apply (worker_can_step i (WSend pw0)); [done..|].
          simpl. rewrite Hres. simpl. eauto. }
        destruct w as [|x| |x|x|x|x| |] eqn:Hw0.
        -- apply (worker_can_step 0 WRange); [done|by rewrite Hwk|].
           simpl. rewrite Hq. eauto.
        -- apply (worker_can_step 0 (WLoad x)); [done|by rewrite Hwk|].
           simpl. eauto.
        -- apply (worker_can_step 0 WDrain); [done|by rewrite Hwk|].
           simpl. rewrite Hq. eauto.
        -- apply (worker_can_step 0 (WAdd x)); [done|by rewrite Hwk|].
           simpl. eauto.
        -- apply (worker_can_step 0 (WVerify x)); [done|by rewrite Hwk|].
           simpl. eauto.
        -- apply (worker_can_step 0 (WCas x)); [done|by rewrite Hwk|].
           simpl. destruct (found s); eauto.
        -- apply (Hsend 0%nat x). by rewrite Hwk.
        -- apply Forall_cons in Hws as [Hw1 _]. simpl in Hw1.
           rewrite Hcl in Hw1. destruct Hw1 as [Hw1|Hw1]; [done|].
           rewrite Hw1 in Hdel. unfold deliveries in Hdel.
           rewrite Hres, Hmain in Hdel. simpl in Hdel.
           destruct (sending_pos (WReturn :: ws)) as (i & pw0 & Hi);
             [simpl; lia|].
           apply (Hsend i pw0). by rewrite Hwk.
        -- unfold alive, crashed in Ha.
           by rewrite Hmain, Hgen, Hwk in Ha.
      * exists TGen. unfold exec, gen_step. rewrite Ha, Hgen. eauto.
      * exists TGen. unfold exec, gen_step. rewrite Ha, Hgen. eauto.
      * exists TWaiter. unfold exec, waiter_step. rewrite Ha, Hwt, Hwg.
        simpl. eauto.
      * done.
    + exists TWaiter. unfold exec, waiter_step. rewrite Ha, Hwt. eauto.
    + exists TMainDone. unfold exec. rewrite Ha, Hmain, Hwt. eauto.
    + done.
  - exists TMainPrint. unfold exec. rewrite Ha, Hmain. eauto.
  - exists TMainPrint. unfold exec. rewrite Ha, Hmain. eauto.
  - exists TMainReturn. unfold exec. rewrite Ha, Hmain. eauto.
  - unfold alive in Ha. by rewrite Hmain in Ha.
Qed.

Lemma not_alive (s : state) :
  alive s = false -> (exists r, main s = MReturned r) \/ crashed s = true.
Proof.
  unfold alive. destruct (main s) as [| | | |r]; [..|by left; exists r];
    intros Ha; right; by destruct (crashed s).
Qed.

(** A state in which no goroutine can move is one in which main has
    returned with a report or the program has crashed. *)
Lemma stuck_returned (s : state) :
  (1 <= numWorkers)%nat -> reachable s ->
  (forall t, exec t s = None) ->
  (exists r, main s = MReturned r) \/ crashed s = true.
Proof.
  intros Hnw Hs Hstuck. destruct (alive s) eqn:Ha.
  - destruct (progress _ Hnw Hs Ha) as (t & s' & Ht).
    by rewrite Hstuck in Ht.
  - by apply not_alive.
Qed.

(** *** Runs on a mask with an unrecognised symbol *)

Lemma idle_not_crashed (s : state) :
  gen_ok (gen s) -> Forall worker_idle (workers s) -> crashed s = false.
Proof.
  intros Hg Hws. unfold crashed.
  assert (existsb panicked (workers s) = false) as ->.
  { induction Hws as [|w ws [-> | ->] _ IH]; simpl; done. }
  by destruct (gen s).
Qed.

Lemma idle_inv_init : idle_inv init.
Proof.
  unfold idle_inv. simpl. repeat split; auto.
  apply Forall_replicate. by left.
Qed.

Lemma count_inv_empty (s : state) :
  SearchSpace mask = 0 -> count_inv s ->
  passwords s = [] /\ tried s = 0.
Proof.
  intros H0 (_ & Ht & Hsum & Hle). pose proof (held_nonneg (workers s)).
  split; [|lia]. destruct (passwords s); [done|]. simpl in Hsum. lia.
Qed.

Lemma idle_inv_step (t : thread) (s s' : state) :
  SearchSpace mask = 0 -> count_inv s ->
  idle_inv s -> exec t s = Some s' -> idle_inv s'.
Proof.
  intros H0 Hc (Hq & Hws & Hr & Ht & Hm) Hex.
  pose proof (count_inv_step _ _ _ Hc Hex) as Hc'.
  destruct (count_inv_empty _ H0 Hc') as [Hq' Ht'].
  unfold idle_inv. rewrite Hq', Ht'. clear Hc Hc'.
  unfold exec in Hex. destruct (alive s); [|done]. destruct t.
  - unfold gen_step in Hex. destruct s as [g q c ws f n r w d m].
    simpl in *. destruct g; repeat case_match; simplify_eq/=; done.
  - destruct (workers s !! i) as [w|] eqn:Hi; [|done].
    pose proof (Forall_lookup_1 _ _ _ _ Hws Hi) as [->| ->];
      unfold worker_step in Hex; destruct s as [g q c ws f n r wg0 d m];
      simpl in *; repeat case_match; simplify_eq/=.
    repeat split; auto. apply Forall_insert; [done|by right].
  - unfold waiter_step in Hex. destruct s. simpl in *.
    repeat case_match; simplify_eq/=; done.
  - destruct s. simpl in *. repeat case_match; simplify_eq/=.
  - destruct s. simpl in *. repeat case_match; simplify_eq/=.
    repeat split; auto.
  - destruct s. simpl in *. repeat case_match; simplify_eq/=.
    + destruct Hm as [?|[?|[?|?]]]; done.
    + repeat split; auto.
  - destruct s. simpl in *. repeat case_match; simplify_eq/=.
    destruct Hm as [?|[?|[?|?]]]; simplify_eq. repeat split; auto.
Qed.

Lemma idle_inv_reachable (s : state) :
  SearchSpace mask = 0 -> reachable s -> idle_inv s.
Proof.
  intros H0 Hs.
  cut (count_inv s /\ idle_inv s); [by intros []|].
  revert s Hs. apply reachable_ind.
  - split; [apply count_inv_init|apply idle_inv_init].
  - intros t s s' [Hc Hi] Hex. split.
    + by eapply count_inv_step.
    + by eapply idle_inv_step.
Qed.

(** *** The flag and the result channel *)

Lemma found_monotone (t : thread) (s s' : state) :
  exec t s = Some s' -> found s = true -> found s' = true.
Proof.
  intros Hex Hf. unfold exec in Hex. destruct (alive s); [|done].
  destruct t.
  - unfold gen_step in Hex. destruct s. simpl in *.
    repeat case_match; simplify_eq/=; done.
  - destruct (workers s !! i) as [w|]; [|done].
    unfold worker_step in Hex. destruct s. simpl in *.
    destruct w; repeat case_match; simplify_eq/=; done.
  - unfold waiter_step in Hex. destruct s. simpl in *.
    repeat case_match; simplify_eq/=; done.
  - destruct s. simpl in *. repeat case_match; simplify_eq/=; done.
  - destruct s. simpl in *. repeat case_match; simplify_eq/=; done.
  - destruct s. simpl in *. repeat case_match; simplify_eq/=; done.
  - destruct s. simpl in *. repeat case_match; simplify_eq/=; done.
Qed.

Lemma found_stable (s s' : state) :
  rtc step s s' -> found s = true -> found s' = true.
Proof.
  induction 1 as [|s1 s2 s3 [t Ht] _ IH]; [done|].
  intros Hf. apply IH. by eapply found_monotone.
Qed.

(** At most one candidate is ever delivered, and only under the flag. *)
Lemma deliveries_at_most_one (s : state) :
  reachable s ->
  0 <= deliveries s <= 1 /\ (deliveries s = 1 -> found s = true).
Proof.
  intros Hs. destruct (proto_inv_reachable _ Hs) as (_ & _ & _ & _ & Hd & _).
  pose proof (sending_nonneg (workers s)).
  pose proof (main_took_nonneg (main s)).
  unfold deliveries in *. destruct (found s); split; try lia; done.
Qed.

End SearchInvariants.

(** ** The concurrent search: what complete processing gives *)

Lemma pending_insert_keep (ws : list worker_state) (i : nat)
    (w w' : worker_state) (c : string) :
  ws !! i = Some w ->
  (pending w = Some c -> pending w' = Some c) ->
  (exists j x, ws !! j = Some x /\ pending x = Some c) ->
  exists j x, <[i := w']> ws !! j = Some x /\ pending x = Some c.
Proof.
  intros Hi Hkeep (j & x & Hj & Hx). destruct (decide (i = j)) as [->|Hne].
  - exists j, w'. rewrite list_lookup_insert_eq by (by eapply lookup_lt_Some).
    split; [done|]. apply Hkeep. by simplify_eq.
  - exists j, x. by rewrite list_lookup_insert_ne.
Qed.

Lemma held_all_returned (ws : list worker_state) :
  Forall (fun w => w = WReturn) ws -> held ws = 0 /\ sending ws = 0.
Proof. induction 1 as [|w ws -> _ [IH1 IH2]]; simpl; lia. Qed.

Section SearchFlow.

Variable scrypt_Key :
  list Go.byte -> list Go.byte -> Z -> Z -> Z -> Z -> kdf_result.
Variable mask : string.
Variable data : ScryptData.t.
Variable numWorkers : nat.

Local Abbreviation exec := (exec scrypt_Key mask data).
Local Abbreviation reachable := (reachable scrypt_Key mask data numWorkers).
Local Abbreviation init := (init numWorkers).
Local Abbreviation emitted := (emitted mask).
Local Abbreviation count_inv := (count_inv mask).
Local Abbreviation proto_inv := (proto_inv numWorkers).
Local Abbreviation flow_inv := (flow_inv scrypt_Key mask data).
Local Abbreviation nomatch_inv := (nomatch_inv mask).
Local Abbreviation verify := (fun c => verifyPassword scrypt_Key c data).
Local Abbreviation candidates := (odometer_enum (mask_charsets mask)).

Lemma flow_inv_init : flow_inv init.
Proof.
  intros _. simpl. rewrite held_replicate_WRange. split; [done|].
  split; [intros c Hc; by apply elem_of_nil in Hc|].
  by apply Forall_replicate.
Qed.

Lemma flow_inv_step (t : thread) (s s' : state) :
  count_inv s -> proto_inv s -> flow_inv s ->
  exec t s = Some s' -> flow_inv s'.
Proof.
  intros Hc Hp Hflow Hex Hf'.
  assert (Hf : found s = false).
  { destruct (found s) eqn:Hf; [|done].
    by rewrite (found_monotone _ _ _ _ _ _ Hex Hf) in Hf'. }
  destruct (Hflow Hf) as (Htried & Hkeep & Hret). clear Hflow.
  destruct Hc as (Hg & Ht0 & _).
  destruct Hp as (_ & _ & Hcl & _ & Hdel & Hws).
  unfold exec in Hex. destruct (alive s); [|done]. destruct t.
  - (* generator *)
    unfold gen_step in Hex. destruct s as [g q c ws f n r w d m].
    simpl in *. destruct g as [|cs ind pw| | | |]; simplify_eq/=.
    + assert (emitted
                match fillCharsets (Go.range mask)
                        (replicate (String.length mask) EmptyString) with
                | Valid charsets =>
                  GLoop charsets (replicate (String.length mask) 0)
                        (replicate (String.length mask) zero)
                | InvalidMask _ => GDeferred
                | ValidationPanic => GPanic
                end = 0) as He.
      { destruct (fillCharsets_mask_cases mask) as [[Hm ->]|[Hx [x ->]]].
        - destruct (valid_ind_zero _ (mask_charsets_sizes mask Hm)) as [_ Hr].
          rewrite (mask_charsets_length mask Hm) in Hr. simpl. by rewrite Hr.
        - simpl. by apply SearchSpace_invalid. }
      rewrite He. done.
    + destruct (gen_step_loop _ _ _ _ Hg) as
          (ind' & carry & Hfill & Hadv & Hv' & Hlen & Hr).
      rewrite Hfill, Hadv in Hex.
      destruct (_ <? _); simplify_eq/=.
      destruct Hg as (Hm & -> & Hv & Hpw).
      assert (emitted (if carry then GDeferred
                       else GLoop (mask_charsets mask) ind'
                                  (candidate (mask_charsets mask) ind))
              = Z.of_nat (S (rank (mask_charsets mask) ind))) as He.
      { destruct carry; simpl.
        - destruct Hr as [_ ->]. apply SearchSpace_space.
        - by rewrite Hr. }
      rewrite He, length_app. simpl. split; [|split].
      * f_equal. lia.
      * intros c0 Hc0 Hv0. rewrite Nat2Z.id in Hc0.
        rewrite (take_S_r _ _ _ (odometer_enum_lookup _ _ Hv)) in Hc0.
        apply elem_of_app in Hc0 as [Hc0|Hc0].
        -- rewrite Nat2Z.id in Hkeep.
           destruct (Hkeep c0 Hc0 Hv0) as [Hq|Hw]; [|by right].
           left. apply elem_of_app. by left.
        -- apply list_elem_of_singleton in Hc0 as ->.
           left. apply elem_of_app. right. by apply list_elem_of_singleton.
      * eapply Forall_impl; [exact Hret|]. intros x Hx ->.
        by destruct (Hx eq_refl).
    + split; [done|]. split; [done|].
      eapply Forall_impl; [exact Hret|]. intros x Hx ->.
      by destruct (Hx eq_refl).
    + done.
  - (* worker *)
    destruct (workers s !! i) as [w|] eqn:Hi; [|done].
    pose proof (held_insert (workers s) i w) as Hheld.
    pose proof (Forall_lookup_1 _ _ _ _ Hws Hi) as Hw.
    pose proof (Forall_lookup_1 _ _ _ _ Hret Hi) as Hwr.
    pose proof (sending_lookup _ _ _ Hi) as Hone.
    pose proof (main_took_nonneg (main s)) as Hmt.
    pose proof (pending_insert_keep (workers s) i w) as Hpk.
    unfold worker_step in Hex. unfold deliveries in Hdel. clear Hcl Hg.
    destruct s as [g q c ws f n r wg0 d m]. simpl in *. subst f.
    destruct w as [|pw| |pw|pw|pw|pw| |]; simplify_eq/=.
    (* a draining or sending worker contradicts the unset flag *)
    + (* range *)
      destruct q as [|pw rest]; [destruct c; simplify_eq/=|simplify_eq/=].
      * rewrite Hheld by done. simpl. split; [f_equal; lia|].
        split.
        -- intros c0 Hc0 Hv0. destruct (Hkeep c0 Hc0 Hv0) as [Hq|Hx];
             [by left|right]. apply (Hpk WReturn c0); [done..|done].
        -- apply Forall_insert; [done|done].
      * rewrite Hheld by done. simpl. split; [f_equal; lia|].
        split.
        -- intros c0 Hc0 Hv0. destruct (Hkeep c0 Hc0 Hv0) as [Hq|Hx].
           ++ apply elem_of_cons in Hq as [->|Hq]; [|by left].
              right. exists i, (WLoad pw).
              by rewrite list_lookup_insert_eq by (by eapply lookup_lt_Some).
           ++ right. apply (Hpk (WLoad pw) c0); [done..|done].
        -- apply Forall_insert; [|done].
           eapply Forall_impl; [exact Hret|]. intros x Hx ->.
           by destruct (Hx eq_refl).
    + (* load *)
      rewrite Hheld by done. simpl. split; [f_equal; lia|].
      split.
      * intros c0 Hc0 Hv0. destruct (Hkeep c0 Hc0 Hv0) as [Hq|Hx];
          [by left|right]. by apply (Hpk (WAdd pw) c0).
      * apply Forall_insert; [done|done].
    + (* add *)
      rewrite Hheld by done. simpl. split.
      * unfold Go.wrap_uint64.
        rewrite Z.add_mod_idemp_l by lia. f_equal. lia.
      * split.
        -- intros c0 Hc0 Hv0. destruct (Hkeep c0 Hc0 Hv0) as [Hq|Hx];
             [by left|right]. by apply (Hpk (WVerify pw) c0).
        -- apply Forall_insert; [done|done].
    + (* verify *)
      rewrite Hheld by done.
      destruct (verifyPassword scrypt_Key pw data) as [[|]|] eqn:Hvp; simpl.
      * split; [f_equal; lia|]. split.
        -- intros c0 Hc0 Hv0. destruct (Hkeep c0 Hc0 Hv0) as [Hq|Hx];
             [by left|right]. by apply (Hpk (WCas pw) c0).
        -- apply Forall_insert; [done|done].
      * split; [f_equal; lia|]. split.
        -- intros c0 Hc0 Hv0. destruct (Hkeep c0 Hc0 Hv0) as [Hq|Hx];
             [by left|right]. apply (Hpk WRange c0); [done| |done].
           intros [= ->]. congruence.
        -- apply Forall_insert; [done|done].
      * (* the derivation panics *)
        split; [f_equal; lia|]. split.
        -- intros c0 Hc0 Hv0. destruct (Hkeep c0 Hc0 Hv0) as [Hq|Hx];
             [by left|right]. apply (Hpk WPanic c0); [done| |done].
           intros [= ->]. congruence.
        -- apply Forall_insert; [done|done].
    + (* send: the flag is set *)
      destruct (_ <? _); simplify_eq/=. exfalso. lia.
  - unfold waiter_step in Hex. destruct s. simpl in *.
    repeat case_match; simplify_eq/=; done.
  - destruct s. simpl in *. repeat case_match; simplify_eq/=; done.
  - destruct s. simpl in *. repeat case_match; simplify_eq/=; done.
  - destruct s. simpl in *. repeat case_match; simplify_eq/=; done.
  - destruct s. simpl in *. repeat case_match; simplify_eq/=; done.
Qed.

Lemma flow_inv_reachable (s : state) : reachable s -> flow_inv s.
Proof.
  intros Hs.
  cut (count_inv s /\ proto_inv s /\ flow_inv s); [by intros (_ & _ & ?)|].
  revert s Hs. apply reachable_ind.
  - split; [apply count_inv_init|]. split; [apply proto_inv_init|].
    apply flow_inv_init.
  - intros t s s' (Hc & Hp & Hfl) Hex. split; [by eapply count_inv_step|].
    split; [by eapply proto_inv_step|]. by eapply flow_inv_step.
Qed.

Lemma nomatch_inv_init : nomatch_inv init.
Proof.
  split; [done|]. split; [constructor|]. by apply Forall_replicate.
Qed.

Lemma nomatch_inv_step (t : thread) (s s' : state) :
  (forall c, c ∈ candidates -> verify c <> Some true) ->
  count_inv s -> nomatch_inv s -> exec t s = Some s' -> nomatch_inv s'.
Proof.
  intros Hno (Hg & _) (Hf & Hq & Hws) Hex. unfold nomatch_inv.
  unfold exec in Hex. destruct (alive s); [|done]. destruct t.
  - unfold gen_step in Hex. destruct s as [g q c ws f n r w d m].
    simpl in *. destruct g as [|cs ind pw| | | |]; simplify_eq/=; try done.
    destruct (gen_step_loop _ _ _ _ Hg) as
        (ind' & carry & Hfill & Hadv & Hv' & Hlen & Hr).
    rewrite Hfill, Hadv in Hex. destruct (_ <? _); simplify_eq/=.
    destruct Hg as (Hm & -> & Hv & Hpw).
    split; [done|]. split; [|done]. apply Forall_app. split; [done|].
    apply Forall_singleton. eapply list_elem_of_lookup_2.
    by apply odometer_enum_lookup.
  - destruct (workers s !! i) as [w|] eqn:Hi; [|done].
    pose proof (Forall_lookup_1 _ _ _ _ Hws Hi) as Hw.
    unfold worker_step in Hex. clear Hg.
    destruct s as [g q c ws f n r wg0 d m]. simpl in *. subst f.
    destruct w as [|pw| |pw|pw|pw|pw| |]; simpl in Hw; try done;
      simplify_eq/=.
    + destruct q as [|pw rest]; [destruct c; simplify_eq/=|simplify_eq/=].
      * split; [done|]. split; [done|]. by apply Forall_insert.
      * apply Forall_cons in Hq as [Hpw Hq].
        split; [done|]. split; [done|]. by apply Forall_insert.
    + split; [done|]. split; [done|]. by apply Forall_insert.
    + split; [done|]. split; [done|]. by apply Forall_insert.
    + specialize (Hno pw Hw).
      destruct (verifyPassword scrypt_Key pw data) as [[|]|]; [done|..];
        (split; [done|]); (split; [done|]); by apply Forall_insert.
  - unfold waiter_step in Hex. destruct s. simpl in *.
    repeat case_match; simplify_eq/=; done.
  - destruct s. simpl in *. repeat case_match; simplify_eq/=; done.
  - destruct s. simpl in *. repeat case_match; simplify_eq/=; done.
  - destruct s. simpl in *. repeat case_match; simplify_eq/=; done.
  - destruct s. simpl in *. repeat case_match; simplify_eq/=; done.
Qed.

Lemma nomatch_inv_reachable (s : state) :
  (forall c, c ∈ candidates -> verify c <> Some true) ->
  reachable s -> nomatch_inv s.
Proof.
  intros Hno Hs.
  cut (count_inv s /\ nomatch_inv s); [by intros []|].
  revert s Hs. apply reachable_ind.
  - split; [apply count_inv_init|apply nomatch_inv_init].
  - intros t s s' [Hc Hn] Hex. split; [by eapply count_inv_step|].
    by eapply nomatch_inv_step.
Qed.

(** Once every worker has returned with the flag unset, the channel is
    closed and empty and the generator has sent everything. *)
Lemma all_returned_unflagged (s : state) :
  (1 <= numWorkers)%nat -> reachable s ->
  Forall (fun w => w = WReturn) (workers s) -> found s = false ->
  passwords s = [] /\ emitted (gen s) = SearchSpace mask.
Proof.
  intros Hnw Hs Hall Hf.
  destruct (proto_inv_reachable _ _ _ _ _ Hs) as (Hn & _ & Hcl & _).
  destruct (flow_inv_reachable _ Hs Hf) as (_ & _ & Hret).
  destruct (workers s) as [|w ws] eqn:Hws; [simpl in Hn; lia|].
  apply Forall_cons in Hall as [-> _].
  apply Forall_cons in Hret as [Hret _]. destruct (Hret eq_refl) as [Hq Hc].
  split; [done|]. rewrite Hc in Hcl. by destruct (gen s).
Qed.

(** When no candidate verifies (each is rejected, or the derivation
    panics on it) and every worker has returned, each candidate has been
    counted once: the counter is the computed search space. *)
Lemma exhaustive_count (s : state) :
  (1 <= numWorkers)%nat ->
  (forall c, c ∈ candidates -> verify c <> Some true) ->
  reachable s -> Forall (fun w => w = WReturn) (workers s) ->
  tried s = calculateTotalCombinations mask.
Proof.
  intros Hnw Hno Hs Hall.
  destruct (nomatch_inv_reachable _ Hno Hs) as (Hf & _).
  destruct (all_returned_unflagged _ Hnw Hs Hall Hf) as [Hq He].
  destruct (flow_inv_reachable _ Hs Hf) as (Ht & _).
  destruct (held_all_returned _ Hall) as [Hh _].
  rewrite Ht, Hq, He, Hh, calculateTotalCombinations_mod. simpl.
  f_equal. lia.
Qed.

(** When some candidate verifies and every worker has returned, exactly
    one candidate has been delivered. *)
Lemma match_delivered (s : state) (c : string) :
  (1 <= numWorkers)%nat ->
  c ∈ candidates -> verify c = Some true ->
  reachable s -> Forall (fun w => w = WReturn) (workers s) ->
  found s = true /\ deliveries s = 1.
Proof.
  intros Hnw Hc Hv Hs Hall.
  destruct (proto_inv_reachable _ _ _ _ _ Hs) as (_ & _ & _ & _ & Hdel & _).
  destruct (held_all_returned _ Hall) as [_ Hsend].
  destruct (found s) eqn:Hf; [split; [done|lia]|]. exfalso.
  destruct (all_returned_unflagged _ Hnw Hs Hall Hf) as [Hq He].
  destruct (flow_inv_reachable _ Hs Hf) as (_ & Hkeep & _).
  destruct (Hkeep c) as [Hin|(i & w & Hi & Hp)]; [|done| |].
  - rewrite He, SearchSpace_space, Nat2Z.id, take_ge; [done|].
    by rewrite odometer_enum_length.
  - rewrite Hq in Hin. by apply elem_of_nil in Hin.
  - pose proof (Forall_lookup_1 _ _ _ _ Hall Hi) as ->. done.
Qed.

End SearchFlow.

(** ** The attempt counter and the search space *)

(** C7, as amended: in every reachable state of every run the attempt
    counter is at most the product of the charset sizes, which is the
    number of candidates the generator can send; whenever that product
    is below 2^64 it is the value of [calculateTotalCombinations], and
    the counter never exceeds that value. *)
Theorem tried_bounded_by_space
    (scrypt_Key : list Go.byte -> list Go.byte -> Z -> Z -> Z -> Z -> kdf_result)
    (mask : string) (data : ScryptData.t) (numWorkers : nat) (s : state) :
  reachable scrypt_Key mask data numWorkers s ->
  0 <= tried s <= SearchSpace mask
  /\ (SearchSpace mask < 2 ^ 64 ->
      calculateTotalCombinations mask = SearchSpace mask
      /\ tried s <= calculateTotalCombinations mask).
Proof.
  intros Hs.
  destruct (count_inv_reachable _ _ _ _ _ Hs) as (_ & Ht & Hsum & Hle).
  pose proof (held_nonneg (workers s)).
  split; [lia|]. intros Hsmall.
  rewrite calculateTotalCombinations_mod, Z.mod_small;
    [lia|rewrite SearchSpace_space in *; lia].
Qed.

Lemma tried_bounded_by_space_witness :
  exists s, reachable example_Key "dd" record_no_match 2 s
    /\ tried s = 2 /\ tried s <= calculateTotalCombinations "dd".
Proof.
  assert (Hrun : run example_Key "dd" record_no_match
            [TGen; TGen; TGen; TWorker 0; TWorker 1; TWorker 0; TWorker 1;
             TWorker 1; TWorker 0] (init 2)
            = Some (mkState
                      (GLoop ["1234567890"; "1234567890"]%string [0; 2]
                             (Go.bytes_of "12"))
                      [] false [WVerify "11"; WVerify "12"] false 2 [] 1
                      DWait MSelect)) by (by vm_compute).
  apply run_reachable in Hrun. eexists. split; [exact Hrun|].
  split; [done|].
  destruct (tried_bounded_by_space _ _ _ _ _ Hrun) as [_ Hsmall].
  apply Hsmall. by vm_compute.
Defined.

(** The bound does not hold against the computed value in general: with
    sixty-four digit positions the computed search space is 0, and the
    counter is 1 as soon as one candidate has been counted. *)
Lemma tried_exceeds_computed_space :
  exists s, reachable example_Key mask_d64 record_no_match 1 s
    /\ calculateTotalCombinations mask_d64 < tried s.
Proof.
  assert (Hrun : exists s,
            run example_Key mask_d64 record_no_match
              [TGen; TGen; TWorker 0; TWorker 0; TWorker 0] (init 1) = Some s
            /\ tried s = 1).
  { eexists. split; [by vm_compute|done]. }
  destruct Hrun as (s & Hrun & Ht). exists s.
  split; [by eapply run_reachable|]. rewrite Ht. by vm_compute.
Qed.

(** ** A mask with an unrecognised symbol *)

(** C5, as amended: when the mask contains a symbol outside the table,
    at any position, the computed search space is 0 and the attempt
    counter is 0 in every reachable state; every run is finite, a state
    in which no goroutine can move has main returned, and the only
    report main can return with is not-found with attempt counter 0,
    equal to the search space and not below it. *)
Theorem invalid_mask_not_found
    (scrypt_Key : list Go.byte -> list Go.byte -> Z -> Z -> Z -> Z -> kdf_result)
    (mask : string) (data : ScryptData.t) (numWorkers : nat) :
  (1 <= numWorkers)%nat ->
  Exists (fun m => m ∉ class_runes) (mask_runes mask) ->
  calculateTotalCombinations mask = 0
  /\ SearchSpace mask = 0
  /\ (forall s, reachable scrypt_Key mask data numWorkers s ->
        tried s = 0
        /\ (forall r, main s = MReturned r -> r = NotFound 0)
        /\ ((forall t, exec scrypt_Key mask data t s = None) ->
            main s = MReturned (NotFound 0)))
  /\ (forall n s, nsteps (step scrypt_Key mask data) n (init numWorkers) s ->
        (n <= numWorkers + 29)%nat).
Proof.
  intros Hnw Hex. pose proof (SearchSpace_invalid _ Hex) as H0.
  split; [by rewrite calculateTotalCombinations_mod, H0|].
  split; [done|]. split.
  - intros s Hs.
    destruct (idle_inv_reachable _ _ _ _ _ H0 Hs)
      as (_ & Hws & _ & Ht & Hm).
    assert (Hrep : forall r, main s = MReturned r -> r = NotFound 0).
    { intros r Hr. rewrite Hr in Hm.
      by destruct Hm as [?|[?|[?|[= ->]]]]. }
    split; [done|]. split; [done|]. intros Hstuck.
    destruct (stuck_returned _ _ _ _ _ Hnw Hs Hstuck) as [[r Hr]|Hcr].
    + by rewrite Hr, (Hrep r Hr).
    + destruct (count_inv_reachable _ _ _ _ _ Hs) as (Hg & _).
      rewrite (idle_not_crashed _ _ Hg Hws) in Hcr. done.
  - intros n s Hn.
    pose proof (run_length_bounded scrypt_Key mask data numWorkers n _ _
                  (rtc_refl _ _) Hn) as Hb.
    unfold measure in Hb. simpl in Hb.
    rewrite SearchSpace_space in H0.
    assert (workers_weight (replicate numWorkers WRange) = numWorkers) as Hw.
    { clear. induction numWorkers as [|k IH]; simpl; [done|]. by rewrite IH. }
    rewrite Hw in Hb. lia.
Qed.

Lemma invalid_mask_not_found_witness :
  calculateTotalCombinations "dxd" = 0
  /\ exists s, reachable example_Key "dxd" record_of_0 1 s
       /\ main s = MReturned (NotFound 0).
Proof.
  assert (H1 : (1 <= 1)%nat) by lia.
  assert (H2 : Exists (fun m => m ∉ class_runes) (mask_runes "dxd")).
  { apply (bool_decide_unpack _). by vm_compute. }
  destruct (invalid_mask_not_found example_Key "dxd" record_of_0 1 H1 H2)
    as (Hc & _ & Hreach & _).
  split; [exact Hc|].
  assert (Hrun : exists s,
            run example_Key "dxd" record_of_0
              [TGen; TGen; TGen; TWaiter; TWaiter; TMainDone; TMainPrint;
               TMainReturn] (init 1) = Some s
            /\ forall t, exec example_Key "dxd" record_of_0 t s = None).
  { eexists. split; [by vm_compute|]. by intros []. }
  destruct Hrun as (s & Hrun & Hstuck). exists s.
  apply run_reachable in Hrun. split; [done|].
  by apply (Hreach s Hrun).
Defined.

(** The counter is not strictly below the search space: the run on mask
    [x] ends with a not-found report whose counter is 0, and the search
    space is 0 as well. *)
Lemma invalid_mask_counter_not_below_space :
  exists s, reachable example_Key "x" record_of_0 1 s
    /\ main s = MReturned (NotFound 0)
    /\ ~ (0 < calculateTotalCombinations "x")
    /\ ~ (0 < SearchSpace "x").
Proof.
  assert (Hrun : exists s,
            run example_Key "x" record_of_0
              [TGen; TGen; TGen; TWaiter; TWaiter; TMainDone; TMainPrint;
               TMainReturn] (init 1) = Some s
            /\ main s = MReturned (NotFound 0)).
  { eexists. split; [by vm_compute|done]. }
  destruct Hrun as (s & Hrun & Hm). exists s.
  split; [by eapply run_reachable|]. split; [done|].
  split; by vm_compute.
Qed.

(** ** The completion signal *)

(** C2 fails on the code: on mask [d] with a record that no candidate
    verifies against, main reports not-found with attempt counter 1
    while the search space is 10.  The generator has sent its ten
    candidates and closed the channel, the wait group (which counts the
    generator only) has reached zero, the sleep has elapsed and [done]
    has been received, all while the single worker is still verifying
    its first candidate. *)
Theorem not_found_before_exhaustion :
  exists s,
    reachable example_Key "d" record_no_match 1 s
    /\ (forall c, c ∈ odometer_enum (mask_charsets "d") ->
          verifyPassword example_Key c record_no_match = Some false)
    /\ calculateTotalCombinations "d" = 10
    /\ main s = MReturned (NotFound 1)
    /\ workers s = [WVerify "1"]
    /\ length (passwords s) = 9%nat.
Proof.
  assert (Hrun : exists s,
            run example_Key "d" record_no_match
              ([TGen] ++ replicate 10 TGen
               ++ [TWorker 0; TWorker 0; TWorker 0; TGen; TGen;
                   TWaiter; TWaiter; TMainDone; TMainPrint; TMainReturn])
              (init 1)
            = Some s
            /\ main s = MReturned (NotFound 1)
            /\ workers s = [WVerify "1"]
            /\ length (passwords s) = 9%nat).
  { eexists. split; [by vm_compute|done]. }
  destruct Hrun as (s & Hrun & Hm). exists s.
  split; [by eapply run_reachable|]. split; [|split; [done|]; done].
  apply Forall_forall, (bool_decide_unpack _). by vm_compute.
Qed.

(** C3 fails on the code, by the same defect: on mask [d] with the
    record of password ["0"], which is the last candidate, main can
    report not-found and return while the single worker is verifying the
    first candidate; the program then stops and nothing is ever
    delivered on the result channel although a candidate matches. *)
Theorem match_never_delivered :
  exists s,
    reachable example_Key "d" record_of_0 1 s
    /\ "0"%string ∈ odometer_enum (mask_charsets "d")
    /\ verifyPassword example_Key "0" record_of_0 = Some true
    /\ main s = MReturned (NotFound 1)
    /\ deliveries s = 0
    /\ found s = false
    /\ (forall t, exec example_Key "d" record_of_0 t s = None).
Proof.
  assert (Hrun : exists s,
            run example_Key "d" record_of_0
              ([TGen] ++ replicate 10 TGen
               ++ [TWorker 0; TWorker 0; TWorker 0; TGen; TGen;
                   TWaiter; TWaiter; TMainDone; TMainPrint; TMainReturn])
              (init 1)
            = Some s
            /\ main s = MReturned (NotFound 1)
            /\ deliveries s = 0 /\ found s = false
            /\ forall t, exec example_Key "d" record_of_0 t s = None).
  { eexists. split; [by vm_compute|]. repeat split; try done; by intros []. }
  destruct Hrun as (s & Hrun & Hm). exists s.
  split; [by eapply run_reachable|].
  split; [apply (bool_decide_unpack _); by vm_compute|]. split; [done|]. done.
Qed.

(** ** The verification oracle *)

Lemma bytes_Equal_eq (a b : list Go.byte) : bytes_Equal a b = true <-> a = b.
Proof.
  revert b. induction a as [|x a IH]; intros [|y b]; simpl; try done.
  rewrite andb_true_iff, IH, Ascii.eqb_eq. split.
  - by intros [-> ->].
  - by intros [= -> ->].
Qed.

(** What [verifyPassword] does, by the outcome of the derivation with
    the record's salt, N, r, p and key length: it answers true exactly
    when the derivation returns the stored digest, byte for byte; it
    answers false when the derivation returns an error or another key;
    and it panics exactly when the derivation panics. *)
Lemma verifyPassword_spec
    (scrypt_Key : list Go.byte -> list Go.byte -> Z -> Z -> Z -> Z -> kdf_result)
    (password : string) (data : ScryptData.t) :
  let derived :=
    scrypt_Key (Go.bytes_of password) (ScryptData.Salt data)
               (ScryptData.N data) (ScryptData.R data) (ScryptData.P data)
               (ScryptData.KeyLen data) in
  (verifyPassword scrypt_Key password data = Some true
   <-> derived = KdfOk (ScryptData.Hash data))
  /\ (derived = KdfErr ->
      verifyPassword scrypt_Key password data = Some false)
  /\ (forall key, derived = KdfOk key -> key <> ScryptData.Hash data ->
        verifyPassword scrypt_Key password data = Some false)
  /\ (verifyPassword scrypt_Key password data = None
      <-> derived = KdfPanic).
Proof.
  intros derived. unfold verifyPassword. fold derived.
  destruct derived as [key| |].
  - split; [|split; [done|split; [|done]]].
    + split.
      * intros [= H]. apply bytes_Equal_eq in H. by subst.
      * intros [= ->]. f_equal. by apply bytes_Equal_eq.
    + intros k [= <-] Hne. f_equal. apply not_true_iff_false.
      by rewrite bytes_Equal_eq.
  - split; [split; done|]. split; [done|]. split; [by intros|done].
  - split; [split; done|]. split; [done|]. split; [by intros|done].
Qed.

Lemma verifyPassword_examples :
  verifyPassword example_Key "0" record_of_0 = Some true
  /\ verifyPassword example_Key "1" record_of_0 = Some false
  /\ verifyPassword example_Key "0" record_invalid = Some false.
Proof.
  destruct (verifyPassword_spec example_Key "0" record_of_0) as (H1 & _ & _).
  destruct (verifyPassword_spec example_Key "1" record_of_0)
    as (_ & _ & H2 & _).
  destruct (verifyPassword_spec example_Key "0" record_invalid)
    as (_ & H3 & _).
  split; [by apply H1|]. split; [|by apply H3].
  by apply (H2 (Go.bytes_of "1")).
Qed.

(** C4 fails on the code where the derivation panics.  The record text
    [16384*8*1*-1*0a*0b] is accepted by [parseFile], which checks
    neither the sign nor the size of the numbers; on its key length the
    derivation panics instead of returning an error; [verifyPassword]
    has no [recover], so it does not answer false: the panic leaves it,
    and in the search it ends the program in a worker, before any
    report.  The branch [if err != nil] absorbs the failures the
    derivation returns as errors and misses the ones it raises as
    panics. *)
Theorem verifyPassword_panic_escapes :
  parseFile (fun l => l) (fun l => l)
    (fun _ => Some "16384*8*1*-1*0a*0b"%string) "hash.txt"
  = inl record_negative_keyLen
  /\ example_Key (Go.bytes_of "1") (ScryptData.Salt record_negative_keyLen)
       (ScryptData.N record_negative_keyLen)
       (ScryptData.R record_negative_keyLen)
       (ScryptData.P record_negative_keyLen)
       (ScryptData.KeyLen record_negative_keyLen) = KdfPanic
  /\ verifyPassword example_Key "1" record_negative_keyLen = None
  /\ verifyPassword example_Key "1" record_negative_keyLen <> Some false
  /\ exists s,
       reachable example_Key "d" record_negative_keyLen 1 s
       /\ workers s = [WPanic]
       /\ tried s = 1
       /\ main s = MSelect
       /\ forall t, exec example_Key "d" record_negative_keyLen t s = None.
Proof.
  split; [by vm_compute|]. split; [done|]. split; [done|]. split; [done|].
  assert (Hrun : exists s,
            run example_Key "d" record_negative_keyLen
              [TGen; TGen; TWorker 0; TWorker 0; TWorker 0; TWorker 0]
              (init 1) = Some s
            /\ workers s = [WPanic] /\ tried s = 1 /\ main s = MSelect
            /\ forall t, exec example_Key "d" record_negative_keyLen t s
                         = None).
  { eexists. split; [by vm_compute|]. repeat split; try done; by intros []. }
  destruct Hrun as (s & Hrun & Hrest). exists s.
  split; [by eapply run_reachable|done].
Qed.

(** ** Decimal numbers *)

Lemma digit_digitChar (d : Z) :
  0 <= d <= 9 -> Lib.digit (Lib.digitChar d) = Some d.
Proof.
  intros Hd.
  assert (d = 0 \/ d = 1 \/ d = 2 \/ d = 3 \/ d = 4 \/ d = 5 \/ d = 6
          \/ d = 7 \/ d = 8 \/ d = 9) as Hc by lia.
  repeat (destruct Hc as [->|Hc]; [done|]). by subst.
Qed.

Lemma formatBits_digits (fuel : nat) (u : Z) (buf : list Go.byte) :
  0 <= u < 10 ^ Z.of_nat fuel ->
  Lib.digits 0 (Lib.formatBits fuel u buf) = Lib.digits u buf.
Proof.
  revert u buf. induction fuel as [|fuel IH]; intros u buf Hu.
  - simpl in *. by replace u with 0 by lia.
  - cbn [Lib.formatBits].
    assert (0 <= u mod 10 <= 9) as Hm by (Z.div_mod_to_equations; lia).
    destruct (Z.ltb_spec u 10).
    + simpl. rewrite digit_digitChar by done. rewrite Z.mod_small by lia. done.
    + rewrite IH.
      * simpl. rewrite digit_digitChar by done.
        f_equal. Z.div_mod_to_equations; lia.
      * rewrite Nat2Z.inj_succ, Z.pow_succ_r in Hu by lia.
        Z.div_mod_to_equations; lia.
Qed.

Lemma digitChar_field (d : Z) : 0 <= d <= 9 -> Lib.digitChar d ∈ field_bytes.
Proof.
  intros Hd.
  assert (d = 0 \/ d = 1 \/ d = 2 \/ d = 3 \/ d = 4 \/ d = 5 \/ d = 6
          \/ d = 7 \/ d = 8 \/ d = 9) as Hc by lia.
  repeat (destruct Hc as [->|Hc];
          [apply (bool_decide_unpack _); by vm_compute|]).
  subst. apply (bool_decide_unpack _). by vm_compute.
Qed.

Lemma formatBits_field (fuel : nat) (u : Z) (buf : list Go.byte) :
  0 <= u -> field buf -> field (Lib.formatBits fuel u buf).
Proof.
  revert u buf. induction fuel as [|fuel IH]; intros u buf Hu Hbuf; [done|].
  cbn [Lib.formatBits].
  assert (0 <= u mod 10 <= 9) as Hm by (Z.div_mod_to_equations; lia).
  assert (field (Lib.digitChar (u mod 10) :: buf)) as Hb.
  { constructor; [by apply digitChar_field|done]. }
  destruct (u <? 10); [done|]. apply IH; [|done].
  Z.div_mod_to_equations; lia.
Qed.

(** The formatted number starts with a digit. *)
Lemma formatBits_head (fuel : nat) (u : Z) (buf : list Go.byte) :
  0 <= u ->
  exists d rest, 0 <= d <= 9
    /\ Lib.formatBits (S fuel) u buf = Lib.digitChar d :: rest.
Proof.
  revert u buf. induction fuel as [|fuel IH]; intros u buf Hu.
  - exists (u mod 10), buf.
    split; [Z.div_mod_to_equations; lia|].
    simpl. by destruct (u <? 10).
  - change (Lib.formatBits (S (S fuel)) u buf) with
      (if u <? 10 then Lib.digitChar (u mod 10) :: buf
       else Lib.formatBits (S fuel) (u / 10)
                           (Lib.digitChar (u mod 10) :: buf)).
    destruct (u <? 10).
    + exists (u mod 10), buf. split; [Z.div_mod_to_equations; lia|done].
    + apply IH. Z.div_mod_to_equations; lia.
Qed.

Ltac int_range_check :=
  match goal with
  | |- context [(?a <=? ?b) && (?c <? ?d)] =>
    replace ((a <=? b) && (c <? d)) with true
      by (symmetry; apply andb_true_intro;
          split; [apply Z.leb_le|apply Z.ltb_lt]; lia)
  end.

Lemma Atoi_Itoa (n : Z) :
  - 2 ^ 63 <= n < 2 ^ 63 -> Lib.Atoi (Lib.Itoa n) = Some n.
Proof.
  intros Hn. unfold Lib.Itoa. destruct (Z.ltb_spec n 0) as [Hneg|Hpos].
  - destruct (formatBits_head 19 (- n) [] ltac:(lia)) as (d & rest & Hd & Hf).
    unfold Lib.Atoi. rewrite Hf. cbn [Go.string_of string_of_list_ascii].
    change (String (Lib.digitChar d) (string_of_list_ascii rest))
      with (Go.string_of (Lib.digitChar d :: rest)).
    rewrite bytes_of_string_of, <- Hf, formatBits_digits by (simpl; lia).
    simpl. int_range_check. f_equal. lia.
  - destruct (formatBits_head 19 n [] ltac:(lia)) as (d & rest & Hd & Hf).
    unfold Lib.Atoi. rewrite Hf. cbn [Go.string_of string_of_list_ascii].
    assert (d = 0 \/ d = 1 \/ d = 2 \/ d = 3 \/ d = 4 \/ d = 5 \/ d = 6
            \/ d = 7 \/ d = 8 \/ d = 9) as Hc by lia.
    assert (forall c : Go.byte,
              c <> "-"%char -> c <> "+"%char ->
              Lib.digits 0 (c :: rest) = Some n ->
              (let '(neg, body) :=
                 match String c (string_of_list_ascii rest) with
                 | String "-" t => (true, t)
                 | String "+" t => (false, t)
                 | _ => (false, String c (string_of_list_ascii rest))
                 end in
               match body with
               | EmptyString => None
               | _ =>
                 match Lib.digits 0 (Go.bytes_of body) with
                 | None => None
                 | Some v =>
                   let n := if neg then - v else v in
                   if (- 2 ^ 63 <=? n) && (n <? 2 ^ 63) then Some n else None
                 end
               end) = Some n) as Hgen.
    { intros c H1 H2 Hdig.
      assert ((match String c (string_of_list_ascii rest) with
               | String "-" t => (true, t)
               | String "+" t => (false, t)
               | _ => (false, String c (string_of_list_ascii rest))
               end) = (false, String c (string_of_list_ascii rest))) as ->.
      { destruct c as [[] [] [] [] [] [] [] []]; try done. }
      change (String c (string_of_list_ascii rest))
        with (Go.string_of (c :: rest)).
      rewrite bytes_of_string_of, Hdig. simpl. by int_range_check. }
    apply Hgen.
    + repeat (destruct Hc as [->|Hc]; [done|]). by subst.
    + repeat (destruct Hc as [->|Hc]; [done|]). by subst.
    + rewrite <- Hf. rewrite formatBits_digits by (simpl; lia). done.
Qed.

Lemma Itoa_field (n : Z) : field (Go.bytes_of (Lib.Itoa n)).
Proof.
  unfold Lib.Itoa. destruct (Z.ltb_spec n 0).
  - change (String "-" (Go.string_of ?l)) with (Go.string_of ("-"%char :: l)).
    cbn [Go.bytes_of list_ascii_of_string].
    constructor; [apply (bool_decide_unpack _); by vm_compute|].
    fold (Go.bytes_of (Go.string_of (Lib.formatBits 20 (- n) []))).
    rewrite bytes_of_string_of. apply formatBits_field; [lia|constructor].
  - rewrite bytes_of_string_of. apply formatBits_field; [lia|constructor].
Qed.

Lemma Itoa_nonempty (n : Z) : Go.bytes_of (Lib.Itoa n) <> [].
Proof.
  unfold Lib.Itoa. destruct (Z.ltb_spec n 0); [done|].
  rewrite bytes_of_string_of.
  destruct (formatBits_head 19 n [] ltac:(lia)) as (d & rest & _ & ->). done.
Qed.

(** ** Hexadecimal text *)

Lemma hex_byte (b : Go.byte) :
  let hi := Z.shiftr (Go.byteZ b) 4 in
  let lo := Z.land (Go.byteZ b) 15 in
  Lib.fromHexChar (Lib.hexChar hi) = Some hi
  /\ Lib.fromHexChar (Lib.hexChar lo) = Some lo
  /\ ascii_of_N (Z.to_N (Z.lor (Z.shiftl hi 4) lo)) = b
  /\ Lib.hexChar hi ∈ field_bytes /\ Lib.hexChar lo ∈ field_bytes.
Proof.
  destruct b as [[] [] [] [] [] [] [] []];
    (split; [by vm_compute|]); (split; [by vm_compute|]);
    (split; [by vm_compute|]);
    split; apply (bool_decide_unpack _); by vm_compute.
Qed.

Lemma Decode_Encode (bs : list Go.byte) :
  Lib.Decode (Lib.EncodeToString_bytes bs) = Some bs.
Proof.
  induction bs as [|b bs IH]; [done|].
  destruct (hex_byte b) as (Hhi & Hlo & Hb & _).
  cbn [Lib.EncodeToString_bytes Lib.Decode].
  by rewrite Hhi, Hlo, IH, Hb.
Qed.

Lemma DecodeString_EncodeToString (bs : list Go.byte) :
  Lib.DecodeString (Lib.EncodeToString bs) = Some bs.
Proof.
  unfold Lib.DecodeString, Lib.EncodeToString.
  rewrite bytes_of_string_of. apply Decode_Encode.
Qed.

Lemma EncodeToString_field (bs : list Go.byte) :
  field (Go.bytes_of (Lib.EncodeToString bs)).
Proof.
  unfold Lib.EncodeToString. rewrite bytes_of_string_of.
  induction bs as [|b bs IH]; [constructor|].
  destruct (hex_byte b) as (_ & _ & _ & Hhi & Hlo).
  cbn [Lib.EncodeToString_bytes].
  constructor; [done|]. constructor; [done|]. exact IH.
Qed.

(** ** Splitting and trimming the record *)

Lemma bytes_of_append (a b : string) :
  Go.bytes_of (a +:+ b) = Go.bytes_of a ++ Go.bytes_of b.
Proof. induction a as [|c a IH]; simpl; [done|]. by rewrite <- IH. Qed.

Lemma star_not_field : "*"%char ∉ field_bytes.
Proof. apply (bool_decide_unpack _). by vm_compute. Qed.

Lemma Split_field (a : string) :
  field (Go.bytes_of a) -> Lib.Split a "*"%char = [a].
Proof.
  induction a as [|c a IH]; intros Hf; [done|].
  cbn [Go.bytes_of list_ascii_of_string] in Hf.
  apply Forall_cons in Hf as [Hc Hf]. cbn [Lib.Split].
  destruct (Ascii.eqb_spec c "*"%char) as [->|_].
  - by apply star_not_field in Hc.
  - by rewrite IH.
Qed.

Lemma Split_field_star (a rest : string) :
  field (Go.bytes_of a) ->
  Lib.Split (a +:+ String "*" rest) "*"%char
  = a :: Lib.Split rest "*"%char.
Proof.
  induction a as [|c a IH]; intros Hf; [done|].
  cbn [Go.bytes_of list_ascii_of_string] in Hf.
  apply Forall_cons in Hf as [Hc Hf].
  change (String c a +:+ String "*" rest)
    with (String c (a +:+ String "*" rest)).
  cbn [Lib.Split].
  destruct (Ascii.eqb_spec c "*"%char) as [->|_].
  - by apply star_not_field in Hc.
  - by rewrite IH.
Qed.

Lemma field_plain (c : Go.byte) : c ∈ "*"%char :: field_bytes -> plain c.
Proof.
  revert c. apply Forall_forall. apply (bool_decide_unpack _). by vm_compute.
Qed.

Lemma skipSpace_plain (c : Go.byte) (l : list Go.byte) :
  plain c -> Lib.skipSpace (c :: l) = Lib.Stop (c :: l).
Proof. intros [H1 H2]. simpl. by rewrite H1, H2. Qed.

Section RoundTrip.

Variable scrypt_Key :
  list Go.byte -> list Go.byte -> Z -> Z -> Z -> Z -> kdf_result.
Variable TrimFunc_IsSpace : list Go.byte -> list Go.byte.
Variable TrimRightFunc_IsSpace : list Go.byte -> list Go.byte.

Local Abbreviation TrimSpace :=
  (Lib.TrimSpace TrimFunc_IsSpace TrimRightFunc_IsSpace).

Lemma TrimSpace_plain (l : list Go.byte) :
  l <> [] -> Forall plain l ->
  TrimSpace (Go.string_of l) = Go.string_of l
  /\ TrimSpace (Go.string_of (l ++ ["010"%char])) = Go.string_of l.
Proof.
  intros Hne Hl.
  assert (Hhead : forall t, Lib.skipSpace (l ++ t) = Lib.Stop (l ++ t)).
  { intros t. destruct l as [|c l]; [done|].
    apply Forall_cons in Hl as [Hc _]. by apply skipSpace_plain. }
  assert (Hlast : Lib.skipSpace (rev l) = Lib.Stop (rev l)).
  { destruct (rev l) as [|c tser] eqn:Hrev.
    - apply (f_equal (@rev _)) in Hrev. rewrite rev_involutive in Hrev. done.
    - apply skipSpace_plain.
      eapply Forall_forall in Hl; [exact Hl|].
      apply list_elem_of_In, in_rev, list_elem_of_In. rewrite Hrev. by left. }
  unfold Lib.TrimSpace. rewrite !bytes_of_string_of. split.
  - specialize (Hhead []). rewrite app_nil_r in Hhead.
    by rewrite Hhead, Hlast, rev_involutive.
  - rewrite Hhead, rev_app_distr. simpl.
    by rewrite Hlast, rev_involutive.
Qed.

Lemma record_text_bytes (N r p keyLen : Z) (salt hashValue : list Go.byte) :
  let l := Go.bytes_of (record_text N r p keyLen salt hashValue) in
  l <> [] /\ Forall plain l.
Proof.
  unfold record_text. rewrite !bytes_of_append. split.
  - intros H. apply app_eq_nil in H as [H _]. by apply Itoa_nonempty in H.
  - assert (forall l, field l -> Forall plain l) as Hfield.
    { intros l Hl. eapply Forall_impl; [exact Hl|].
      intros c Hc. apply field_plain. by right. }
    assert (Forall plain (Go.bytes_of "*")) as Hstar.
    { repeat constructor; apply field_plain; by left. }
    repeat (apply Forall_app; split); try done;
      first [apply Hfield, Itoa_field|apply Hfield, EncodeToString_field].
Qed.

Lemma Split_record_text (N r p keyLen : Z) (salt hashValue : list Go.byte) :
  Lib.Split (record_text N r p keyLen salt hashValue) "*"%char
  = [Lib.Itoa N; Lib.Itoa r; Lib.Itoa p; Lib.Itoa keyLen;
     Lib.EncodeToString salt; Lib.EncodeToString hashValue].
Proof.
  unfold record_text.
  repeat match goal with
  | |- context [("*" +:+ ?s)%string] =>
    change ("*" +:+ s)%string with (String "*" s)
  end.
  rewrite !Split_field_star by
      first [apply Itoa_field|apply EncodeToString_field].
  by rewrite Split_field by apply EncodeToString_field.
Qed.

Lemma parseFile_record (ReadFile : string -> option string)
    (filename content : string) (N r p keyLen : Z)
    (salt hashValue : list Go.byte) :
  int_range N -> int_range r -> int_range p -> int_range keyLen ->
  ReadFile filename = Some content ->
  content = record_text N r p keyLen salt hashValue
  \/ content = record_text N r p keyLen salt hashValue
               +:+ String "010" EmptyString ->
  parseFile TrimFunc_IsSpace TrimRightFunc_IsSpace ReadFile filename
  = inl (ScryptData.mk N r p keyLen salt hashValue).
Proof.
  intros HN Hr Hp Hk Hread Hcontent. unfold parseFile. rewrite Hread.
  destruct (record_text_bytes N r p keyLen salt hashValue) as [Hne Hpl].
  destruct (TrimSpace_plain _ Hne Hpl) as [Ht1 Ht2].
  rewrite string_of_bytes_of in Ht1, Ht2.
  assert (TrimSpace content = record_text N r p keyLen salt hashValue)
    as ->.
  { destruct Hcontent as [-> | ->]; [done|].
    rewrite <- Ht2 at 2. f_equal.
    rewrite <- (string_of_bytes_of (_ +:+ _)). by rewrite bytes_of_append. }
  rewrite Split_record_text, !Atoi_Itoa by done.
  by rewrite !DecodeString_EncodeToString.
Qed.

End RoundTrip.

(** C6: the record written by the generation utility for a password and
    parameters that the key derivation accepts, read back by [parseFile]
    from the output file or from the printed line, gives back exactly
    the parameters, the salt and the digest, and [verifyPassword]
    answers true for the original password on it. *)
Theorem record_round_trip
    (scrypt_Key : list Go.byte -> list Go.byte -> Z -> Z -> Z -> Z -> kdf_result)
    (TrimFunc_IsSpace TrimRightFunc_IsSpace : list Go.byte -> list Go.byte)
    (password output : string) (N r p keyLen : Z)
    (salt hashValue : list Go.byte) :
  password <> EmptyString ->
  int_range N -> int_range r -> int_range p -> int_range keyLen ->
  scrypt_Key (Go.bytes_of password) salt N r p keyLen = KdfOk hashValue ->
  exists record : string,
    record = record_text N r p keyLen salt hashValue
    /\ gen_main scrypt_Key password output N r p keyLen salt
       = (if String.eqb output EmptyString
          then GenPrintln (record +:+ String "010" EmptyString)
          else GenWriteFile output record)
    /\ forall (ReadFile : string -> option string) (filename content : string),
         content = record \/ content = record +:+ String "010" EmptyString ->
         ReadFile filename = Some content ->
         exists data,
           parseFile TrimFunc_IsSpace TrimRightFunc_IsSpace ReadFile filename
           = inl data
           /\ data = ScryptData.mk N r p keyLen salt hashValue
           /\ verifyPassword scrypt_Key password data = Some true.
Proof.
  intros Hpw HN Hr Hp Hk Hkey. eexists. split; [reflexivity|]. split.
  - unfold gen_main, computeScryptHash. rewrite Hkey.
    destruct (String.eqb_spec password EmptyString); [done|].
    by destruct (String.eqb output EmptyString).
  - intros ReadFile filename content Hcontent Hread.
    exists (ScryptData.mk N r p keyLen salt hashValue).
    split; [eapply parseFile_record; eassumption|]. split; [done|].
    unfold verifyPassword. simpl. rewrite Hkey. f_equal.
    by apply bytes_Equal_eq.
Qed.

Lemma record_round_trip_witness :
  gen_main example_Key "42" "hash.txt" 16384 8 1 32 (Go.bytes_of "ab")
  = GenWriteFile "hash.txt" "16384*8*1*32*6162*34326162"
  /\ exists data,
       parseFile (fun s => s) (fun s => s)
                 (fun _ => Some "16384*8*1*32*6162*34326162"%string)
                 "hash.txt" = inl data
       /\ verifyPassword example_Key "42" data = Some true.
Proof.
  assert (H0 : "42"%string <> EmptyString) by done.
  assert (H1 : int_range 16384) by (unfold int_range; lia).
  assert (H2 : int_range 8) by (unfold int_range; lia).
  assert (H3 : int_range 1) by (unfold int_range; lia).
  assert (H4 : int_range 32) by (unfold int_range; lia).
  assert (H5 : example_Key (Go.bytes_of "42") (Go.bytes_of "ab") 16384 8 1 32
               = KdfOk (Go.bytes_of "42ab")) by reflexivity.
  destruct (record_round_trip example_Key (fun s => s) (fun s => s)
              "42" "hash.txt" 16384 8 1 32 (Go.bytes_of "ab")
              (Go.bytes_of "42ab") H0 H1 H2 H3 H4 H5)
    as (record & -> & Hgen & Hparse).
  split; [exact Hgen|].
  destruct (Hparse (fun _ => Some "16384*8*1*32*6162*34326162"%string)
              "hash.txt"%string "16384*8*1*32*6162*34326162"%string
              (or_introl eq_refl) eq_refl) as (data & Hp & _ & Hv).
  by exists data.
Defined.

(** ** The empty mask *)

(** C9: on the empty mask the generator sends one candidate, the empty
    string, and closes; the combination count is 1; and the command line
    never lets this mask reach the search, since an empty mask flag ends
    [main] with the usage text and exit status 1 whatever the other
    arguments are. *)
Theorem empty_mask_edge
    (TrimFunc_IsSpace TrimRightFunc_IsSpace : list Go.byte -> list Go.byte)
    (ReadFile : string -> option string) (args : list string) (fuel : nat) :
  generatePasswords (S fuel) EmptyString = Some (Closed [EmptyString])
  /\ calculateTotalCombinations EmptyString = 1
  /\ main_startup TrimFunc_IsSpace TrimRightFunc_IsSpace ReadFile
       EmptyString args = UsageExit 1.
Proof. done. Qed.

(** * Further properties *)

(** ** The generator on arbitrary masks *)

Lemma odometer_enum_empty (cs : list string) :
  EmptyString ∈ cs -> odometer_enum cs = [].
Proof.
  induction cs as [|c cs IH]; intros Hin; [by apply elem_of_nil in Hin|].
  cbn [odometer_enum]. apply elem_of_cons in Hin as [<-|Hin]; [done|].
  rewrite (IH Hin). by induction (Go.bytes_of c).
Qed.

(** Whatever the fuel, the emitting loop started on a valid index vector
    does not panic: if it ends, it has sent the rest of the enumeration
    and closed. *)
Lemma gen_loop_result (cs : list string) (fuel : nat) :
  forall (ind : list Z) (pw : list Go.byte) (r : gen_result),
    valid_ind cs ind -> length pw = length cs ->
    gen_loop fuel (seq 0 (length cs)) cs ind pw = Some r ->
    r = Closed (drop (rank cs ind) (odometer_enum cs)).
Proof.
  induction fuel as [|fuel IH]; intros ind pw r Hv Hpw Hr; [done|].
  cbn [gen_loop] in Hr.
  pose proof (fillPassword_valid cs ind Hv [] [] [] pw eq_refl eq_refl Hpw)
    as Hfill.
  simpl in Hfill. rewrite Hfill in Hr.
  destruct (advance_valid cs ind Hv) as (ind' & carry & Hadv & Hv' & Hrk).
  rewrite Hadv in Hr.
  pose proof (odometer_enum_lookup cs ind Hv) as Hlk.
  rewrite (drop_S _ _ _ Hlk). destruct carry.
  - destruct Hrk as [_ Hrk]. simplify_eq. rewrite drop_ge; [done|].
    rewrite odometer_enum_length. lia.
  - destruct (gen_loop fuel _ cs ind' _) as [r'|] eqn:Hloop; [|done].
    apply IH in Hloop; [|done|by rewrite candidate_length].
    subst r'. simpl in Hr. simplify_eq. by rewrite Hrk.
Qed.

Lemma generatePasswords_result (mask : string) (fuel : nat) (r : gen_result) :
  generatePasswords fuel mask = Some r ->
  r = Closed (odometer_enum (mask_charsets mask)).
Proof.
  unfold generatePasswords.
  destruct (fillCharsets_mask_cases mask) as [[Hm Hfill]|[Hx [x Hfill]]].
  - rewrite Hfill. destruct (fillCharsets_mask mask Hm) as [_ ->].
    pose proof (mask_charsets_length mask Hm) as Hlen.
    destruct (valid_ind_zero _ (mask_charsets_sizes mask Hm)) as [Hz Hr].
    rewrite <- Hlen. intros Hloop.
    apply gen_loop_result in Hloop; [|done|by rewrite length_replicate].
    by rewrite Hr in Hloop.
  - rewrite Hfill. intros [= <-]. rewrite odometer_enum_empty; [done|].
    apply Exists_exists in Hx as (m & Hin & Hm).
    apply getCharset_empty_iff in Hm. rewrite <- Hm.
    unfold mask_charsets. by apply list_elem_of_fmap_2.
Qed.

Lemma generatePasswords_enough (mask : string) (fuel : nat) :
  SearchSpace mask <= Z.of_nat fuel ->
  generatePasswords fuel mask
  = Some (Closed (odometer_enum (mask_charsets mask))).
Proof.
  intros Hfuel.
  destruct (fillCharsets_mask_cases mask) as [[Hm Hfill]|[Hx [x Hfill]]].
  - apply generatePasswords_valid; [done|].
    rewrite SearchSpace_space in Hfuel. lia.
  - assert (generatePasswords fuel mask = Some (Closed [])) as Hg.
    { unfold generatePasswords. by rewrite Hfill. }
    rewrite Hg. by rewrite (generatePasswords_result _ _ _ Hg).
Qed.

(** X1: on every mask, with table symbols or not, empty or not,
    [generatePasswords] never panics; whatever the fuel, the only result
    it can end with is the closing of the channel after the odometer
    enumeration of the mask's charsets (nothing at all when a symbol is
    unknown), and it does end so as soon as the fuel covers the search
    space. *)
Theorem generatePasswords_never_panics (mask : string) :
  (forall fuel r, generatePasswords fuel mask = Some r ->
     r = Closed (odometer_enum (mask_charsets mask)))
  /\ (forall fuel, SearchSpace mask <= Z.of_nat fuel ->
        generatePasswords fuel mask
        = Some (Closed (odometer_enum (mask_charsets mask))))
  /\ (forall fuel sent, generatePasswords fuel mask <> Some (Panicked sent)).
Proof.
  split; [apply generatePasswords_result|].
  split; [apply generatePasswords_enough|].
  intros fuel sent Hg. by apply generatePasswords_result in Hg.
Qed.

Lemma generatePasswords_never_panics_witness :
  generatePasswords 3 "sd" = None
  /\ generatePasswords 260 "sd"
     = Some (Closed (odometer_enum (mask_charsets "sd")))
  /\ generatePasswords 0 "d?" = Some (Closed []).
Proof.
  destruct (generatePasswords_never_panics "sd") as (_ & H2 & _).
  destruct (generatePasswords_never_panics "d?") as (H1 & _ & _).
  split; [by vm_compute|]. split; [apply H2; by vm_compute|].
  by rewrite (H1 0%nat (Closed []) eq_refl).
Defined.

(** X2: the two computations of the search space agree: whenever the
    generator of a mask ends, the number of candidates it has sent is
    the product of the charset sizes, and whenever that product is below
    2^64 it is the value [calculateTotalCombinations] returns; this
    holds for every mask, also with unknown symbols (both are 0) and for
    the empty mask (both are 1). *)
Theorem generated_count_is_total (mask : string) (fuel : nat)
    (sent : list string) :
  generatePasswords fuel mask = Some (Closed sent) ->
  Z.of_nat (length sent) = SearchSpace mask
  /\ (SearchSpace mask < 2 ^ 64 ->
      Z.of_nat (length sent) = calculateTotalCombinations mask).
Proof.
  intros Hg. apply generatePasswords_result in Hg. simplify_eq.
  rewrite odometer_enum_length, <- SearchSpace_space. split; [done|].
  intros Hsmall. rewrite calculateTotalCombinations_mod, Z.mod_small; [done|].
  rewrite SearchSpace_space in *. lia.
Qed.

Lemma generated_count_is_total_witness :
  exists sent, generatePasswords 300 "sd" = Some (Closed sent)
    /\ Z.of_nat (length sent) = calculateTotalCombinations "sd"
    /\ calculateTotalCombinations "sd" = 260.
Proof.
  assert (Hg : generatePasswords 300 "sd"
               = Some (Closed (odometer_enum (mask_charsets "sd"))))
    by (by vm_compute).
  eexists. split; [exact Hg|].
  destruct (generated_count_is_total "sd" 300 _ Hg) as [_ Hc].
  split; [apply Hc; by vm_compute|by vm_compute].
Defined.

Lemma getCharset_printable (m : Go.rune) :
  Forall printable (Go.bytes_of (getCharset m)).
Proof.
  unfold getCharset, printable.
  case_rune m; apply (bool_decide_unpack _); by vm_compute.
Qed.

Lemma fits_shape (cs : list string) (s : string) :
  fits cs s ->
  String.length s = length cs
  /\ (Forall (fun c => Forall printable (Go.bytes_of c)) cs ->
      Forall printable (Go.bytes_of s)).
Proof.
  unfold fits. rewrite string_length_bytes.
  induction 1 as [|b c bs cs Hb Hrest [IH1 IH2]]; [split; [done|constructor]|].
  split; [simpl; by rewrite IH1|]. intros Hcs.
  apply Forall_cons in Hcs as [Hc Hcs]. constructor; [|by apply IH2].
  eapply Forall_forall in Hc; [exact Hc|done].
Qed.

(** X3: every candidate the generator sends has exactly as many bytes as
    the mask, consists of printable ASCII characters only, and takes
    its i-th byte from the charset of the i-th mask symbol. *)
Theorem candidates_have_mask_shape (mask : string) (fuel : nat)
    (sent : list string) (s : string) :
  generatePasswords fuel mask = Some (Closed sent) ->
  s ∈ sent ->
  String.length s = String.length mask
  /\ Forall printable (Go.bytes_of s)
  /\ fits (mask_charsets mask) s.
Proof.
  intros Hg Hs. apply generatePasswords_result in Hg. simplify_eq.
  apply odometer_enum_fits in Hs.
  destruct (fits_shape _ _ Hs) as [Hlen Hpr].
  assert (Hm : Forall (fun m => m ∈ class_runes) (mask_runes mask)).
  { destruct (fillCharsets_mask_cases mask) as [[Hm _]|[Hx _]]; [done|].
    exfalso. apply odometer_enum_fits in Hs.
    rewrite odometer_enum_empty in Hs; [by apply elem_of_nil in Hs|].
    apply Exists_exists in Hx as (m & Hin & Hm).
    apply getCharset_empty_iff in Hm. rewrite <- Hm.
    unfold mask_charsets. by apply list_elem_of_fmap_2. }
  split; [by rewrite Hlen, mask_charsets_length|]. split; [|done].
  apply Hpr. unfold mask_charsets. apply Forall_fmap, Forall_true.
  intros m. apply getCharset_printable.
Qed.

Lemma candidates_have_mask_shape_witness :
  String.length "!7" = String.length "sd"
  /\ Forall printable (Go.bytes_of "!7")
  /\ fits (mask_charsets "sd") "!7".
Proof.
  assert (Hg : generatePasswords 300 "sd"
               = Some (Closed (odometer_enum (mask_charsets "sd"))))
    by (by vm_compute).
  assert (Hs : "!7"%string ∈ odometer_enum (mask_charsets "sd")).
  { apply (bool_decide_unpack _). by vm_compute. }
  exact (candidates_have_mask_shape "sd" 300 _ "!7" Hg Hs).
Defined.

(** ** The combination count of a concatenated mask *)

Lemma range_bytes_runes_offset (bs : list Z) (skip off off' : nat) :
  (Go.range_bytes skip off bs).*2 = (Go.range_bytes skip off' bs).*2.
Proof.
  revert skip off off'. induction bs as [|b bs IH]; intros skip off off'; [done|].
  cbn [Go.range_bytes]. destruct skip as [|k]; [|apply IH].
  destruct (Go.decodeRune (b :: bs)) as [r w]. rewrite !fmap_cons.
  f_equal. apply IH.
Qed.

Lemma range_bytes_app_ascii (l1 l2 : list Z) (off : nat) :
  Forall (fun b => b < 128) l1 ->
  Go.range_bytes 0 off (l1 ++ l2)
  = Go.range_bytes 0 off l1 ++ Go.range_bytes 0 (off + length l1) l2.
Proof.
  revert off. induction l1 as [|b l1 IH]; intros off Hl1.
  - simpl. by rewrite Nat.add_0_r.
  - apply Forall_cons in Hl1 as [Hb Hl1].
    rewrite <- app_comm_cons. cbn [Go.range_bytes].
    rewrite !decodeRune_ascii by done. simpl.
    rewrite IH by done. do 3 f_equal. lia.
Qed.

Lemma mask_runes_append (m1 m2 : string) :
  Forall (fun c => Go.byteZ c < 128) (Go.bytes_of m1) ->
  mask_runes (m1 +:+ m2) = mask_runes m1 ++ mask_runes m2.
Proof.
  intros H1. unfold mask_runes, Go.range.
  rewrite bytes_of_append, map_app, range_bytes_app_ascii
    by (by apply Forall_fmap).
  rewrite fmap_app. f_equal. apply range_bytes_runes_offset.
Qed.

Lemma product_app (cs1 cs2 : list string) :
  product (cs1 ++ cs2) = product cs1 * product cs2.
Proof.
  induction cs1 as [|c cs1 IH]; simpl; [lia|]. rewrite IH. lia.
Qed.

(** X4: the combination count is multiplicative modulo 2^64: for a mask
    made of an ASCII part followed by any other part it is the product of
    the counts of the two parts, reduced modulo 2^64; in particular one
    unknown symbol anywhere makes the whole count 0.  The count always
    lies in the range of [uint64]. *)
Theorem calculateTotalCombinations_concat (m1 m2 : string) :
  Forall (fun c => Go.byteZ c < 128) (Go.bytes_of m1) ->
  calculateTotalCombinations (m1 +:+ m2)
  = (calculateTotalCombinations m1 * calculateTotalCombinations m2)
    mod 2 ^ 64
  /\ 0 <= calculateTotalCombinations (m1 +:+ m2) < 2 ^ 64.
Proof.
  intros H1. rewrite !calculateTotalCombinations_mod.
  rewrite <- Z.mul_mod by lia. split; [|apply Z.mod_pos_bound; lia].
  f_equal. unfold SearchSpace, mask_charsets.
  by rewrite mask_runes_append, fmap_app, product_app.
Qed.

Lemma calculateTotalCombinations_concat_witness :
  calculateTotalCombinations ("ad" +:+ "su")
  = (calculateTotalCombinations "ad" * calculateTotalCombinations "su")
    mod 2 ^ 64
  /\ calculateTotalCombinations ("ad" +:+ "su") = 419120.
Proof.
  assert (H : Forall (fun c => Go.byteZ c < 128) (Go.bytes_of "ad")).
  { apply (bool_decide_unpack _). by vm_compute. }
  destruct (calculateTotalCombinations_concat "ad" "su" H) as [Hc _].
  split; [exact Hc|by vm_compute].
Defined.

(** ** The charset table *)

(** X5: the charset of every symbol is free of duplicates and made of
    printable ASCII characters; it is empty exactly for the symbols
    outside a, d, l, u, s; the charset of [a] is the one of [l] followed
    by the one of [u] and the one of [d]; and the charset of [s] shares
    no character with it. *)
Theorem getCharset_table (m : Go.rune) :
  NoDup (Go.bytes_of (getCharset m))
  /\ Forall printable (Go.bytes_of (getCharset m))
  /\ (getCharset m = EmptyString <-> m ∉ class_runes)
  /\ getCharset 97 = getCharset 108 +:+ getCharset 117 +:+ getCharset 100
  /\ (forall b, b ∈ Go.bytes_of (getCharset 115) ->
        b ∉ Go.bytes_of (getCharset 97))
  /\ Go.len ∘ getCharset <$> class_runes = [62; 10; 26; 26; 26].
Proof.
  split; [apply getCharset_NoDup|]. split; [apply getCharset_printable|].
  split; [apply getCharset_empty_iff|]. split; [done|]. split; [|done].
  apply Forall_forall, (bool_decide_unpack _). by vm_compute.
Qed.

(** ** The concurrent search: reports *)

Section SearchReports.

Variable scrypt_Key :
  list Go.byte -> list Go.byte -> Z -> Z -> Z -> Z -> kdf_result.
Variable mask : string.
Variable data : ScryptData.t.
Variable numWorkers : nat.

Local Abbreviation exec := (exec scrypt_Key mask data).
Local Abbreviation step := (step scrypt_Key mask data).
Local Abbreviation run := (run scrypt_Key mask data).
Local Abbreviation reachable := (reachable scrypt_Key mask data numWorkers).
Local Abbreviation init := (init numWorkers).
Local Abbreviation count_inv := (count_inv mask).
Local Abbreviation proto_inv := (proto_inv numWorkers).
Local Abbreviation measure := (measure mask).
Local Abbreviation sound_inv := (sound_inv scrypt_Key mask data).
Local Abbreviation panic_inv := (panic_inv scrypt_Key mask data).
Local Abbreviation signal_inv := (signal_inv mask).
Local Abbreviation verified := (verified scrypt_Key mask data).
Local Abbreviation candidates := (odometer_enum (mask_charsets mask)).

Lemma run_nsteps (sched : list thread) (s s' : state) :
  run sched s = Some s' -> nsteps step (length sched) s s'.
Proof.
  revert s. induction sched as [|t sched IH]; intros s Hrun.
  - simplify_eq/=. constructor.
  - simpl in Hrun. destruct (exec t s) as [s1|] eqn:Hex; [|done].
    eapply nsteps_l; [by exists t|]. by apply IH.
Qed.

Lemma sound_inv_init : sound_inv init.
Proof.
  split; [constructor|]. split; [by apply Forall_replicate|].
  split; [constructor|done].
Qed.

Lemma sound_inv_step (t : thread) (s s' : state) :
  count_inv s -> sound_inv s -> exec t s = Some s' -> sound_inv s'.
Proof.
  intros (Hg & _) (Hq & Hws & Hr & Hm) Hex. unfold sound_inv.
  unfold exec in Hex. destruct (alive s); [|done]. destruct t.
  - unfold gen_step in Hex. destruct s as [g q c ws f n r w d m].
    simpl in *. destruct g as [|cs ind pw| | | |]; simplify_eq/=; try done.
    destruct (gen_step_loop _ _ _ _ Hg) as
        (ind' & carry & Hfill & Hadv & Hv' & Hlen & Hrk).
    rewrite Hfill, Hadv in Hex. destruct (_ <? _); simplify_eq/=.
    destruct Hg as (Hmk & -> & Hv & Hpw).
    split; [|done]. apply Forall_app. split; [done|].
    apply Forall_singleton. eapply list_elem_of_lookup_2.
    by apply odometer_enum_lookup.
  - destruct (workers s !! i) as [w|] eqn:Hi; [|done].
    pose proof (Forall_lookup_1 _ _ _ _ Hws Hi) as Hw.
    unfold worker_step in Hex. clear Hg.
    destruct s as [g q c ws f n r wg0 d m]. simpl in *.
    destruct w as [|pw| |pw|pw|pw|pw| |]; simpl in Hw.
    + destruct q as [|pw rest]; [destruct c; simplify_eq/=|simplify_eq/=].
      * repeat split; try done. by apply Forall_insert.
      * apply Forall_cons in Hq as [Hpw Hq].
        repeat split; try done. by apply Forall_insert.
    + simplify_eq/=. repeat split; try done.
      apply Forall_insert; [done|]. by destruct f.
    + destruct q as [|pw rest]; [destruct c; simplify_eq/=|simplify_eq/=].
      * repeat split; try done. by apply Forall_insert.
      * apply Forall_cons in Hq as [Hpw Hq].
        repeat split; try done. by apply Forall_insert.
    + simplify_eq/=. repeat split; try done. by apply Forall_insert.
    + simplify_eq/=. repeat split; try done.
      apply Forall_insert; [done|].
      by destruct (verifyPassword scrypt_Key pw data) as [[|]|] eqn:Hv.
    + destruct f; simplify_eq/=.
      * repeat split; try done. by apply Forall_insert.
      * repeat split; try done. by apply Forall_insert.
    + destruct (_ <? _); simplify_eq/=. split; [done|].
      split; [by apply Forall_insert|]. split; [|done].
      apply Forall_app. split; [done|]. by apply Forall_singleton.
    + done.
    + done.
  - unfold waiter_step in Hex. destruct s. simpl in *.
    repeat case_match; simplify_eq/=; done.
  - destruct s. simpl in *. repeat case_match; simplify_eq/=.
    apply Forall_cons in Hr as [Hp Hr]. done.
  - destruct s. simpl in *. repeat case_match; simplify_eq/=; done.
  - destruct s. simpl in *. repeat case_match; simplify_eq/=; done.
  - destruct s. simpl in *. repeat case_match; simplify_eq/=; done.
Qed.

Lemma sound_inv_reachable (s : state) : reachable s -> sound_inv s.
Proof.
  intros Hs.
  cut (count_inv s /\ sound_inv s); [by intros []|].
  revert s Hs. apply reachable_ind.
  - split; [apply count_inv_init|apply sound_inv_init].
  - intros t s s' [Hc Hn] Hex. split; [by eapply count_inv_step|].
    by eapply sound_inv_step.
Qed.

Lemma counted_inv_init : counted_inv init.
Proof.
  intros _. split; [|done]. apply Forall_replicate. by intros [].
Qed.

Lemma held_lookup (ws : list worker_state) (i : nat) (w : worker_state) :
  ws !! i = Some w -> holding w <= held ws.
Proof.
  revert i. induction ws as [|x ws IH]; intros [|i] Hi; simplify_eq/=.
  - pose proof (held_nonneg ws). lia.
  - specialize (IH i Hi). destruct x; simpl; lia.
Qed.

Lemma counted_inv_step (t : thread) (s s' : state) :
  SearchSpace mask < 2 ^ 64 ->
  count_inv s -> counted_inv s -> exec t s = Some s' -> counted_inv s'.
Proof.
  intros Hsmall (_ & Ht0 & Hsum & Hle) Hc Hex H0.
  unfold exec in Hex. destruct (alive s); [|done]. destruct t.
  - unfold gen_step in Hex. destruct s as [g q c ws f n r w d m].
    simpl in *. destruct g; repeat case_match; simplify_eq/=; by apply Hc.
  - destruct (workers s !! i) as [w|] eqn:Hi; [|done].
    pose proof (held_lookup _ _ _ Hi) as Hheld.
    pose proof (Nat2Z.is_nonneg (length (passwords s))) as Hlen.
    unfold worker_step in Hex.
    destruct s as [g q c ws f n r wg0 d m]. simpl in *.
    destruct w as [|pw| |pw|pw|pw|pw| |]; simpl in Hheld.
    + destruct q as [|pw rest]; [destruct c; simplify_eq/=|simplify_eq/=];
        destruct (Hc eq_refl) as (Hws & Hr & Hm);
        (split; [apply Forall_insert; [done|by intros []]|done]).
    + simplify_eq/=. destruct (Hc eq_refl) as (Hws & Hr & Hm).
      split; [|done]. apply Forall_insert; [done|]. by destruct f; intros [].
    + destruct q as [|pw rest]; [destruct c; simplify_eq/=|simplify_eq/=];
        destruct (Hc eq_refl) as (Hws & Hr & Hm);
        (split; [apply Forall_insert; [done|by intros []]|done]).
    + simplify_eq/=. exfalso. unfold Go.wrap_uint64 in H0.
      rewrite Z.mod_small in H0; lia.
    + simplify_eq/=. destruct (Hc eq_refl) as (Hws & _).
      by destruct (Forall_lookup_1 _ _ _ _ Hws Hi).
    + destruct f; simplify_eq/=; destruct (Hc eq_refl) as (Hws & _);
        by destruct (Forall_lookup_1 _ _ _ _ Hws Hi).
    + destruct (_ <? _); simplify_eq/=. destruct (Hc eq_refl) as (Hws & _).
      by destruct (Forall_lookup_1 _ _ _ _ Hws Hi).
    + done.
    + done.
  - unfold waiter_step in Hex. destruct s. simpl in *.
    repeat case_match; simplify_eq/=; by apply Hc.
  - destruct s. simpl in *. repeat case_match; simplify_eq/=.
    by destruct (Hc eq_refl) as (_ & ? & _).
  - destruct s. simpl in *. repeat case_match; simplify_eq/=; by apply Hc.
  - destruct s. simpl in *. repeat case_match; simplify_eq/=.
    + by destruct (Hc eq_refl) as (_ & _ & ?).
    + by destruct (Hc eq_refl) as (? & ? & _).
  - destruct s. simpl in *. repeat case_match; simplify_eq/=.
    destruct (Hc eq_refl) as (Hws & Hr & Hm).
    split; [done|]. split; [done|].
    match goal with r : report |- _ => by destruct r end.
Qed.

Lemma counted_inv_reachable (s : state) :
  SearchSpace mask < 2 ^ 64 -> reachable s -> counted_inv s.
Proof.
  intros Hsmall Hs.
  cut (count_inv s /\ counted_inv s); [by intros []|].
  revert s Hs. apply reachable_ind.
  - split; [apply count_inv_init|apply counted_inv_init].
  - intros t s s' [Hc Hn] Hex. split; [by eapply count_inv_step|].
    by eapply counted_inv_step.
Qed.

Lemma signal_inv_init : signal_inv init.
Proof. split; [by intros []|by intros]. Qed.

Lemma reported_step (t : thread) (s s' : state) (r : report) :
  exec t s = Some s' -> reported (main s') = Some r ->
  reported (main s) = Some r \/ attempts r = tried s.
Proof.
  intros Hex. unfold exec in Hex. destruct (alive s); [|done].
  destruct t.
  - unfold gen_step in Hex. destruct s as [g q c ws f n r0 w d m].
    simpl in *. destruct g; repeat case_match; simplify_eq/=; by left.
  - destruct (workers s !! i) as [w|] eqn:Hi; [|done].
    unfold worker_step in Hex.
    destruct s as [g q c ws f n r0 wg0 d m]. simpl in *.
    destruct w; repeat case_match; simplify_eq/=; by left.
  - unfold waiter_step in Hex. destruct s. simpl in *.
    repeat case_match; simplify_eq/=; by left.
  - destruct s. simpl in *. repeat case_match; simplify_eq/=; done.
  - destruct s. simpl in *. repeat case_match; simplify_eq/=; done.
  - destruct s. simpl in *. repeat case_match; simplify_eq/=;
      intros [= <-]; by right.
  - destruct s. simpl in *. repeat case_match; simplify_eq/=; by left.
Qed.

Lemma signal_inv_step (t : thread) (s s' : state) :
  count_inv s -> proto_inv s -> signal_inv s -> exec t s = Some s' ->
  signal_inv s'.
Proof.
  intros (_ & Ht0 & Hsum & Hle) (_ & Hwg & _) [Hw Hr] Hex.
  pose proof (held_nonneg (workers s)) as Hheld.
  pose proof (Nat2Z.is_nonneg (length (passwords s))) as Hlen.
  split.
  - clear Hr Ht0 Hsum Hle Hheld Hlen.
    unfold exec in Hex. destruct (alive s); [|done]. destruct t.
    + unfold gen_step in Hex. destruct s as [g q c ws f n r w d m].
      simpl in *. destruct g; repeat case_match; simplify_eq/=; done.
    + destruct (workers s !! i) as [w|] eqn:Hi; [|done].
      unfold worker_step in Hex. clear Hwg.
      destruct s as [g q c ws f n r wg0 d m]. simpl in *.
      destruct w; repeat case_match; simplify_eq/=; done.
    + unfold waiter_step in Hex. destruct s. simpl in *.
      repeat case_match; simplify_eq/=.
      all: intros _; try lia; by apply Hw.
    + destruct s. simpl in *. repeat case_match; simplify_eq/=; done.
    + destruct s. simpl in *. repeat case_match; simplify_eq/=.
      all: intros _; by apply Hw.
    + destruct s. simpl in *. repeat case_match; simplify_eq/=; done.
    + destruct s. simpl in *. repeat case_match; simplify_eq/=; done.
  - intros r Hr'.
    destruct (reported_step _ _ _ _ Hex Hr') as [Hold|Hnew];
      [by apply Hr|]. rewrite Hnew. lia.
Qed.

Lemma signal_inv_reachable (s : state) : reachable s -> signal_inv s.
Proof.
  intros Hs.
  cut (count_inv s /\ proto_inv s /\ signal_inv s);
    [by intros (_ & _ & ?)|].
  revert s Hs. apply reachable_ind.
  - split; [apply count_inv_init|].
    split; [apply proto_inv_init|apply signal_inv_init].
  - intros t s s' (Hc & Hp & Hn) Hex. split; [by eapply count_inv_step|].
    split; [by eapply proto_inv_step|]. by eapply signal_inv_step.
Qed.

Lemma report_inv_init : report_inv init.
Proof. by intros r. Qed.

Lemma tried_step (t : thread) (s s' : state) :
  SearchSpace mask < 2 ^ 64 -> count_inv s -> exec t s = Some s' ->
  tried s <= tried s'.
Proof.
  intros Hsmall (_ & Ht0 & Hsum & Hle) Hex.
  unfold exec in Hex. destruct (alive s); [|done]. destruct t.
  - unfold gen_step in Hex. destruct s as [g q c ws f n r w d m].
    simpl in *. destruct g; repeat case_match; simplify_eq/=; lia.
  - destruct (workers s !! i) as [w|] eqn:Hi; [|done].
    pose proof (held_lookup _ _ _ Hi) as Hheld.
    pose proof (Nat2Z.is_nonneg (length (passwords s))) as Hlen.
    unfold worker_step in Hex.
    destruct s as [g q c ws f n r wg0 d m]. simpl in *.
    destruct w; repeat case_match; simplify_eq/=; try lia.
    simpl in Hheld. unfold Go.wrap_uint64. rewrite Z.mod_small; lia.
  - unfold waiter_step in Hex. destruct s. simpl in *.
    repeat case_match; simplify_eq/=; lia.
  - destruct s. simpl in *. repeat case_match; simplify_eq/=; lia.
  - destruct s. simpl in *. repeat case_match; simplify_eq/=; lia.
  - destruct s. simpl in *. repeat case_match; simplify_eq/=; lia.
  - destruct s. simpl in *. repeat case_match; simplify_eq/=; lia.
Qed.

Lemma main_took_step (t : thread) (s s' : state) (r : report) :
  exec t s = Some s' -> reported (main s') = Some r ->
  main_took (main s') = main_took (main s).
Proof.
  intros Hex. unfold exec in Hex. destruct (alive s); [|done].
  destruct t.
  - unfold gen_step in Hex. destruct s as [g q c ws f n r0 w d m].
    simpl in *. destruct g; repeat case_match; simplify_eq/=; done.
  - destruct (workers s !! i) as [w|] eqn:Hi; [|done].
    unfold worker_step in Hex.
    destruct s as [g q c ws f n r0 wg0 d m]. simpl in *.
    destruct w; repeat case_match; simplify_eq/=; done.
  - unfold waiter_step in Hex. destruct s. simpl in *.
    repeat case_match; simplify_eq/=; done.
  - destruct s. simpl in *. repeat case_match; simplify_eq/=; done.
  - destruct s. simpl in *. repeat case_match; simplify_eq/=; done.
  - destruct s. simpl in *. repeat case_match; simplify_eq/=; done.
  - destruct s. simpl in *. repeat case_match; simplify_eq/=; done.
Qed.

Lemma report_inv_step (t : thread) (s s' : state) :
  SearchSpace mask < 2 ^ 64 ->
  count_inv s -> counted_inv s -> report_inv s -> exec t s = Some s' ->
  report_inv s'.
Proof.
  intros Hsmall Hc Hcnt Hr Hex r Hr'.
  pose proof (tried_step _ _ _ Hsmall Hc Hex) as Hmono.
  rewrite (main_took_step _ _ _ _ Hex Hr').
  destruct Hc as (_ & Ht0 & _).
  destruct (reported_step _ _ _ _ Hex Hr') as [Hold|Hnew].
  - destruct (Hr r Hold) as [Hb H1]. split; [lia|done].
  - rewrite Hnew. split; [lia|]. intros Hmt.
    destruct (decide (tried s = 0)) as [Hz|Hz]; [|lia].
    destruct (Hcnt Hz) as (_ & _ & Hm). lia.
Qed.

Lemma report_inv_reachable (s : state) :
  SearchSpace mask < 2 ^ 64 -> reachable s -> report_inv s.
Proof.
  intros Hsmall Hs.
  cut (count_inv s /\ counted_inv s /\ report_inv s);
    [by intros (_ & _ & ?)|].
  revert s Hs. apply reachable_ind.
  - split; [apply count_inv_init|].
    split; [apply counted_inv_init|apply report_inv_init].
  - intros t s s' (Hc & Hn & Hr) Hex. split; [by eapply count_inv_step|].
    split; [by eapply counted_inv_step|]. by eapply report_inv_step.
Qed.

(** *** Crashes *)

Lemma panicked_insert (ws : list worker_state) (i : nat)
    (w' : worker_state) :
  existsb panicked ws = false ->
  existsb panicked (<[i := w']> ws) = true -> w' = WPanic.
Proof.
  revert i. induction ws as [|w ws IH]; intros i Hws; [done|].
  simpl in Hws. apply orb_false_iff in Hws as [Hw Hws].
  destruct i as [|i]; simpl; rewrite ?Hw, ?Hws, ?orb_false_r; simpl.
  - by destruct w'.
  - by apply IH.
Qed.

Lemma alive_not_crashed (s : state) : alive s = true -> crashed s = false.
Proof.
  unfold alive. destruct (main s); [..|done]; by destruct (crashed s).
Qed.

Lemma panic_inv_step (t : thread) (s s' : state) :
  count_inv s -> sound_inv s -> exec t s = Some s' -> panic_inv s'.
Proof.
  intros Hc (_ & Hws & _) Hex Hcr.
  destruct (count_inv_step _ _ _ _ _ _ Hc Hex) as (Hg' & _).
  unfold exec in Hex. destruct (alive s) eqn:Ha; [|done].
  apply alive_not_crashed in Ha.
  unfold crashed in Ha, Hcr.
  assert (Hex0 : existsb panicked (workers s) = false)
    by (by destruct (gen s)).
  assert (Hex1 : existsb panicked (workers s') = true)
    by (by destruct (gen s')).
  clear Ha Hcr Hc Hg'. destruct t.
  - unfold gen_step in Hex. destruct s as [g q c ws f n r w d m].
    simpl in *. destruct g; repeat case_match; simplify_eq/=; congruence.
  - destruct (workers s !! i) as [w|] eqn:Hi; [|done].
    pose proof (Forall_lookup_1 _ _ _ _ Hws Hi) as Hw.
    unfold worker_step in Hex.
    destruct s as [g q c ws f n r wg0 d m]. simpl in *.
    destruct w; repeat case_match; simplify_eq/=;
      try (by apply panicked_insert in Hex1).
    by eexists.
  - unfold waiter_step in Hex. destruct s. simpl in *.
    repeat case_match; simplify_eq/=; congruence.
  - destruct s. simpl in *. repeat case_match; simplify_eq/=; congruence.
  - destruct s. simpl in *. repeat case_match; simplify_eq/=; congruence.
  - destruct s. simpl in *. repeat case_match; simplify_eq/=; congruence.
  - destruct s. simpl in *. repeat case_match; simplify_eq/=; congruence.
Qed.

Lemma panic_inv_reachable (s : state) : reachable s -> panic_inv s.
Proof.
  intros Hs.
  cut (count_inv s /\ sound_inv s /\ panic_inv s);
    [by intros (_ & _ & ?)|].
  revert s Hs. apply reachable_ind.
  - split; [apply count_inv_init|]. split; [apply sound_inv_init|].
    intros Hcr. unfold crashed in Hcr. simpl in Hcr. exfalso.
    clear -Hcr. induction numWorkers as [|k IH]; simpl in Hcr; auto.
    by discriminate.
  - intros t s s' (Hc & Hn & _) Hex. split; [by eapply count_inv_step|].
    split; [by eapply sound_inv_step|]. by eapply panic_inv_step.
Qed.

Lemma deliveries_step (t : thread) (s s' : state) :
  exec t s = Some s' -> deliveries s <= deliveries s'.
Proof.
  intros Hex. unfold exec in Hex. destruct (alive s); [|done].
  unfold deliveries. destruct t.
  - unfold gen_step in Hex. destruct s. simpl in *.
    repeat case_match; simplify_eq/=; lia.
  - destruct (workers s !! i) as [w|]; [|done].
    unfold worker_step in Hex. destruct s. simpl in *.
    destruct w; repeat case_match; simplify_eq/=;
      rewrite ?length_app; simpl; lia.
  - unfold waiter_step in Hex. destruct s. simpl in *.
    repeat case_match; simplify_eq/=; lia.
  - destruct s. simpl in *. repeat case_match; simplify_eq/=; lia.
  - destruct s. simpl in *. repeat case_match; simplify_eq/=; lia.
  - destruct s. simpl in *. repeat case_match; simplify_eq/=; lia.
  - destruct s. simpl in *. repeat case_match; simplify_eq/=; lia.
Qed.

(** X6: a found report is never wrong.  In every run, when main returns
    with a found report, the password it prints is a candidate of the
    mask that verifies against the record, the flag is set, and the
    attempt count printed, which main read from the counter before it
    returned, lies between 0 and the product of the charset sizes; when
    that product is below 2^64 the count is at least 1, the counter has
    not gone below it since (workers may have counted on in between),
    and the counter is at most the computed total. *)
Theorem found_report_sound (s : state) (pwd : string) (n : Z) :
  reachable s -> main s = MReturned (Found pwd n) ->
  pwd ∈ candidates
  /\ verifyPassword scrypt_Key pwd data = Some true
  /\ found s = true
  /\ 0 <= n <= SearchSpace mask
  /\ (SearchSpace mask < 2 ^ 64 ->
      1 <= n <= tried s /\ tried s <= calculateTotalCombinations mask).
Proof.
  intros Hs Hm.
  destruct (sound_inv_reachable _ Hs) as (_ & _ & _ & Hmain).
  rewrite Hm in Hmain. destruct Hmain as [Hc Hv].
  destruct (proto_inv_reachable _ _ _ _ _ Hs) as (_ & _ & _ & _ & Hdel & _).
  destruct (signal_inv_reachable _ Hs) as [_ Hrep].
  specialize (Hrep (Found pwd n)). rewrite Hm in Hrep.
  specialize (Hrep eq_refl). simpl in Hrep.
  destruct (count_inv_reachable _ _ _ _ _ Hs) as (_ & Ht & Hsum & Hle).
  pose proof (held_nonneg (workers s)).
  pose proof (sending_nonneg (workers s)).
  unfold deliveries in Hdel. rewrite Hm in Hdel. simpl in Hdel.
  split; [done|]. split; [done|].
  split; [destruct (found s); [done|lia]|]. split; [done|].
  intros Hsmall.
  rewrite calculateTotalCombinations_mod, Z.mod_small by lia.
  pose proof (report_inv_reachable _ Hsmall Hs (Found pwd n)) as Hr.
  rewrite Hm in Hr. destruct (Hr eq_refl) as [Hb H1]. simpl in Hb, H1.
  specialize (H1 eq_refl). lia.
Qed.

(** X7: on the result channel at most one candidate is ever delivered.
    Along every run the number of deliveries never decreases and never
    exceeds 1, a delivery happens only under the flag, and the flag,
    once set, stays set. *)
Theorem result_delivered_at_most_once (s s' : state) :
  reachable s -> rtc step s s' ->
  0 <= deliveries s <= deliveries s' /\ deliveries s' <= 1
  /\ (deliveries s' = 1 -> found s' = true)
  /\ (found s = true -> found s' = true).
Proof.
  intros Hs Hss'.
  assert (Hs' : reachable s')
    by (eapply rtc_trans; [exact Hs|exact Hss']).
  destruct (deliveries_at_most_one _ _ _ _ _ Hs) as [[H0 _] _].
  destruct (deliveries_at_most_one _ _ _ _ _ Hs') as [[_ H1] Hf].
  split; [split; [done|]|].
  - clear Hs Hs' H0 H1 Hf. induction Hss' as [|s1 s2 s3 [t Ht] _ IH]; [lia|].
    pose proof (deliveries_step _ _ _ Ht). lia.
  - split; [done|]. split; [done|].
    exact (found_stable scrypt_Key mask data s s' Hss').
Qed.

(** X8: the search always stops: no run has more than
    8 * SearchSpace + numWorkers + 29 steps of its goroutines. *)
Theorem search_run_bounded (n : nat) (s : state) :
  nsteps step n init s ->
  Z.of_nat n <= 8 * SearchSpace mask + Z.of_nat numWorkers + 29.
Proof.
  intros Hn.
  pose proof (run_length_bounded scrypt_Key mask data numWorkers n _ _
                (rtc_refl _ _) Hn) as Hb.
  unfold measure in Hb. simpl in Hb.
  assert (workers_weight (replicate numWorkers WRange) = numWorkers) as Hw.
  { clear. induction numWorkers as [|k IH]; simpl; [done|]. by rewrite IH. }
  rewrite Hw in Hb. rewrite SearchSpace_space. lia.
Qed.

Lemma end_reachable_aux (k : nat) :
  (1 <= numWorkers)%nat ->
  forall s, (measure s <= k)%nat -> reachable s ->
    exists s', rtc step s s' /\ alive s' = false.
Proof.
  intros Hnw. induction k as [|k IH]; intros s Hk Hs.
  - destruct (alive s) eqn:Ha; [|by exists s].
    destruct (progress _ _ _ _ _ Hnw Hs Ha) as (t & s1 & Ht).
    pose proof (measure_step _ _ _ _ _ _
                  (count_inv_reachable _ _ _ _ _ Hs) Ht). lia.
  - destruct (alive s) eqn:Ha; [|by exists s].
    destruct (progress _ _ _ _ _ Hnw Hs Ha) as (t & s1 & Ht).
    pose proof (measure_step _ _ _ _ _ _
                  (count_inv_reachable _ _ _ _ _ Hs) Ht).
    destruct (IH s1) as (s' & Hrt & Hr); [lia| |].
    + eapply rtc_r; [exact Hs|by exists t].
    + exists s'. split; [|done]. eapply rtc_l; [by exists t|done].
Qed.

Lemma no_panic_no_crash (s : state) :
  (forall c, c ∈ candidates -> verifyPassword scrypt_Key c data <> None) ->
  reachable s -> crashed s = false.
Proof.
  intros Hnp Hs. destruct (crashed s) eqn:Hcr; [|done].
  destruct (panic_inv_reachable _ Hs Hcr) as (pw & Hpw & Hv).
  by destruct (Hnp pw Hpw).
Qed.

(** X9: the search never deadlocks.  With at least one worker, in every
    reachable state in which main has not returned and no goroutine has
    panicked some goroutine can move; from every reachable state the end
    of the program can be reached, which is the return of main with a
    report or a crash; a crash happens only by a panic of the key
    derivation on a candidate of the mask; and when the derivation
    panics on no candidate, no reachable state is crashed and the return
    of main with a report can be reached from every one. *)
Theorem search_never_deadlocks (s : state) :
  (1 <= numWorkers)%nat -> reachable s ->
  ((forall r, main s <> MReturned r) -> crashed s = false ->
   exists t s', exec t s = Some s')
  /\ (exists s', rtc step s s'
        /\ ((exists r, main s' = MReturned r) \/ crashed s' = true))
  /\ (crashed s = true ->
      exists c, c ∈ candidates /\ verifyPassword scrypt_Key c data = None)
  /\ ((forall c, c ∈ candidates ->
         verifyPassword scrypt_Key c data <> None) ->
      crashed s = false
      /\ exists s' r, rtc step s s' /\ main s' = MReturned r).
Proof.
  intros Hnw Hs.
  destruct (end_reachable_aux (measure s) Hnw s (Nat.le_refl _) Hs)
    as (s' & Hrt & Ha').
  assert (Hs' : reachable s') by (eapply rtc_trans; [exact Hs|exact Hrt]).
  split; [|split; [|split]].
  - intros Hnr Hcr.
    apply (progress scrypt_Key mask data numWorkers); [done..|].
    unfold alive. rewrite Hcr.
    destruct (main s) as [| | | |r] eqn:Hm; [done..|]. by destruct (Hnr r).
  - exists s'. split; [done|]. by apply not_alive.
  - apply (panic_inv_reachable _ Hs).
  - intros Hnp. split; [by apply no_panic_no_crash|].
    destruct (not_alive _ Ha') as [[r Hr]|Hcr]; [by exists s', r|].
    by rewrite (no_panic_no_crash s' Hnp Hs') in Hcr.
Qed.

(** X10: what a not-found report means.  When main returns with a
    not-found report, the generator has sent every candidate, closed the
    channel and returned; the attempt count printed, which main read
    from the counter before it returned, lies between 0 and the product
    of the charset sizes, and when that product is below 2^64 the
    counter has not gone below it since; and if the flag is unset the
    counter is the number of candidates minus those still queued and
    those a worker has received and not yet counted (modulo 2^64). *)
Theorem not_found_report_meaning (s : state) (n : Z) :
  reachable s -> main s = MReturned (NotFound n) ->
  gen s = GDone /\ passwords_closed s = true
  /\ 0 <= n <= SearchSpace mask
  /\ (SearchSpace mask < 2 ^ 64 -> n <= tried s)
  /\ (found s = false ->
      tried s = (SearchSpace mask - Z.of_nat (length (passwords s))
                 - held (workers s)) mod 2 ^ 64).
Proof.
  intros Hs Hm.
  destruct (proto_inv_reachable _ _ _ _ _ Hs) as (_ & Hwg & Hcl & Hwm & _).
  destruct (signal_inv_reachable _ Hs) as [Hw Hrep].
  specialize (Hrep (NotFound n)). rewrite Hm in Hrep.
  specialize (Hrep eq_refl). simpl in Hrep.
  rewrite Hm in Hwm. simpl in Hwm.
  assert (Hd : waiter s <> DWait) by (by destruct (waiter s)).
  specialize (Hw Hd). rewrite Hw in Hwg.
  assert (Hg : gen s = GDone) by (by destruct (gen s)).
  rewrite Hg in Hcl. split; [done|]. split; [done|]. split; [done|].
  split.
  - intros Hsmall.
    pose proof (report_inv_reachable _ Hsmall Hs (NotFound n)) as Hr.
    rewrite Hm in Hr. destruct (Hr eq_refl) as [Hb _]. simpl in Hb. lia.
  - intros Hf. destruct (flow_inv_reachable _ _ _ _ _ Hs Hf) as (Ht & _).
    rewrite Hg in Ht. simpl in Ht. done.
Qed.

(** X11: the outcome of a search that ran to completion.  With at least
    one worker, once every worker has returned: if no candidate
    verifies, the flag is unset, nothing was delivered and the counter
    is the computed search space; if some candidate verifies, the flag
    is set and exactly one candidate was delivered. *)
Theorem completed_search_outcome (s : state) :
  (1 <= numWorkers)%nat -> reachable s ->
  Forall (fun w => w = WReturn) (workers s) ->
  ((forall c, c ∈ candidates ->
      verifyPassword scrypt_Key c data <> Some true) ->
   found s = false /\ deliveries s = 0
   /\ tried s = calculateTotalCombinations mask)
  /\ (forall c, c ∈ candidates ->
        verifyPassword scrypt_Key c data = Some true ->
        found s = true /\ deliveries s = 1).
Proof.
  intros Hnw Hs Hall. split.
  - intros Hno.
    destruct (nomatch_inv_reachable _ _ _ _ _ Hno Hs) as (Hf & _).
    destruct (proto_inv_reachable _ _ _ _ _ Hs)
      as (_ & _ & _ & _ & Hdel & _).
    destruct (deliveries_at_most_one _ _ _ _ _ Hs) as [[H0 _] _].
    pose proof (sending_nonneg (workers s)). rewrite Hf in Hdel.
    split; [done|]. split; [lia|].
    by apply (exhaustive_count scrypt_Key mask data numWorkers).
  - intros c Hc Hv.
    by apply (match_delivered scrypt_Key mask data numWorkers s c).
Qed.

(** X12: the send on the result channel never blocks.  In every run, a
    worker that has won the compare-and-swap is the only one to send,
    finds the one-slot channel empty, and its send puts the candidate
    there and lets the worker return. *)
Theorem worker_send_never_blocks (s : state) (i : nat) (pw : string) :
  reachable s -> alive s = true -> workers s !! i = Some (WSend pw) ->
  sending (workers s) = 1 /\ result s = []
  /\ exists s', exec (TWorker i) s = Some s'
       /\ workers s' !! i = Some WReturn /\ result s' = [pw].
Proof.
  intros Hs Ha Hi.
  destruct (proto_inv_reachable _ _ _ _ _ Hs)
    as (_ & _ & _ & _ & Hdel & _).
  pose proof (sending_lookup _ _ _ Hi) as Hsend. simpl in Hsend.
  pose proof (main_took_nonneg (main s)) as Hm.
  unfold deliveries in Hdel.
  assert (Hr : result s = []).
  { destruct (result s); [done|]. simpl in Hdel.
    destruct (found s); lia. }
  split; [destruct (found s); rewrite Hr in Hdel; simpl in Hdel; lia|].
  split; [done|]. unfold exec. rewrite Ha, Hi. simpl. rewrite Hr. simpl.
  eexists. split; [done|]. simpl. split; [|done].
  apply list_lookup_insert_eq. by eapply lookup_lt_Some.
Qed.

End SearchReports.

Lemma found_report_sound_witness :
  exists s, reachable example_Key "d" record_of_0 1 s
    /\ main s = MReturned (Found "0" 10)
    /\ verifyPassword example_Key "0" record_of_0 = Some true
    /\ 1 <= 10 <= tried s
    /\ tried s <= calculateTotalCombinations "d".
Proof.
  assert (Hrun : exists s,
            run example_Key "d" record_of_0
              ([TGen] ++ replicate 10 TGen ++ replicate 42 (TWorker 0)
               ++ [TMainResult; TMainPrint; TMainReturn]) (init 1) = Some s
            /\ main s = MReturned (Found "0" 10)).
  { eexists. split; [by vm_compute|done]. }
  destruct Hrun as (s & Hrun & Hm). apply run_reachable in Hrun.
  exists s. split; [done|]. split; [done|].
  destruct (found_report_sound _ _ _ _ s "0" 10 Hrun Hm)
    as (_ & Hv & _ & _ & Hn).
  split; [done|]. apply Hn. by vm_compute.
Defined.

Lemma result_delivered_at_most_once_witness :
  exists s s', reachable example_Key "d" record_of_0 1 s
    /\ deliveries s = 0 /\ deliveries s' = 1 /\ found s' = true.
Proof.
  assert (Hrun : exists s,
            run example_Key "d" record_of_0
              ([TGen] ++ replicate 10 TGen ++ replicate 40 (TWorker 0))
              (init 1) = Some s /\ deliveries s = 0
            /\ exists s', run example_Key "d" record_of_0
                            [TWorker 0; TWorker 0; TMainResult] s = Some s'
                          /\ deliveries s' = 1).
  { eexists. split; [by vm_compute|]. split; [done|].
    eexists. split; [by vm_compute|done]. }
  destruct Hrun as (s & Hrun & Hd & s' & Hrun' & Hd').
  apply run_reachable in Hrun. apply run_rtc in Hrun'.
  exists s, s'. split; [done|]. split; [done|]. split; [done|].
  destruct (result_delivered_at_most_once _ _ _ _ s s' Hrun Hrun')
    as (_ & _ & Hf & _).
  by apply Hf.
Defined.

Lemma search_run_bounded_witness :
  exists s, nsteps (step example_Key "d" record_of_0) 56 (init 1) s
    /\ main s = MReturned (Found "0" 10)
    /\ 56 <= 8 * SearchSpace "d" + 1 + 29.
Proof.
  assert (Hrun : exists s,
            run example_Key "d" record_of_0
              ([TGen] ++ replicate 10 TGen ++ replicate 42 (TWorker 0)
               ++ [TMainResult; TMainPrint; TMainReturn]) (init 1) = Some s
            /\ main s = MReturned (Found "0" 10)).
  { eexists. split; [by vm_compute|done]. }
  destruct Hrun as (s & Hrun & Hm). apply run_nsteps in Hrun.
  exists s. split; [exact Hrun|]. split; [done|].
  exact (search_run_bounded example_Key "d" record_of_0 1 56 s Hrun).
Defined.

Lemma search_never_deadlocks_witness :
  (exists s s' r, reachable example_Key "d" record_of_0 1 s
     /\ workers s = [WVerify "1"]
     /\ rtc (step example_Key "d" record_of_0) s s'
     /\ main s' = MReturned r)
  /\ (exists s c, reachable example_Key "d" record_zero_keyLen 1 s
        /\ workers s = [WPanic] /\ crashed s = true
        /\ verifyPassword example_Key c record_zero_keyLen = None).
Proof.
  assert (H1 : (1 <= 1)%nat) by lia. split.
  - assert (Hrun : exists s,
              run example_Key "d" record_of_0
                [TGen; TGen; TWorker 0; TWorker 0; TWorker 0] (init 1)
              = Some s
              /\ workers s = [WVerify "1"]).
    { eexists. split; [by vm_compute|done]. }
    destruct Hrun as (s & Hrun & Hw). apply run_reachable in Hrun.
    assert (Hnp : forall c, c ∈ odometer_enum (mask_charsets "d") ->
                    verifyPassword example_Key c record_of_0 <> None).
    { apply Forall_forall, (bool_decide_unpack _). by vm_compute. }
    destruct (search_never_deadlocks example_Key "d" record_of_0 1 s H1 Hrun)
      as (_ & _ & _ & Hrep).
    destruct (Hrep Hnp) as (_ & s' & r & Hrt & Hr).
    by exists s, s', r.
  - assert (Hrun : exists s,
              run example_Key "d" record_zero_keyLen
                [TGen; TGen; TWorker 0; TWorker 0; TWorker 0; TWorker 0]
                (init 1) = Some s
              /\ workers s = [WPanic] /\ crashed s = true).
    { eexists. split; [by vm_compute|done]. }
    destruct Hrun as (s & Hrun & Hw & Hcr). apply run_reachable in Hrun.
    destruct (search_never_deadlocks example_Key "d" record_zero_keyLen 1 s
                H1 Hrun) as (_ & _ & Hp & _).
    destruct (Hp Hcr) as (c & _ & Hc).
    by exists s, c.
Defined.

Lemma not_found_report_meaning_witness :
  exists s, reachable example_Key "d" record_no_match 1 s
    /\ main s = MReturned (NotFound 1)
    /\ gen s = GDone
    /\ tried s = 2
    /\ 1 <= tried s.
Proof.
  assert (Hrun : exists s,
            run example_Key "d" record_no_match
              ([TGen] ++ replicate 10 TGen
               ++ [TWorker 0; TWorker 0; TWorker 0; TGen; TGen;
                   TWaiter; TWaiter; TMainDone; TMainPrint;
                   TWorker 0; TWorker 0; TWorker 0; TWorker 0;
                   TMainReturn]) (init 1)
            = Some s
            /\ main s = MReturned (NotFound 1) /\ tried s = 2).
  { eexists. split; [by vm_compute|done]. }
  destruct Hrun as (s & Hrun & Hm & Ht). apply run_reachable in Hrun.
  exists s. split; [done|]. split; [done|].
  destruct (not_found_report_meaning _ _ _ _ s 1 Hrun Hm)
    as (Hg & _ & _ & Hn & _).
  split; [done|]. split; [done|]. apply Hn. by vm_compute.
Defined.

Lemma completed_search_outcome_witness :
  exists s, reachable example_Key "d" record_no_match 1 s
    /\ workers s = [WReturn]
    /\ tried s = calculateTotalCombinations "d"
    /\ calculateTotalCombinations "d" = 10.
Proof.
  assert (Hrun : exists s,
            run example_Key "d" record_no_match
              ([TGen] ++ replicate 10 TGen ++ [TGen; TGen]
               ++ replicate 41 (TWorker 0)) (init 1) = Some s
            /\ workers s = [WReturn]).
  { eexists. split; [by vm_compute|done]. }
  destruct Hrun as (s & Hrun & Hw). apply run_reachable in Hrun.
  exists s. split; [done|]. split; [done|]. split; [|done].
  assert (H1 : (1 <= 1)%nat) by lia.
  assert (Hall : Forall (fun w => w = WReturn) (workers s))
    by (rewrite Hw; by repeat constructor).
  destruct (completed_search_outcome example_Key "d" record_no_match 1 s
              H1 Hrun Hall) as [Hno _].
  apply Hno. apply Forall_forall, (bool_decide_unpack _). by vm_compute.
Defined.

Lemma worker_send_never_blocks_witness :
  exists s s', reachable example_Key "d" record_of_0 1 s
    /\ workers s = [WSend "0"]
    /\ exec example_Key "d" record_of_0 (TWorker 0) s = Some s'
    /\ result s' = ["0"].
Proof.
  assert (Hrun : exists s,
            run example_Key "d" record_of_0
              ([TGen] ++ replicate 10 TGen ++ replicate 41 (TWorker 0))
              (init 1) = Some s
            /\ workers s = [WSend "0"] /\ alive s = true).
  { eexists. split; [by vm_compute|done]. }
  destruct Hrun as (s & Hrun & Hw & Ha). apply run_reachable in Hrun.
  assert (Hi : workers s !! 0%nat = Some (WSend "0")) by (by rewrite Hw).
  destruct (worker_send_never_blocks example_Key "d" record_of_0 1 s 0 "0"
              Hrun Ha Hi) as (_ & _ & s' & Hex & _ & Hr).
  by exists s, s'.
Defined.
(** ** The credential record: what [parseFile] accepts and rejects *)

Lemma Split_length (s : string) (sep : Go.byte) :
  length (Lib.Split s sep) = S (count_byte sep s).
Proof.
  induction s as [|c t IH]; simpl; [done|].
  destruct (Ascii.eqb c sep); simpl; [by rewrite IH|].
  destruct (Lib.Split t sep) as [|h parts]; [done|]. by rewrite <- IH.
Qed.

Lemma Atoi_range (s : string) (n : Z) :
  Lib.Atoi s = Some n -> int_range n.
Proof.
  unfold Lib.Atoi, int_range.
  destruct (match s with
            | String "-" t => (true, t)
            | String "+" t => (false, t)
            | _ => (false, s)
            end) as [neg body].
  destruct body as [|c body]; [done|].
  destruct (Lib.digits 0 (Go.bytes_of (String c body))) as [v|]; [|done].
  destruct (_ <=? _) eqn:H1; [|done]. destruct (_ <? _) eqn:H2; [|done].
  intros [= <-]. lia.
Qed.

Lemma Decode_length (src dst : list Go.byte) :
  Lib.Decode src = Some dst -> length src = (2 * length dst)%nat.
Proof.
  revert src. induction dst as [|d dst IH]; intros src.
  - destruct src as [|p [|q t]]; simpl; [done..|].
    by repeat case_match.
  - destruct src as [|p [|q t]]; simpl; [done..|].
    destruct (Lib.fromHexChar p); [|done].
    destruct (Lib.fromHexChar q); [|done].
    destruct (Lib.Decode t) as [dst'|] eqn:Ht; [|done].
    intros [= _ ->]. rewrite (IH t Ht). lia.
Qed.

Lemma DecodeString_length (s : string) (dst : list Go.byte) :
  Lib.DecodeString s = Some dst -> String.length s = (2 * length dst)%nat.
Proof.
  unfold Lib.DecodeString. intros H. rewrite string_length_bytes.
  by apply Decode_length.
Qed.

Section RecordParsing.

Variable TrimFunc_IsSpace : list Go.byte -> list Go.byte.
Variable TrimRightFunc_IsSpace : list Go.byte -> list Go.byte.

Local Abbreviation TrimSpace :=
  (Lib.TrimSpace TrimFunc_IsSpace TrimRightFunc_IsSpace).
Local Abbreviation parse :=
  (parseFile TrimFunc_IsSpace TrimRightFunc_IsSpace).

(** X13: the field count decides the format error.  For a readable
    file whose trimmed content holds [k] asterisks: when [k] is not 5,
    [parseFile] fails with the format error that reports [k + 1] parts,
    whatever the fields are; when [k] is 5 it never fails with a format
    error. *)
Theorem parseFile_field_count (ReadFile : string -> option string)
    (filename content : string) :
  ReadFile filename = Some content ->
  (count_byte "*"%char (TrimSpace content) <> 5%nat ->
   parse ReadFile filename
   = inr (InvalidFormat (S (count_byte "*"%char (TrimSpace content)))))
  /\ (count_byte "*"%char (TrimSpace content) = 5%nat ->
      forall n, parse ReadFile filename <> inr (InvalidFormat n)).
Proof.
  intros Hread. unfold parseFile. rewrite Hread.
  pose proof (Split_length (TrimSpace content) "*"%char) as Hlen.
  destruct (Lib.Split (TrimSpace content) "*"%char)
    as [|p0 [|p1 [|p2 [|p3 [|p4 [|p5 [|p6 parts]]]]]]];
    simpl in Hlen; (split; [intros Hk|intros Hk n]);
    try (by rewrite <- Hlen); try lia.
  by repeat case_match.
Qed.

(** X14: what an accepted record is.  When [parseFile] succeeds, the
    file was readable, its trimmed content has exactly six fields, the
    four numbers are within the 64-bit [int], the salt and digest
    fields hold two hexadecimal digits for each byte, and the record
    text printed from the parsed data in the format of the generation
    utility is parsed to the same data again. *)
Theorem parseFile_accepted_record (ReadFile : string -> option string)
    (filename : string) (d : ScryptData.t) :
  parse ReadFile filename = inl d ->
  (exists content p0 p1 p2 p3 p4 p5,
      ReadFile filename = Some content
      /\ Lib.Split (TrimSpace content) "*"%char = [p0; p1; p2; p3; p4; p5]
      /\ String.length p4 = (2 * length (ScryptData.Salt d))%nat
      /\ String.length p5 = (2 * length (ScryptData.Hash d))%nat)
  /\ int_range (ScryptData.N d) /\ int_range (ScryptData.R d)
  /\ int_range (ScryptData.P d) /\ int_range (ScryptData.KeyLen d)
  /\ forall ReadFile' filename',
      ReadFile' filename'
      = Some (record_text (ScryptData.N d) (ScryptData.R d)
                (ScryptData.P d) (ScryptData.KeyLen d)
                (ScryptData.Salt d) (ScryptData.Hash d)) ->
      parse ReadFile' filename' = inl d.
Proof.
  unfold parseFile at 1.
  destruct (ReadFile filename) as [content|] eqn:Hread; [|done].
  destruct (Lib.Split (TrimSpace content) "*"%char)
    as [|p0 [|p1 [|p2 [|p3 [|p4 [|p5 [|p6 parts]]]]]]] eqn:Hsplit;
    try done.
  destruct (Lib.Atoi p0) as [n|] eqn:H0; [|done].
  destruct (Lib.Atoi p1) as [r|] eqn:H1; [|done].
  destruct (Lib.Atoi p2) as [p|] eqn:H2; [|done].
  destruct (Lib.Atoi p3) as [k|] eqn:H3; [|done].
  destruct (Lib.DecodeString p4) as [salt|] eqn:H4; [|done].
  destruct (Lib.DecodeString p5) as [hash|] eqn:H5; [|done].
  intros [= <-]. simpl.
  apply Atoi_range in H0, H1, H2, H3.
  apply DecodeString_length in H4, H5.
  split; [by exists content, p0, p1, p2, p3, p4, p5|].
  do 4 (split; [done|]). intros ReadFile' filename' Hread'.
  eapply parseFile_record; [done..| |left; reflexivity]. done.
Qed.

End RecordParsing.

Lemma parseFile_field_count_witness :
  parseFile (fun l => l) (fun l => l)
    (fun _ => Some "16384*8*1*32*00ff
") "hash.txt"
  = inr (InvalidFormat 5).
Proof.
  refine (proj1 (parseFile_field_count (fun l => l) (fun l => l)
                   (fun _ => Some _) "hash.txt" _ eq_refl) _).
  by vm_compute.
Defined.

Lemma parseFile_accepted_record_witness :
  parseFile (fun l => l) (fun l => l)
    (fun _ => Some " +16*08*1*32*0A*FF ") "hash.txt"
  = inl (ScryptData.mk 16 8 1 32 ["010"%char] ["255"%char])
  /\ parseFile (fun l => l) (fun l => l)
       (fun _ => Some "16*8*1*32*0a*ff") "copy.txt"
     = inl (ScryptData.mk 16 8 1 32 ["010"%char] ["255"%char]).
Proof.
  assert (H : parseFile (fun l => l) (fun l => l)
                (fun _ => Some " +16*08*1*32*0A*FF ") "hash.txt"
              = inl (ScryptData.mk 16 8 1 32 ["010"%char] ["255"%char]))
    by (by vm_compute).
  split; [done|].
  destruct (parseFile_accepted_record _ _ _ _ _ H)
    as (_ & _ & _ & _ & _ & Hre).
  by apply (Hre (fun _ => Some "16*8*1*32*0a*ff") "copy.txt").
Defined.
